(** * Monte Carlo Tree Search: the two bots of [mcts_vanilla.py] and
      [mcts_modified.py]

    The search tree of the Python code is a graph of mutable [MCTSNode]
    objects linked both ways ([parent], [child_nodes]).  It is embedded as an
    arena: the tree is a list of node records, and a reference to a node is
    its index in that list.  A new node is allocated at the end of the list.

    Python exceptions are results of an error monad.  The two loops that walk
    the tree and the playout loop take a fuel argument; theorems state how
    much fuel is enough.  The random source ([random.choice],
    [random.random]) is an explicit tape of raw draws.

    The confidence-bound bot is embedded twice.  [Vanilla64] computes the
    scores as the code does, in binary64, with the logarithm of the
    platform's C library as a parameter; what depends on the value of a
    score or on the comparison of two scores is stated there.  [Vanilla]
    has the scores as exact real numbers with an infinity; it carries the
    properties that no rounding can change (which child has the infinite
    score, where the descent stops, what the tree looks like).
    Probabilities of the roulette wheel are generic in the arithmetic and
    instantiated with exact rationals and with binary64 floats. *)

From Stdlib Require Import ZArith QArith Reals Lra Lia.
From Stdlib Require PrimFloat Uint63 SpecFloat FloatAxioms.
From stdpp Require Import base option list.

Set Default Proof Using "Type".

(** ** Python results *)

Inductive exn : Set :=
| ValueError | ZeroDivisionError | KeyError | IndexError
| AssertionError | AttributeError.

(** [IllFormed]: the store holds a reference that no Python run can build
    (an index outside the arena, a child without [parent_action]).
    [OutOfFuel]: the loop needed more iterations than the fuel given. *)
Inductive result (A : Type) : Type :=
| Ok (a : A)
| Raise (e : exn)
| IllFormed
| OutOfFuel.
Arguments Ok {A} a.
Arguments Raise {A} e.
Arguments IllFormed {A}.
Arguments OutOfFuel {A}.

#[global] Instance result_ret : MRet result := @Ok.
#[global] Instance result_bind : MBind result := λ A B f m,
  match m with
  | Ok a => f a
  | Raise e => Raise e
  | IllFormed => IllFormed
  | OutOfFuel => OutOfFuel
  end.

Definition is_Ok {A} (m : result A) : Prop := ∃ a, m = Ok a.

(** A Python value that must not be [None] where it is used. *)
Definition required {A} (o : option A) : result A :=
  match o with Some a => Ok a | None => IllFormed end.

Definition is_nil {A} (l : list A) : bool :=
  match l with [] => true | _ => false end.

(** ** The random source *)

(** An infinite tape of raw draws; reading one shifts the tape. *)
Definition Rng : Type := nat → N.

Definition draw (g : Rng) : N * Rng := (g 0, λ i, g (S i)).

(** [random.choice(seq)]: [IndexError] on an empty sequence, else the element
    at an index below [len(seq)] taken from the random source. *)
Definition choice {A} (seq : list A) (g : Rng) : result (A * Rng) :=
  match seq with
  | [] => Raise IndexError
  | _ =>
      let '(r, g') := draw g in
      a ← required (seq !! N.to_nat (r mod N.of_nat (length seq))%N);
      Ok (a, g')
  end.

(** ** Python containers *)

Section Containers.
Context {K V : Type} `{EqDecision K}.

(** A [dict] in insertion order: an association list with distinct keys. *)
Fixpoint dict_get (d : list (K * V)) (k : K) : option V :=
  match d with
  | [] => None
  | (k', v) :: d' => if decide (k' = k) then Some v else dict_get d' k
  end.

(** [d[k] = v]: an existing key keeps its place, a new key goes last. *)
Fixpoint dict_set (d : list (K * V)) (k : K) (v : V) : list (K * V) :=
  match d with
  | [] => [(k, v)]
  | (k', w) :: d' =>
      if decide (k' = k) then (k', v) :: d' else (k', w) :: dict_set d' k v
  end.

Definition keys (d : list (K * V)) : list K := d.*1.
Definition values (d : list (K * V)) : list V := d.*2.

(** [list.remove(x)]: drops the first element equal to [x], [ValueError]
    when there is none. *)
Fixpoint list_remove (x : K) (l : list K) : result (list K) :=
  match l with
  | [] => Raise ValueError
  | y :: l' =>
      if decide (y = x) then Ok l'
      else l'' ← list_remove x l'; Ok (y :: l'')
  end.
End Containers.

Section Max.
Context {A Key : Type} (gt : Key → Key → bool).

(** The loop of the builtin [max(iterable, key=...)]: the key of every item
    is computed once, and an item replaces the current maximum only when
    its key is strictly greater, so the first maximum wins. *)
Fixpoint max_loop (key : A → result Key) (best : A) (best_key : Key)
    (l : list A) : result A :=
  match l with
  | [] => Ok best
  | x :: l' =>
      k ← key x;
      if gt k best_key then max_loop key x k l'
      else max_loop key best best_key l'
  end.

Definition py_max (key : A → result Key) (l : list A) : result A :=
  match l with
  | [] => Raise ValueError
  | x :: l' => k ← key x; max_loop key x k l'
  end.

(** The items of [l] have keys strictly below [k]; have keys not above [k]. *)
Definition keys_below (key : A → result Key) (k : Key) (l : list A) : Prop :=
  ∀ y, y ∈ l → ∃ ky, key y = Ok ky ∧ gt k ky = true.
Definition keys_not_above (key : A → result Key) (k : Key) (l : list A) : Prop :=
  ∀ y, y ∈ l → ∃ ky, key y = Ok ky ∧ gt ky k = false.
End Max.

(** [all(f(x) for x in l)] with a fallible test; stops at the first false. *)
Fixpoint py_all {A} (f : A → result bool) (l : list A) : result bool :=
  match l with
  | [] => Ok true
  | x :: l' => b ← f x; if b : bool then py_all f l' else Ok false
  end.

(** A comprehension whose element expression may raise. *)
Fixpoint map_result {A B} (f : A → result B) (l : list A) : result (list B) :=
  match l with
  | [] => Ok []
  | x :: l' => y ← f x; ys ← map_result f l'; Ok (y :: ys)
  end.

(** ** The game and the search tree *)

Section Engine.
Context {State Action : Type} `{EqDecision Action}.

(** Modelled from the spec: the Game Abstraction ([p2_t3.Board], which is
    not among the sources).  [points_values] is [None] on a state that is
    not terminal; player identities are 1 and 2. *)
Record Board : Type := mkBoard {
  is_ended : State → bool;
  legal_actions : State → list Action;
  next_state : State → Action → State;
  current_player : State → nat;
  points_values : State → option (nat → Z)
}.

(** Modelled from the spec: the Search Node ([mcts_node.MCTSNode], which is
    not among the sources), with the fields the two bots read and write.
    [parent] and the values of [child_nodes] are references into the
    arena. *)
Record MCTSNode : Type := mkNode {
  parent : option nat;
  parent_action : option Action;
  child_nodes : list (Action * nat);
  untried_actions : list Action;
  wins : nat;
  visits : nat
}.

(** The constructor [MCTSNode(parent, parent_action, action_list)]. *)
Definition MCTSNode_init (parent : option nat) (parent_action : option Action)
    (action_list : list Action) : MCTSNode :=
  {| parent := parent; parent_action := parent_action; child_nodes := [];
     untried_actions := action_list; wins := 0; visits := 0 |}.

(** The arena: a node reference is an index into this list. *)
Local Abbreviation Tree := (list MCTSNode).

(** Dereference a node. *)
Definition node_at (t : Tree) (n : nat) : result MCTSNode := required (t !! n).

Definition incr_visits (nd : MCTSNode) : MCTSNode :=
  {| parent := parent nd; parent_action := parent_action nd;
     child_nodes := child_nodes nd; untried_actions := untried_actions nd;
     wins := wins nd; visits := visits nd + 1 |}.

Definition incr_wins (nd : MCTSNode) : MCTSNode :=
  {| parent := parent nd; parent_action := parent_action nd;
     child_nodes := child_nodes nd; untried_actions := untried_actions nd;
     wins := wins nd + 1; visits := visits nd |}.

(** The two writes of [expand_leaf] to the expanded node. *)
Definition with_expansion (nd : MCTSNode) (rest : list Action)
    (action : Action) (child : nat) : MCTSNode :=
  {| parent := parent nd; parent_action := parent_action nd;
     child_nodes := dict_set (child_nodes nd) action child;
     untried_actions := rest; wins := wins nd; visits := visits nd |}.

(** *** Functions that are the same text in both files *)

(** [expand_leaf]: returns the store after the writes, the reference of
    the returned node, its state, and the random source. *)
Definition expand_leaf (board : Board) (t : Tree) (node : nat) (state : State)
    (g : Rng) : result (Tree * nat * State * Rng) :=
  nd ← node_at t node;
  if is_nil (untried_actions nd) then Ok (t, node, state, g)
  else
    '(action, g') ← choice (untried_actions nd) g;
    rest ← list_remove action (untried_actions nd);
    let new_state := next_state board state action in
    let child := length t in
    let child_node :=
      MCTSNode_init (Some node) (Some action) (legal_actions board new_state) in
    Ok (<[node := with_expansion nd rest action child]> t ++ [child_node],
        child, new_state, g').

(** [rollout]; [heuristic_strategy] of the modified bot is [choice] too. *)
Fixpoint rollout (fuel : nat) (board : Board) (state : State) (g : Rng)
    : result (State * Rng) :=
  if is_ended board state then Ok (state, g)
  else
    match fuel with
    | 0 => OutOfFuel
    | S fuel' =>
        '(action, g') ← choice (legal_actions board state) g;
        rollout fuel' board (next_state board state action) g'
    end.

(** [backpropagate]: the loop [while node is not None]. *)
Fixpoint backpropagate (fuel : nat) (t : Tree) (node : option nat) (won : bool)
    : result Tree :=
  match node with
  | None => Ok t
  | Some n =>
      match fuel with
      | 0 => OutOfFuel
      | S fuel' =>
          nd ← node_at t n;
          let nd1 := incr_visits nd in
          let nd2 := if won then incr_wins nd1 else nd1 in
          backpropagate fuel' (<[n := nd2]> t) (parent nd2) won
      end
  end.

(** [a > b] on visit counts, as [max] compares the keys. *)
Definition nat_gt (a b : nat) : bool := b <? a.

(** [get_best_action]: [None] when the root has no children, else the first
    key whose child has the most visits. *)
Definition get_best_action (t : Tree) (root_node : nat) : result (option Action) :=
  root ← node_at t root_node;
  if is_nil (child_nodes root) then Ok None
  else
    a ← py_max nat_gt
          (λ x, match dict_get (child_nodes root) x with
                | None => Raise KeyError
                | Some c => cn ← node_at t c; Ok (visits cn)
                end)
          (keys (child_nodes root));
    Ok (Some a).

(** [is_win]. *)
Definition is_win (board : Board) (state : State) (identity_of_bot : nat)
    : result bool :=
  match points_values board state with
  | None => Raise AssertionError
  | Some outcome => Ok (outcome identity_of_bot =? 1)%Z
  end.

(** The states the game can come to from a state, whatever the moves. *)
Inductive reachable (board : Board) (s0 : State) : State → Prop :=
| reachable_here : reachable board s0 s0
| reachable_move s a :
    reachable board s0 s → reachable board s0 (next_state board s a).

(** What the search needs of the game: from every state the game can come
    to, a playout ends within [horizon] moves, and a finished game has its
    points. *)
Record playable (board : Board) (horizon : nat) (s0 : State) : Prop := {
  playouts_end : ∀ s g, reachable board s0 s → is_Ok (rollout horizon board s g);
  finished_scored : ∀ s, is_ended board s = true → is_Some (points_values board s)
}.
End Engine.

Arguments Board : clear implicits.
Arguments MCTSNode : clear implicits.

Abbreviation Tree Action := (list (MCTSNode Action)) (only parsing).

(** ** The search driver, for either way of descending the tree *)

Section Driver.
Context {State Action : Type} `{EqDecision Action}.

(** The state a run of [think] threads through its iterations.
    [w_rollouts] is a ghost field: the Python code keeps no such counter; it
    counts the calls of [rollout], so that theorems can say which phases a
    run goes through. *)
Record World : Type := mkWorld {
  w_tree : Tree Action;
  w_rng : Rng;
  w_rollouts : nat
}.

(** [traverse t board state bot_identity g]: the descent from the root. *)
Variable traverse :
  Tree Action → Board State Action → State → nat → Rng → result (nat * State * Rng).
Variable num_nodes : nat.
(** Fuel of every playout: a bound on the length of a game. *)
Variable horizon : nat.

(** The body of the loop [for _ in range(num_nodes)]. *)
Definition iteration (board : Board State Action) (current_state : State)
    (bot_identity : nat) (w : World) : result World :=
  '(node, state, g1) ← traverse (w_tree w) board current_state bot_identity (w_rng w);
  '(t1, node1, state1, g2) ← expand_leaf board (w_tree w) node state g1;
  '(result_state, g3) ← rollout horizon board state1 g2;
  won ← is_win board result_state bot_identity;
  t2 ← backpropagate (length t1) t1 (Some node1) won;
  Ok {| w_tree := t2; w_rng := g3; w_rollouts := S (w_rollouts w) |}.

Fixpoint search_loop (k : nat) (board : Board State Action)
    (current_state : State) (bot_identity : nat) (w : World) : result World :=
  match k with
  | 0 => Ok w
  | S k' =>
      w' ← iteration board current_state bot_identity w;
      search_loop k' board current_state bot_identity w'
  end.

(** The root is the first node of the arena. *)
Definition root_node : nat := 0.

Definition initial_world (board : Board State Action) (current_state : State)
    (g : Rng) : World :=
  {| w_tree := [MCTSNode_init None None (legal_actions board current_state)];
     w_rng := g; w_rollouts := 0 |}.

(** [think], with the world it ends in ([print] left out). *)
Definition think_with (board : Board State Action) (current_state : State)
    (g : Rng) : result (option Action * World) :=
  let bot_identity := current_player board current_state in
  w ← search_loop num_nodes board current_state bot_identity
        (initial_world board current_state g);
  best_action ← get_best_action (w_tree w) root_node;
  Ok (best_action, w).
End Driver.

Arguments World : clear implicits.

(** The test of both [traverse_nodes]:
    [node.child_nodes == {} or all(child.visits == 0 for child in ...)]. *)
Definition nothing_visited {Action} (t : Tree Action) (nd : MCTSNode Action)
    : result bool :=
  if is_nil (child_nodes nd) then Ok true
  else py_all (λ c, cn ← node_at t c; Ok (visits cn =? 0)) (values (child_nodes nd)).

(** ** [mcts_vanilla.py], the scores in exact arithmetic *)

Module Vanilla.
Section Bot.
Context {State Action : Type} `{EqDecision Action}.
Local Open Scope R_scope.

Definition num_nodes : nat := 100.
Definition explore_faction : R := 2.

(** The values [ucb] returns: [float('inf')] or a finite number. *)
Inductive score : Type :=
| PosInf
| Finite (x : R).

(** [a > b] on scores. *)
Definition score_gt (a b : score) : bool :=
  match a, b with
  | PosInf, PosInf => false
  | PosInf, Finite _ => true
  | Finite _, PosInf => false
  | Finite x, Finite y => if Rlt_dec y x then true else false
  end.

(** [ucb]: [math.log] raises [ValueError] at 0, and [node.parent.visits]
    raises [AttributeError] when [node.parent] is [None]. *)
Definition ucb (t : Tree Action) (node : nat) (bot_identity : nat)
    : result score :=
  nd ← node_at t node;
  if (visits nd =? 0)%nat then Ok PosInf
  else
    let exploitation := INR (wins nd) / INR (visits nd) in
    p ← match parent nd with None => Raise AttributeError | Some p => Ok p end;
    pn ← node_at t p;
    if (visits pn =? 0)%nat then Raise ValueError
    else
      let exploration :=
        explore_faction * sqrt (ln (INR (visits pn)) / INR (visits nd)) in
      Ok (Finite (if (bot_identity =? 1)%nat then exploitation + exploration
                  else - exploitation + exploration)).

(** [max(node.child_nodes.values(), key=lambda x: ucb(x, bot_identity))] *)
Definition select_child (t : Tree Action) (nd : MCTSNode Action)
    (bot_identity : nat) : result nat :=
  py_max score_gt (λ x, ucb t x bot_identity) (values (child_nodes nd)).

Fixpoint traverse_nodes (fuel : nat) (t : Tree Action) (node : nat)
    (board : Board State Action) (state : State) (bot_identity : nat)
    : result (nat * State) :=
  nd ← node_at t node;
  if negb (is_ended board state) && is_nil (untried_actions nd) then
    unvisited ← nothing_visited t nd;
    if unvisited : bool then Ok (node, state)
    else
      match fuel with
      | O => OutOfFuel
      | S fuel' =>
          child ← select_child t nd bot_identity;
          cn ← node_at t child;
          action ← required (parent_action cn);
          traverse_nodes fuel' t child board (next_state board state action)
            bot_identity
      end
  else Ok (node, state).

(** The descent as [think] calls it: from the root, with as much fuel as
    the arena has nodes (a descent visits no node twice). *)
Definition traverse (t : Tree Action) (board : Board State Action)
    (state : State) (bot_identity : nat) (g : Rng)
    : result (nat * State * Rng) :=
  '(node, state') ← traverse_nodes (length t) t root_node board state bot_identity;
  Ok (node, state', g).

Definition think (horizon : nat) (board : Board State Action)
    (current_state : State) (g : Rng) : result (option Action * World Action) :=
  think_with traverse num_nodes horizon board current_state g.
End Bot.
End Vanilla.

(** ** [mcts_modified.py] *)

(** The arithmetic of the roulette wheel: Python computes it on floats
    ([int / int], [0 + float], [float >= float], [random()]). *)
Class Arith (num : Type) : Type := {
  num_zero : num;
  num_add : num → num → num;
  num_geb : num → num → bool;
  (** [a / b] on integers, [b] not 0 *)
  num_ratio : nat → nat → num;
  (** [random()] from a raw draw: a multiple of 2^-53 in [0, 1) *)
  num_random : N → num
}.

(** Exact arithmetic on rationals. *)
#[global] Instance Arith_Q : Arith Q := {|
  num_zero := 0%Q;
  num_add := Qplus;
  num_geb := λ a b, Qle_bool b a;
  num_ratio := λ a b, (Z.of_nat a # Pos.of_nat b)%Q;
  num_random := λ r, (Z.of_N (r mod 2 ^ 53)%N # 2 ^ 53)%Q
|}.

(** Binary64, as CPython computes. *)
Definition float_of_N (n : N) : PrimFloat.float :=
  PrimFloat.of_uint63 (Uint63.of_Z (Z.of_N n)).

#[global] Instance Arith_float : Arith PrimFloat.float := {|
  num_zero := float_of_N 0;
  num_add := PrimFloat.add;
  num_geb := λ a b, PrimFloat.leb b a;
  num_ratio := λ a b, PrimFloat.div (float_of_N (N.of_nat a)) (float_of_N (N.of_nat b));
  num_random := λ r,
    PrimFloat.mul (float_of_N (r mod 2 ^ 53)%N)
      (PrimFloat.div (float_of_N 1) (float_of_N (2 ^ 53)%N))
|}.

Module Modified.
Section Bot.
Context {State Action : Type} `{EqDecision Action}.
Context {num : Type} `{Arith num}.

Definition num_nodes : nat := 1000.

(** The loop of [roulette_wheel_selection]; falling out of it returns
    [None]. *)
Fixpoint roulette_scan (threshold cumulative_prob : num)
    (probabilities : list (Action * num)) : option Action :=
  match probabilities with
  | [] => None
  | (action, prob) :: rest =>
      let cumulative_prob := num_add cumulative_prob prob in
      if num_geb cumulative_prob threshold then Some action
      else roulette_scan threshold cumulative_prob rest
  end.

Definition roulette_wheel_selection (probabilities : list (Action * num))
    (g : Rng) : option Action * Rng :=
  let '(r, g') := draw g in
  let threshold := num_random r in
  (roulette_scan threshold num_zero probabilities, g').

(** [sum(child.visits for child in node.child_nodes.values())] *)
Definition total_visits (t : Tree Action) (nd : MCTSNode Action) : result nat :=
  vs ← map_result (λ c, cn ← node_at t c; Ok (visits cn)) (values (child_nodes nd));
  Ok (sum_list vs).

(** [{action: child.visits / total_visits for action, child in ...}] *)
Definition probabilities_of (t : Tree Action) (nd : MCTSNode Action)
    (total : nat) : result (list (Action * num)) :=
  map_result
    (λ '(action, c),
       cn ← node_at t c;
       if total =? 0 then Raise ZeroDivisionError
       else Ok (action, num_ratio (visits cn) total))
    (child_nodes nd).

Fixpoint traverse_nodes (fuel : nat) (t : Tree Action) (node : nat)
    (board : Board State Action) (state : State) (bot_identity : nat) (g : Rng)
    : result (nat * State * Rng) :=
  nd ← node_at t node;
  if negb (is_ended board state) && is_nil (untried_actions nd) then
    unvisited ← nothing_visited t nd;
    if unvisited : bool then Ok (node, state, g)
    else
      match fuel with
      | O => OutOfFuel
      | S fuel' =>
          total ← total_visits t nd;
          probabilities ← probabilities_of t nd total;
          let '(selected_action, g') := roulette_wheel_selection probabilities g in
          child ← match selected_action with
                  | None => Raise KeyError
                  | Some a =>
                      match dict_get (child_nodes nd) a with
                      | None => Raise KeyError
                      | Some c => Ok c
                      end
                  end;
          cn ← node_at t child;
          action ← required (parent_action cn);
          traverse_nodes fuel' t child board (next_state board state action)
            bot_identity g'
      end
  else Ok (node, state, g).

Definition traverse (t : Tree Action) (board : Board State Action)
    (state : State) (bot_identity : nat) (g : Rng)
    : result (nat * State * Rng) :=
  traverse_nodes (length t) t root_node board state bot_identity g.

Definition think (horizon : nat) (board : Board State Action)
    (current_state : State) (g : Rng) : result (option Action * World Action) :=
  think_with traverse num_nodes horizon board current_state g.
End Bot.
End Modified.

(** ** [mcts_vanilla.py] in binary64 *)

(** The confidence bound and the descent as the code computes them.  [log]
    is the logarithm of the platform's C library, which [math.log] calls on
    the float of a positive [int]; its rounding is the library's. *)
Module Vanilla64.
Section Bot.
Context {State Action : Type} `{EqDecision Action}.
Variable log : PrimFloat.float → PrimFloat.float.

Definition explore_faction : PrimFloat.float := float_of_N 2.

(** [math.log(n)] on an [int]: [ValueError] unless [n] is positive. *)
Definition math_log (n : nat) : result PrimFloat.float :=
  if n =? 0 then Raise ValueError else Ok (log (float_of_N (N.of_nat n))).

(** [math.sqrt(x)]: [ValueError] on a negative number. *)
Definition math_sqrt (x : PrimFloat.float) : result PrimFloat.float :=
  if PrimFloat.ltb x (float_of_N 0) then Raise ValueError
  else Ok (PrimFloat.sqrt x).

(** [a > b] on floats, as [max] compares the keys. *)
Definition score_gt (a b : PrimFloat.float) : bool := PrimFloat.ltb b a.

(** [ucb]: [int / int] is the float quotient, [float / int] converts the
    [int]; [node.parent.visits] raises [AttributeError] when [node.parent]
    is [None]. *)
Definition ucb (t : Tree Action) (node : nat) (bot_identity : nat)
    : result PrimFloat.float :=
  nd ← node_at t node;
  if visits nd =? 0 then Ok PrimFloat.infinity
  else
    let exploitation := num_ratio (wins nd) (visits nd) in
    p ← match parent nd with None => Raise AttributeError | Some p => Ok p end;
    pn ← node_at t p;
    l ← math_log (visits pn);
    r ← math_sqrt (PrimFloat.div l (float_of_N (N.of_nat (visits nd))));
    let exploration := PrimFloat.mul explore_faction r in
    Ok (if bot_identity =? 1 then PrimFloat.add exploitation exploration
        else PrimFloat.add (PrimFloat.opp exploitation) exploration).

(** [max(node.child_nodes.values(), key=lambda x: ucb(x, bot_identity))] *)
Definition select_child (t : Tree Action) (nd : MCTSNode Action)
    (bot_identity : nat) : result nat :=
  py_max score_gt (λ x, ucb t x bot_identity) (values (child_nodes nd)).

Fixpoint traverse_nodes (fuel : nat) (t : Tree Action) (node : nat)
    (board : Board State Action) (state : State) (bot_identity : nat)
    : result (nat * State) :=
  nd ← node_at t node;
  if negb (is_ended board state) && is_nil (untried_actions nd) then
    unvisited ← nothing_visited t nd;
    if unvisited : bool then Ok (node, state)
    else
      match fuel with
      | O => OutOfFuel
      | S fuel' =>
          child ← select_child t nd bot_identity;
          cn ← node_at t child;
          action ← required (parent_action cn);
          traverse_nodes fuel' t child board (next_state board state action)
            bot_identity
      end
  else Ok (node, state).

Definition traverse (t : Tree Action) (board : Board State Action)
    (state : State) (bot_identity : nat) (g : Rng)
    : result (nat * State * Rng) :=
  '(node, state') ← traverse_nodes (length t) t root_node board state bot_identity;
  Ok (node, state', g).

Definition think (horizon : nat) (board : Board State Action)
    (current_state : State) (g : Rng) : result (option Action * World Action) :=
  think_with traverse Vanilla.num_nodes horizon board current_state g.
End Bot.
End Vanilla64.

(** ** Shape of the arena *)

Section Shape.
Context {Action : Type}.

(** [on_path t n m]: walking [parent] references from [n] reaches [m]
    ([n] itself included). *)
Inductive on_path (t : Tree Action) : nat → nat → Prop :=
| on_path_here n : on_path t n n
| on_path_up n nd p m :
    t !! n = Some nd → parent nd = Some p → on_path t p m → on_path t n m.

(** A node is allocated after its parent. *)
Definition parents_below (t : Tree Action) : Prop :=
  ∀ i nd p, t !! i = Some nd → parent nd = Some p → p < i.

(** Every entry of a [child_nodes] is a node of the arena that points back. *)
Definition children_linked (t : Tree Action) : Prop :=
  ∀ i nd a c, t !! i = Some nd → (a, c) ∈ child_nodes nd →
    ∃ cn, t !! c = Some cn ∧ parent cn = Some i ∧ parent_action cn = Some a.

(** A node was visited at most as often as its parent. *)
Definition visits_below_parent (t : Tree Action) : Prop :=
  ∀ i nd p pn, t !! i = Some nd → parent nd = Some p → t !! p = Some pn →
    visits nd ≤ visits pn.

Definition wins_le_visits (t : Tree Action) : Prop :=
  ∀ i nd, t !! i = Some nd → wins nd ≤ visits nd.

(** What the search keeps true of its tree between two iterations. *)
Record tree_inv (t : Tree Action) : Prop := {
  inv_root : ∃ r, t !! root_node = Some r ∧ parent r = None;
  inv_parents : parents_below t;
  inv_children : children_linked t;
  inv_visits : visits_below_parent t;
  inv_wins : wins_le_visits t
}.

(** No child yet, or no child visited yet: the node is where the descent
    stops and expansion takes over. *)
Definition unvisited (t : Tree Action) (nd : MCTSNode Action) : Prop :=
  child_nodes nd = [] ∨
  ∀ c, c ∈ values (child_nodes nd) → ∃ cn, t !! c = Some cn ∧ visits cn = 0.

(** Some child was visited, and every child is a node of the arena. *)
Definition some_visited (t : Tree Action) (nd : MCTSNode Action) : Prop :=
  (∀ c, c ∈ values (child_nodes nd) → is_Some (t !! c)) ∧
  ∃ c cn, c ∈ values (child_nodes nd) ∧ t !! c = Some cn ∧ visits cn ≠ 0.

(** One step of [backpropagate] at a node. *)
Definition bump (won : bool) (nd : MCTSNode Action) : MCTSNode Action :=
  {| parent := parent nd; parent_action := parent_action nd;
     child_nodes := child_nodes nd; untried_actions := untried_actions nd;
     wins := if won then wins nd + 1 else wins nd; visits := visits nd + 1 |}.
End Shape.

(** ** Selection as the specification words it *)

Section SpecWords.

(** The confidence bound in the words of the specification,
    [wins/visits + C*sqrt(ln(parent.visits)/visits)] with [C = 2.0] and the
    exploitation term negated or not, computed in binary64. *)
Definition confidence_bound (log : PrimFloat.float → PrimFloat.float)
    (negated : bool) (wins visits parent_visits : nat) : PrimFloat.float :=
  let exploitation :=
    PrimFloat.div (float_of_N (N.of_nat wins)) (float_of_N (N.of_nat visits)) in
  let exploration :=
    PrimFloat.mul (float_of_N 2)
      (PrimFloat.sqrt
         (PrimFloat.div (log (float_of_N (N.of_nat parent_visits)))
            (float_of_N (N.of_nat visits)))) in
  if negated then PrimFloat.add (PrimFloat.opp exploitation) exploration
  else PrimFloat.add exploitation exploration.
End SpecWords.

Section SpecWheel.
Context {Action num : Type} `{Arith num}.

(** The probability mass of the first [k] entries. *)
Definition cumulative_mass (probabilities : list (Action * num)) (k : nat) : num :=
  foldl num_add num_zero (take k (values probabilities)).

(** The first entry, in enumeration order, whose cumulative mass reaches or
    exceeds the threshold ([list_find] returns the first match, with its
    position). *)
Definition first_reaching (threshold : num) (probabilities : list (Action * num))
    : option Action :=
  p ← list_find
        (λ i, num_geb (cumulative_mass probabilities (S i)) threshold = true)
        (seq 0 (length probabilities));
  keys probabilities !! p.2.
End SpecWheel.

(** ** A small game for concrete runs *)

(** One pile of tokens; the players 1 and 2 take one or two tokens in turn,
    and the player who cannot move has lost.  A state is the pile and the
    player to move; an action is the number of tokens taken. *)
Module Takeaway.
Definition board : Board (nat * nat) nat := {|
  is_ended := λ s, s.1 =? 0;
  legal_actions := λ s, match s.1 with 0 => [] | 1 => [1] | _ => [1; 2] end;
  next_state := λ s a, (s.1 - a, 3 - s.2);
  current_player := λ s, s.2;
  points_values := λ s,
    if s.1 =? 0 then Some (λ i, if i =? s.2 then (-1)%Z else 1%Z) else None
|}.

(** The same game on a board that goes on listing both moves when the pile
    is empty (taking from an empty pile leaves it empty). *)
Definition lenient_board : Board (nat * nat) nat := {|
  is_ended := is_ended board;
  legal_actions := λ _, [1; 2];
  next_state := next_state board;
  current_player := current_player board;
  points_values := points_values board
|}.

(** A tape that always draws 0: every choice takes the first element. *)
Definition zeros : Rng := λ _, 0%N.

(** A tape that repeats the draws of a list. *)
Definition cycle (l : list N) : Rng := λ i, nth (i mod length l) l 0%N.

(** A tree over the game from the state [(3, 1)]: the root, the child after
    taking one token (player 2 to move) and its child after one more token
    (player 1 to move). *)
Definition path_tree : Tree nat := [
  {| parent := None; parent_action := None; child_nodes := [(1, 1)];
     untried_actions := [2]; wins := 1; visits := 2 |};
  {| parent := Some 0; parent_action := Some 1; child_nodes := [(1, 2)];
     untried_actions := [2]; wins := 1; visits := 2 |};
  {| parent := Some 1; parent_action := Some 1; child_nodes := [];
     untried_actions := [1]; wins := 1; visits := 1 |}
].

(** A root with three children visited 10, 30 and 60 times, and a variant
    where the second child is still unvisited. *)
Definition leaf (a wins visits : nat) : MCTSNode nat :=
  {| parent := Some 0; parent_action := Some a; child_nodes := [];
     untried_actions := []; wins := wins; visits := visits |}.

Definition fan_root (wins visits : nat) : MCTSNode nat :=
  {| parent := None; parent_action := None;
     child_nodes := [(1, 1); (2, 2); (3, 3)];
     untried_actions := []; wins := wins; visits := visits |}.

Definition fan_tree : Tree nat :=
  [fan_root 50 100; leaf 1 9 10; leaf 2 11 30; leaf 3 30 60].

Definition fan_tree_fresh : Tree nat :=
  [fan_root 39 70; leaf 1 9 10; leaf 2 0 0; leaf 3 30 60].

(** A root with four children visited 1, 4, 1 and 1 times. *)
Definition skew_root : MCTSNode nat :=
  {| parent := None; parent_action := None;
     child_nodes := [(1, 1); (2, 2); (3, 3); (4, 4)];
     untried_actions := []; wins := 3; visits := 7 |}.

Definition skew_tree : Tree nat :=
  [skew_root; leaf 1 1 1; leaf 2 1 4; leaf 3 0 1; leaf 4 1 1].

(** A tape of the largest raw draw: [random()] returns [1 - 2^-53]. *)
Definition largest : Rng := λ _, (2 ^ 53 - 1)%N.

(** The probabilities 0.1, 0.3 and 0.6 of the children of [fan_tree]. *)
Definition fan_probabilities : list (nat * Q) :=
  [(1, (10 # 100)%Q); (2, (30 # 100)%Q); (3, (60 # 100)%Q)].

(** A root visited 54945 times whose two children have 11880 wins in 22465
    visits and 17400 wins in 32449 visits. *)
Definition tie_tree : Tree nat := [
  {| parent := None; parent_action := None; child_nodes := [(1, 1); (2, 2)];
     untried_actions := []; wins := 29280; visits := 54945 |};
  {| parent := Some 0; parent_action := Some 1; child_nodes := [];
     untried_actions := []; wins := 11880; visits := 22465 |};
  {| parent := Some 0; parent_action := Some 2; child_nodes := [];
     untried_actions := []; wins := 17400; visits := 32449 |}
].
End Takeaway.

(** The values of [math.log] at the integers 1 to 100 and at 54945, as a
    common C library (GNU, x86-64) returns them. *)
Module Libm.
Import PrimFloat.
Local Open Scope float_scope.
Definition table : list (N * float) := [
   (1%N, 0x0p+0); (2%N, 0x1.62e42fefa39efp-1); (3%N, 0x1.193ea7aad030bp+0);
   (4%N, 0x1.62e42fefa39efp+0); (5%N, 0x1.9c041f7ed8d33p+0); (6%N, 0x1.cab0bfa2a2002p+0);
   (7%N, 0x1.f2272ae325a57p+0); (8%N, 0x1.0a2b23f3bab73p+1); (9%N, 0x1.193ea7aad030bp+1);
   (10%N, 0x1.26bb1bbb55516p+1); (11%N, 0x1.32ee3b77f374cp+1); (12%N, 0x1.3e116bcd39e7dp+1);
   (13%N, 0x1.485042b318c51p+1); (14%N, 0x1.51cca16d7bba7p+1); (15%N, 0x1.5aa16394d481fp+1);
   (16%N, 0x1.62e42fefa39efp+1); (17%N, 0x1.6aa6bc1fa7f7ap+1); (18%N, 0x1.71f7b3a6b9186p+1);
   (19%N, 0x1.78e360604b32cp+1); (20%N, 0x1.7f7427b73e391p+1); (21%N, 0x1.85b2e946faeb1p+1);
   (22%N, 0x1.8ba74773dc5c8p+1); (23%N, 0x1.9157dfdd1b3f0p+1); (24%N, 0x1.96ca77c922cf9p+1);
   (25%N, 0x1.9c041f7ed8d33p+1); (26%N, 0x1.a1094eaf01acdp+1); (27%N, 0x1.a5ddfb8038490p+1);
   (28%N, 0x1.aa85ad6964a23p+1); (29%N, 0x1.af038cbcdfe1fp+1); (30%N, 0x1.b35a6f90bd69bp+1);
   (31%N, 0x1.b78ce48912b5ap+1); (32%N, 0x1.bb9d3beb8c86bp+1); (33%N, 0x1.bf8d8f4d5b8d1p+1);
   (34%N, 0x1.c35fc81b90df6p+1); (35%N, 0x1.c715a530ff3c5p+1); (36%N, 0x1.cab0bfa2a2002p+1);
   (37%N, 0x1.ce328ee3ac7bdp+1); (38%N, 0x1.d19c6c5c341a8p+1); (39%N, 0x1.d4ef968880dd6p+1);
   (40%N, 0x1.d82d33b32720dp+1); (41%N, 0x1.db565458eac4ep+1); (42%N, 0x1.de6bf542e3d2dp+1);
   (43%N, 0x1.e16f01614ec11p+1); (44%N, 0x1.e460536fc5443p+1); (45%N, 0x1.e740b76a3c9a4p+1);
   (46%N, 0x1.ea10ebd90426cp+1); (47%N, 0x1.ecd1a2f90f0b6p+1); (48%N, 0x1.ef8383c50bb75p+1);
   (49%N, 0x1.f2272ae325a57p+1); (50%N, 0x1.f4bd2b7ac1bafp+1); (51%N, 0x1.f7460ff5100ffp+1);
   (52%N, 0x1.f9c25aaaea949p+1); (53%N, 0x1.fc32868223cabp+1); (54%N, 0x1.fe97077c2130cp+1);
   (55%N, 0x1.0078259bafef3p+2); (56%N, 0x1.019f5cb2a6c50p+2); (57%N, 0x1.02c15a1ad9a59p+2);
   (58%N, 0x1.03de4c5c6464dp+2); (59%N, 0x1.04f65f9c72979p+2); (60%N, 0x1.0609bdc65328bp+2);
   (61%N, 0x1.07188eb126c0dp+2); (62%N, 0x1.0822f8427dcebp+2); (63%N, 0x1.09291e8e3181bp+2);
   (64%N, 0x1.0a2b23f3bab73p+2); (65%N, 0x1.0b29293942975p+2); (66%N, 0x1.0c234da4a23a6p+2);
   (67%N, 0x1.0d19af128112dp+2); (68%N, 0x1.0e0c6a0bbce39p+2); (69%N, 0x1.0efb99d941abbp+2);
   (70%N, 0x1.0fe7589674121p+2); (71%N, 0x1.10cfbf424d6c9p+2); (72%N, 0x1.11b4e5cf4573fp+2);
   (73%N, 0x1.1296e33222fe6p+2); (74%N, 0x1.1375cd6fcab1dp+2); (75%N, 0x1.1451b9aa2075cp+2);
   (76%N, 0x1.152abc2c0e812p+2); (77%N, 0x1.1600e874c323cp+2); (78%N, 0x1.16d4514234e29p+2);
   (79%N, 0x1.17a5089afb173p+2); (80%N, 0x1.18731fd788044p+2); (81%N, 0x1.193ea7aad030bp+2);
   (82%N, 0x1.1a07b02a69d65p+2); (83%N, 0x1.1ace48d62e482p+2); (84%N, 0x1.1b92809f665d4p+2);
   (85%N, 0x1.1c5465ef8a30ap+2); (86%N, 0x1.1d1406ae9bd46p+2); (87%N, 0x1.1dd1704923fd2p+2);
   (88%N, 0x1.1e8cafb5d7160p+2); (89%N, 0x1.1f45d17ae8af6p+2); (90%N, 0x1.1ffce1b312c10p+2);
   (91%N, 0x1.20b1ec1255cbep+2); (92%N, 0x1.2164fbea76874p+2); (93%N, 0x1.22161c2f3d670p+2);
   (94%N, 0x1.22c5577a7bf99p+2); (95%N, 0x1.2372b80fdbce3p+2); (96%N, 0x1.241e47e07a4f8p+2);
   (97%N, 0x1.24c8108e54bf8p+2); (98%N, 0x1.25701b6f8746ap+2); (99%N, 0x1.2616719161d2bp+2);
   (100%N, 0x1.26bb1bbb55516p+2);
   (54945%N, 0x1.5d403566d128dp+3)
].
End Libm.

(** A logarithm for the examples: the table, [nan] off the table. *)
Definition libm_log (x : PrimFloat.float) : PrimFloat.float :=
  match List.find (λ e, PrimFloat.eqb (float_of_N e.1) x) Libm.table with
  | Some e => e.2
  | None => PrimFloat.nan
  end.

(** ** The game along the tree *)

Section GameAlongTree.
Context {State Action : Type} `{EqDecision Action}.

(** [played board s s']: moves that are legal where they are made, each from
    a state that is not finished, lead from [s] to [s']. *)
Inductive played (board : Board State Action) : State → State → Prop :=
| played_here s : played board s s
| played_move s a s' :
    is_ended board s = false → a ∈ legal_actions board s →
    played board (next_state board s a) s' → played board s s'.

(** [state_at board s0 t n s]: [s] is the state of the game at node [n]: the
    state [s0] the search started from at a node without parent, else the
    state after the node's [parent_action] from the state at its parent. *)
Inductive state_at (board : Board State Action) (s0 : State) (t : Tree Action)
    : nat → State → Prop :=
| state_at_root n nd :
    t !! n = Some nd → parent nd = None → state_at board s0 t n s0
| state_at_child n nd p a s :
    t !! n = Some nd → parent nd = Some p → parent_action nd = Some a →
    state_at board s0 t p s → state_at board s0 t n (next_state board s a).

(** Only the root has no parent. *)
Definition rooted (t : Tree Action) : Prop :=
  ∀ i nd, t !! i = Some nd → parent nd = None → i = root_node.

(** A node with a parent has the action that led to it. *)
Definition acted (t : Tree Action) : Prop :=
  ∀ i nd p, t !! i = Some nd → parent nd = Some p → is_Some (parent_action nd).

(** Every node but the root has been visited. *)
Definition visited_below_root (t : Tree Action) : Prop :=
  ∀ i nd, t !! i = Some nd → i ≠ root_node → visits nd ≠ 0.

(** What the search keeps true of its tree between two iterations, besides
    [tree_inv]. *)
Record search_inv (t : Tree Action) : Prop := {
  sinv_tree : tree_inv t;
  sinv_rooted : rooted t;
  sinv_acted : acted t;
  sinv_visited : visited_below_root t
}.

(** The actions a node has tried or has still to try are legal in its
    state. *)
Definition actions_legal (board : Board State Action) (s0 : State)
    (t : Tree Action) : Prop :=
  ∀ n nd s, t !! n = Some nd → state_at board s0 t n s →
    ∀ a, a ∈ keys (child_nodes nd) ++ untried_actions nd →
      a ∈ legal_actions board s.

(** The actions tried and the actions still to try are, together, the legal
    actions of the node's state, each once. *)
Definition actions_partitioned (board : Board State Action) (s0 : State)
    (t : Tree Action) : Prop :=
  ∀ n nd s, t !! n = Some nd → state_at board s0 t n s →
    keys (child_nodes nd) ++ untried_actions nd ≡ₚ legal_actions board s.

(** A node is the child its parent has recorded under the node's action. *)
Definition children_recorded (t : Tree Action) : Prop :=
  ∀ i nd p a, t !! i = Some nd → parent nd = Some p → parent_action nd = Some a →
    ∃ pn, t !! p = Some pn ∧ dict_get (child_nodes pn) a = Some i.

(** The board lists no action twice. *)
Definition distinct_actions (board : Board State Action) : Prop :=
  ∀ s, NoDup (legal_actions board s).

(** The game goes down a rank with every legal move, and a state that is not
    finished has a legal move. *)
Record ranked (board : Board State Action) (rank : State → nat) : Prop := {
  ranked_move : ∀ s a, is_ended board s = false → a ∈ legal_actions board s →
    rank (next_state board s a) < rank s;
  ranked_legal : ∀ s, is_ended board s = false → legal_actions board s ≠ []
}.
End GameAlongTree.

(** ** Counting visits *)

Section Counts.
Context {State Action : Type} `{EqDecision Action}.

(** [child.visits] through a child reference. *)
Definition visits_at (t : Tree Action) (c : nat) : nat :=
  match t !! c with Some cn => visits cn | None => 0 end.

(** [sum(child.visits for child in node.child_nodes.values())], where every
    child is a node of the arena. *)
Definition children_total (t : Tree Action) (nd : MCTSNode Action) : nat :=
  sum_list (visits_at t <$> values (child_nodes nd)).

(** The playout a node got when it was created; the root got none. *)
Definition own_playout (n : nat) : nat := if decide (n = root_node) then 0 else 1.

(** No node is the child of a node under two actions. *)
Definition children_distinct (t : Tree Action) : Prop :=
  ∀ i nd, t !! i = Some nd → NoDup (values (child_nodes nd)).

(** The visits of a node cover the visits of its children and its own
    playout. *)
Definition visits_cover (t : Tree Action) : Prop :=
  ∀ n nd, t !! n = Some nd → children_total t nd + own_playout n ≤ visits nd.

(** They are no more than that at the nodes where the game goes on: the
    state is not ended and has a legal action. *)
Definition visits_exact (board : Board State Action) (s0 : State)
    (t : Tree Action) : Prop :=
  ∀ n nd s, t !! n = Some nd → state_at board s0 t n s →
    is_ended board s = false → legal_actions board s ≠ [] →
    visits nd = children_total t nd + own_playout n.
End Counts.

(** The ways a run can fail that are the board's doing: no legal action in a
    state that is not finished ([IndexError] from [choice]), no points in a
    finished state ([AssertionError] from [is_win]), or a playout longer than
    its fuel. *)
Definition fault_of_board {A} (m : result A) : Prop :=
  match m with
  | Ok _ => True
  | Raise e => e = IndexError ∨ e = AssertionError
  | IllFormed => False
  | OutOfFuel => True
  end.

(** The same, or the [KeyError] of [node.child_nodes[None]] after a roulette
    wheel that selected nothing. *)
Definition fault_of_wheel {A} (m : result A) : Prop :=
  match m with
  | Ok _ => True
  | Raise e => e = IndexError ∨ e = AssertionError ∨ e = KeyError
  | IllFormed => False
  | OutOfFuel => True
  end.

(** * Theorems *)

(** ** The error monad and the containers *)

Lemma bind_Ok {A B} (m : result A) (f : A → result B) (b : B) :
  m ≫= f = Ok b ↔ ∃ a, m = Ok a ∧ f a = Ok b.
Proof.
  split.
  - destruct m as [a| | |]; simpl; try discriminate. eauto.
  - intros (a & -> & Hf). exact Hf.
Qed.

Lemma required_Ok {A} (o : option A) (a : A) : required o = Ok a ↔ o = Some a.
Proof. destruct o; simpl; split; congruence. Qed.

Lemma node_at_Ok {Action} (t : Tree Action) (n : nat) (nd : MCTSNode Action) :
  node_at t n = Ok nd ↔ t !! n = Some nd.
Proof. apply required_Ok. Qed.

(** Inversion of a successful monadic computation, one bind at a time. *)
Ltac inv_Ok H :=
  repeat match type of H with
  | _ ≫= _ = Ok _ =>
      let a := fresh "a" in
      let Ha := fresh "Ha" in
      apply bind_Ok in H as (a & Ha & H)
  end.

Lemma is_nil_true {A} (l : list A) : is_nil l = true ↔ l = [].
Proof. destruct l; simpl; split; congruence. Qed.

Lemma is_nil_false {A} (l : list A) : is_nil l = false ↔ l ≠ [].
Proof. destruct l; simpl; split; congruence. Qed.

Lemma choice_Ok {A} (seq : list A) (g : Rng) :
  seq ≠ [] →
  ∃ a, seq !! N.to_nat (g 0%nat mod N.of_nat (length seq))%N = Some a ∧
       choice seq g = Ok (a, (draw g).2).
Proof.
  intros Hne. unfold choice.
  destruct (seq !! N.to_nat (g 0%nat mod N.of_nat (length seq))%N) as [a|] eqn:Hl.
  - exists a. split; [done|]. destruct seq; [done|]. simpl in *. by rewrite Hl.
  - apply lookup_ge_None in Hl.
    assert (0 < length seq) by (destruct seq; simpl; [done | lia]).
    assert (g 0%nat mod N.of_nat (length seq) < N.of_nat (length seq))%N
      by (apply N.mod_lt; lia).
    lia.
Qed.

Section ContainerFacts.
Context {K V : Type} `{EqDecision K}.
Implicit Types (d : list (K * V)) (k : K) (v : V).

Lemma dict_get_set_eq d k v : dict_get (dict_set d k v) k = Some v.
Proof.
  induction d as [|[k' w] d IH]; simpl.
  - by rewrite decide_True.
  - destruct (decide (k' = k)) as [->|Hne]; simpl.
    + by rewrite decide_True.
    + by rewrite decide_False.
Qed.

Lemma dict_get_set_ne d k k' v :
  k' ≠ k → dict_get (dict_set d k v) k' = dict_get d k'.
Proof.
  intros Hne. induction d as [|[k0 w] d IH]; simpl.
  - by rewrite decide_False.
  - destruct (decide (k0 = k)) as [->|Hk]; simpl.
    + by rewrite !decide_False.
    + by rewrite IH.
Qed.

Lemma dict_set_elem d k v (e : K * V) :
  e ∈ dict_set d k v → e = (k, v) ∨ e ∈ d.
Proof.
  induction d as [|[k0 w] d IH]; simpl.
  - rewrite list_elem_of_singleton. auto.
  - destruct (decide (k0 = k)) as [->|Hk]; rewrite !elem_of_cons.
    + intros [->| ?]; auto.
    + intros [->| ?]; auto. destruct IH; auto.
Qed.

(** A key that is new goes to the end of the dictionary. *)
Lemma dict_set_new d k v : dict_get d k = None → dict_set d k v = d ++ [(k, v)].
Proof.
  induction d as [|[k0 w] d IH]; simpl; [done|].
  destruct (decide (k0 = k)); [done|]. intros Hd. by rewrite IH.
Qed.

Lemma dict_get_elem d k v : (k, v) ∈ d → is_Some (dict_get d k).
Proof.
  induction d as [|[k0 w] d IH]; simpl.
  - by intros ?%elem_of_nil.
  - rewrite elem_of_cons. destruct (decide (k0 = k)); [eauto|].
    intros [[=]|?]; [congruence | auto].
Qed.

Lemma dict_get_Some_elem d k v : dict_get d k = Some v → (k, v) ∈ d.
Proof.
  induction d as [|[k0 w] d IH]; simpl; [done|].
  destruct (decide (k0 = k)) as [->|].
  - intros [= ->]. left.
  - intros. right. auto.
Qed.

(** [list.remove] takes out exactly the first occurrence. *)
Lemma list_remove_Ok (x : K) (l : list K) :
  x ∈ l →
  ∃ l1 l2, l = l1 ++ [x] ++ l2 ∧ (x ∉ l1) ∧ list_remove x l = Ok (l1 ++ l2).
Proof.
  induction l as [|y l IH]; [by intros ?%elem_of_nil|].
  intros Hin. simpl. destruct (decide (y = x)) as [->|Hne].
  - exists [], l. split_and!; [done | apply not_elem_of_nil | done].
  - apply elem_of_cons in Hin as [->|Hin]; [done|].
    destruct (IH Hin) as (l1 & l2 & -> & Hl1 & ->).
    exists (y :: l1), l2. split_and!; [done | | done].
    rewrite not_elem_of_cons. auto.
Qed.
End ContainerFacts.

(** ** Expansion *)

Section Expansion.
Context {State Action : Type} `{EqDecision Action}.
Implicit Types (board : Board State Action) (t : Tree Action) (state : State).

(** What [expand_leaf] computes on a node that has untried actions. *)
Lemma expand_leaf_untried board t node nd state g :
  t !! node = Some nd →
  untried_actions nd ≠ [] →
  ∃ action l1 l2,
    untried_actions nd !!
      N.to_nat (g 0%nat mod N.of_nat (length (untried_actions nd)))%N = Some action ∧
    untried_actions nd = l1 ++ [action] ++ l2 ∧ (action ∉ l1) ∧
    expand_leaf board t node state g =
      Ok (<[node := with_expansion nd (l1 ++ l2) action (length t)]> t ++
            [MCTSNode_init (Some node) (Some action)
               (legal_actions board (next_state board state action))],
          length t, next_state board state action, (draw g).2).
Proof.
  intros Hnd Hne. unfold expand_leaf.
  apply node_at_Ok in Hnd as ->. simpl.
  destruct (choice_Ok (untried_actions nd) g Hne) as (action & Hidx & ->). simpl.
  destruct (list_remove_Ok action (untried_actions nd)) as (l1 & l2 & Hl & Hl1 & ->).
  { by eapply list_elem_of_lookup_2. }
  exists action, l1, l2. split_and!; try done.
  apply is_nil_false in Hne. by rewrite Hne.
Qed.

Lemma expand_leaf_tried board t node nd state g :
  t !! node = Some nd →
  untried_actions nd = [] →
  expand_leaf board t node state g = Ok (t, node, state, g).
Proof.
  intros Hnd Hnil. unfold expand_leaf.
  apply node_at_Ok in Hnd as ->. simpl. by rewrite Hnil.
Qed.
End Expansion.

(** ** Backpropagation *)

Section Backpropagation.
Context {Action : Type}.
Implicit Types (t : Tree Action) (nd : MCTSNode Action).

Lemma bump_steps (won : bool) nd :
  (if won then incr_wins (incr_visits nd) else incr_visits nd) = bump won nd.
Proof. by destruct won. Qed.

Lemma on_path_le t n m : parents_below t → on_path t n m → m ≤ n.
Proof.
  intros Hp. induction 1 as [n | n nd p m Hn Hpar _ IH]; [done|].
  specialize (Hp n nd p Hn Hpar). lia.
Qed.

(** The path only depends on the [parent] fields. *)
Lemma on_path_links t t' n m :
  (∀ i, parent <$> t !! i = parent <$> t' !! i) →
  on_path t n m → on_path t' n m.
Proof.
  intros Hl. induction 1 as [n | n nd p m Hn Hpar _ IH]; [constructor|].
  specialize (Hl n). rewrite Hn in Hl.
  destruct (t' !! n) as [nd'|] eqn:Hn'; simpl in Hl; [|done].
  injection Hl as Hl. apply (on_path_up t' n nd' p m); [done | congruence | done].
Qed.

Lemma insert_bump_links t n nd won :
  t !! n = Some nd →
  ∀ i, parent <$> t !! i = parent <$> <[n := bump won nd]> t !! i.
Proof.
  intros Hn i. destruct (decide (i = n)) as [->|Hne].
  - rewrite list_lookup_insert_eq by (by eapply lookup_lt_Some). by rewrite Hn.
  - by rewrite list_lookup_insert_ne.
Qed.

Lemma parents_below_links t t' :
  (∀ i, parent <$> t !! i = parent <$> t' !! i) →
  parents_below t → parents_below t'.
Proof.
  intros Hl Hp i nd' p Hi Hpar. specialize (Hl i). rewrite Hi in Hl.
  destruct (t !! i) as [nd|] eqn:Hn; simpl in Hl; [|done].
  injection Hl as Hl. apply (Hp i nd p Hn). congruence.
Qed.

(** Under [parents_below] every path ends at a node without parent. *)
Lemma on_path_root t n :
  parents_below t → n < length t →
  ∃ r rn, on_path t n r ∧ t !! r = Some rn ∧ parent rn = None.
Proof.
  intros Hp. induction n as [n IH] using lt_wf_ind. intros Hn.
  destruct (lookup_lt_is_Some_2 t n Hn) as [nd Hnd].
  destruct (parent nd) as [p|] eqn:Hpar.
  - pose proof (Hp n nd p Hnd Hpar) as Hlt.
    destruct (IH p Hlt) as (r & rn & Hr & Hrn & Hnone); [lia|].
    exists r, rn. split_and!; [|done..]. by eapply on_path_up.
  - exists n, nd. split_and!; [constructor | done..].
Qed.

Lemma backpropagate_None fuel t won : backpropagate fuel t None won = Ok t.
Proof. by destruct fuel. Qed.

Lemma backpropagate_spec fuel : ∀ t n won,
  parents_below t → n < length t → n < fuel →
  ∃ t', backpropagate fuel t (Some n) won = Ok t' ∧
        length t' = length t ∧
        ∀ m nd, t !! m = Some nd →
          (on_path t n m ∧ t' !! m = Some (bump won nd)) ∨
          (¬ on_path t n m ∧ t' !! m = Some nd).
Proof.
  induction fuel as [|fuel IH]; intros t n won Hp Hn Hfuel; [lia|].
  destruct (lookup_lt_is_Some_2 t n Hn) as [nd Hnd].
  simpl. unfold node_at. rewrite Hnd. simpl. rewrite bump_steps.
  pose proof (insert_bump_links t n nd won Hnd) as Hlinks.
  destruct (parent nd) as [p|] eqn:Hpar.
  - replace (parent (bump won nd)) with (Some p) by done.
    pose proof (Hp n nd p Hnd Hpar) as Hlt.
    destruct (IH (<[n := bump won nd]> t) p won) as (t' & -> & Hlen & Hspec).
    { by eapply parents_below_links. }
    { rewrite length_insert. lia. }
    { lia. }
    exists t'. split; [done|]. split; [by rewrite Hlen, length_insert|].
    intros m ndm Hm. destruct (decide (m = n)) as [->|Hne].
    + assert (ndm = nd) as -> by congruence.
      left. split; [constructor|].
      destruct (Hspec n (bump won nd)) as [[Hpath _]|[_ Hout]];
        [by apply list_lookup_insert_eq | | done].
      apply on_path_le in Hpath; [lia|]. by eapply parents_below_links.
    + assert (<[n := bump won nd]> t !! m = Some ndm) as Hm'
        by (by rewrite list_lookup_insert_ne).
      destruct (Hspec m ndm Hm') as [[Hpath Hin]|[Hpath Hout]].
      * left. split; [|done]. apply (on_path_up t n nd p m); [done..|].
        eapply on_path_links; [|done]. intros i. symmetry. apply Hlinks.
      * right. split; [|done]. intros Hpath'. apply Hpath.
        inversion Hpath' as [|? nd0 p0 ? Hn0 Hp0 Hrest]; subst; [done|].
        assert (p0 = p) as -> by congruence.
        by eapply on_path_links.
  - replace (parent (bump won nd)) with (@None nat) by done.
    rewrite backpropagate_None.
    eexists. split; [done|]. split; [by rewrite length_insert|].
    intros m ndm Hm. destruct (decide (m = n)) as [->|Hne].
    + assert (ndm = nd) as -> by congruence.
      left. split; [constructor|]. by apply list_lookup_insert_eq.
    + right. split; [|by rewrite list_lookup_insert_ne].
      intros Hpath. inversion Hpath; subst; [done | congruence].
Qed.

(** The path is closed under [parent]. *)
Lemma on_path_extend t n m nd p :
  on_path t n m → t !! m = Some nd → parent nd = Some p → on_path t n p.
Proof.
  induction 1 as [n | n nd0 p0 m Hn Hpar _ IH]; intros Hm Hp.
  - apply (on_path_up t n nd p p); [done..|constructor].
  - apply (on_path_up t n nd0 p0 p); auto.
Qed.
End Backpropagation.

(** ** What an iteration keeps true of the tree *)

Section Invariant.
Context {State Action : Type} `{EqDecision Action}.
Implicit Types (board : Board State Action) (t : Tree Action)
  (nd : MCTSNode Action) (state : State).

Lemma tree_inv_initial (actions : list Action) :
  tree_inv [MCTSNode_init None None actions].
Proof.
  split.
  - by eexists.
  - intros [|i] nd p; simpl; [by intros [= <-]|done].
  - intros [|i] nd a c; simpl; [|done]. by intros [= <-] ?%elem_of_nil.
  - intros [|i] nd p pn; simpl; [by intros [= <-]|done].
  - intros [|i] nd; simpl; [|done]. by intros [= <-].
Qed.

(** The nodes of the arena after an expansion. *)
Lemma expanded_lookup t node nd nd' cn i x :
  t !! node = Some nd →
  (<[node := nd']> t ++ [cn]) !! i = Some x →
  (i = length t ∧ x = cn) ∨ (i = node ∧ x = nd') ∨
  (i ≠ node ∧ t !! i = Some x).
Proof.
  intros Hnd Hi. pose proof (lookup_lt_Some _ _ _ Hnd) as Hlt.
  destruct (decide (i < length t)) as [Hil|Hil].
  - rewrite lookup_app_l in Hi by (by rewrite length_insert).
    destruct (decide (i = node)) as [->|Hne].
    + rewrite list_lookup_insert_eq in Hi by done. right; left. split; congruence.
    + rewrite list_lookup_insert_ne in Hi by done. auto.
  - rewrite lookup_app_r in Hi by (rewrite length_insert; lia).
    rewrite length_insert in Hi.
    destruct (i - length t) as [|k] eqn:Hk; simpl in Hi; [|done].
    left. split; [lia | congruence].
Qed.

(** An old node is still there, with the same links and counters. *)
Lemma expanded_old t node nd rest action cn c x :
  t !! node = Some nd →
  t !! c = Some x →
  ∃ x', (<[node := with_expansion nd rest action (length t)]> t ++ [cn]) !! c = Some x' ∧
        parent x' = parent x ∧ parent_action x' = parent_action x ∧
        visits x' = visits x ∧ wins x' = wins x.
Proof.
  intros Hnd Hc. pose proof (lookup_lt_Some _ _ _ Hc) as Hlt.
  rewrite lookup_app_l by (by rewrite length_insert).
  destruct (decide (c = node)) as [->|Hne].
  - rewrite list_lookup_insert_eq by done.
    assert (x = nd) as -> by congruence. by eexists.
  - rewrite list_lookup_insert_ne by done. by eexists.
Qed.

Lemma expand_leaf_inv board t node state g t1 n1 s1 g1 :
  tree_inv t →
  expand_leaf board t node state g = Ok (t1, n1, s1, g1) →
  tree_inv t1 ∧ n1 < length t1.
Proof.
  intros [Hroot Hp Hc Hv Hw] Hexp.
  assert (∃ nd, t !! node = Some nd) as [nd Hnd].
  { unfold expand_leaf in Hexp. inv_Ok Hexp. apply node_at_Ok in Ha. eauto. }
  pose proof (lookup_lt_Some _ _ _ Hnd) as Hlt.
  destruct (decide (untried_actions nd = [])) as [Hnil|Hne].
  { rewrite (expand_leaf_tried board t node nd state g Hnd Hnil) in Hexp.
    injection Hexp as <- <- <- <-. by split. }
  destruct (expand_leaf_untried board t node nd state g Hnd Hne)
    as (action & l1 & l2 & _ & _ & _ & Heq).
  rewrite Heq in Hexp. injection Hexp as <- <- <- <-.
  set (cn := MCTSNode_init _ _ _).
  split; [|rewrite length_app, length_insert; simpl; lia].
  split.
  - destruct Hroot as (r & Hr & Hrp).
    destruct (expanded_old t node nd (l1 ++ l2) action cn root_node r Hnd Hr)
      as (r' & Hr' & Hpar & _).
    exists r'. split; [done | congruence].
  - intros i x p Hi Hpar.
    destruct (expanded_lookup _ _ _ _ _ _ _ Hnd Hi) as [[-> ->]|[[-> ->]|[_ Hold]]].
    + simpl in Hpar. injection Hpar as <-. done.
    + by apply (Hp node nd p).
    + by apply (Hp i x p).
  - intros i x a c Hi Hin.
    assert (∀ y, t !! i = Some y → (a, c) ∈ child_nodes y →
      ∃ cn0, (<[node := with_expansion nd (l1 ++ l2) action (length t)]> t ++ [cn]) !! c
               = Some cn0 ∧ parent cn0 = Some i ∧ parent_action cn0 = Some a) as Hold.
    { intros y Hy Hyin. destruct (Hc i y a c Hy Hyin) as (c0 & Hc0 & Hc0p & Hc0a).
      destruct (expanded_old t node nd (l1 ++ l2) action cn c c0 Hnd Hc0)
        as (c0' & Hc0' & Hpar & Hact & _).
      exists c0'. split_and!; [done | congruence..]. }
    destruct (expanded_lookup _ _ _ _ _ _ _ Hnd Hi) as [[-> ->]|[[-> ->]|[_ Hi']]].
    + by apply elem_of_nil in Hin.
    + simpl in Hin. apply dict_set_elem in Hin as [[= -> ->]|Hin].
      * exists cn. split; [|done].
        rewrite lookup_app_r by (by rewrite length_insert).
        by rewrite length_insert, Nat.sub_diag.
      * by apply (Hold nd).
    + by apply (Hold x).
  - intros i x p px Hi Hpar Hpx.
    assert (∀ y, t !! i = Some y → parent y = Some p → visits y ≤ visits px) as Hold.
    { intros y Hy Hyp. pose proof (Hp i y p Hy Hyp) as Hpi.
      destruct (expanded_lookup _ _ _ _ _ _ _ Hnd Hpx) as [[-> ->]|[[-> ->]|[_ Hpx']]].
      - apply lookup_lt_Some in Hy. lia.
      - by apply (Hv i y node nd).
      - by apply (Hv i y p px). }
    destruct (expanded_lookup _ _ _ _ _ _ _ Hnd Hi) as [[-> ->]|[[-> ->]|[_ Hi']]].
    + simpl. lia.
    + by apply (Hold nd).
    + by apply (Hold x).
  - intros i x Hi.
    destruct (expanded_lookup _ _ _ _ _ _ _ Hnd Hi) as [[-> ->]|[[-> ->]|[_ Hi']]].
    + done.
    + by apply (Hw node nd).
    + by apply (Hw i x).
Qed.

(** The nodes of the arena after a backpropagation. *)
Lemma backpropagated_lookup t n won t' :
  parents_below t → n < length t →
  backpropagate (length t) t (Some n) won = Ok t' →
  length t' = length t ∧
  ∀ i x, t' !! i = Some x →
    ∃ nd, t !! i = Some nd ∧
      ((on_path t n i ∧ x = bump won nd) ∨ (¬ on_path t n i ∧ x = nd)).
Proof.
  intros Hp Hn Hrun.
  destruct (backpropagate_spec (length t) t n won Hp Hn Hn) as (t'' & Hrun' & Hlen & Hspec).
  assert (t'' = t') as -> by congruence.
  split; [done|]. intros i x Hi.
  assert (i < length t) as Hil by (rewrite <- Hlen; by eapply lookup_lt_Some).
  destruct (lookup_lt_is_Some_2 t i Hil) as [nd Hnd].
  exists nd. split; [done|].
  destruct (Hspec i nd Hnd) as [[Hpath Hin]|[Hpath Hout]]; [left|right];
    split; congruence.
Qed.

Lemma backpropagate_inv t n won t' :
  tree_inv t → n < length t →
  backpropagate (length t) t (Some n) won = Ok t' →
  tree_inv t'.
Proof.
  intros [Hroot Hp Hc Hv Hw] Hn Hrun.
  destruct (backpropagate_spec (length t) t n won Hp Hn Hn) as (t'' & Hrun' & Hlen & Hspec).
  assert (t'' = t') as -> by congruence.
  destruct (backpropagated_lookup t n won t' Hp Hn Hrun) as [_ Hlook].
  assert (∀ i nd, t !! i = Some nd →
    ∃ x, t' !! i = Some x ∧ parent x = parent nd ∧
         parent_action x = parent_action nd ∧ child_nodes x = child_nodes nd) as Hfwd.
  { intros i nd Hi. destruct (Hspec i nd Hi) as [[_ Hin]|[_ Hout]]; eauto. }
  split.
  - destruct Hroot as (r & Hr & Hrp). destruct (Hfwd _ _ Hr) as (x & Hx & Hxp & _).
    exists x. split; [done | congruence].
  - intros i x p Hi Hpar. destruct (Hlook i x Hi) as (nd & Hnd & [[_ ->]|[_ ->]]);
      by apply (Hp i nd p).
  - intros i x a c Hi Hin.
    destruct (Hlook i x Hi) as (nd & Hnd & Hcase).
    assert ((a, c) ∈ child_nodes nd) as Hin' by (by destruct Hcase as [[_ ->]|[_ ->]]).
    destruct (Hc i nd a c Hnd Hin') as (cn & Hcn & Hcp & Hca).
    destruct (Hfwd _ _ Hcn) as (y & Hy & Hyp & Hya & _).
    exists y. split_and!; [done | congruence..].
  - intros i x p px Hi Hpar Hpx.
    destruct (Hlook i x Hi) as (nd & Hnd & Hcase).
    destruct (Hlook p px Hpx) as (pn & Hpn & Hpcase).
    assert (parent nd = Some p) as Hpar' by (by destruct Hcase as [[_ ->]|[_ ->]]).
    pose proof (Hv i nd p pn Hnd Hpar' Hpn) as Hle.
    destruct Hcase as [[Hpath ->]|[_ ->]]; destruct Hpcase as [[Hppath ->]|[Hppath ->]];
      simpl; try lia.
    exfalso. apply Hppath. by eapply on_path_extend.
  - intros i x Hi. destruct (Hlook i x Hi) as (nd & Hnd & Hcase).
    pose proof (Hw i nd Hnd) as Hle.
    destruct Hcase as [[_ ->]|[_ ->]]; [|done]. simpl. destruct won; lia.
Qed.

Section Loop.
Variable traverse :
  Tree Action → Board State Action → State → nat → Rng → result (nat * State * Rng).
Variables (num_nodes horizon : nat).

Lemma iteration_inv board state bot_identity (w w' : World Action) :
  tree_inv (w_tree w) →
  iteration traverse horizon board state bot_identity w = Ok w' →
  tree_inv (w_tree w') ∧ w_rollouts w' = S (w_rollouts w).
Proof.
  intros Hinv Hit. unfold iteration in Hit.
  apply bind_Ok in Hit as ([[node st] g1] & Htr & Hit).
  apply bind_Ok in Hit as ([[[t1 node1] st1] g2] & Hexp & Hit).
  apply bind_Ok in Hit as ([result_state g3] & Hroll & Hit).
  apply bind_Ok in Hit as (won & Hwin & Hit).
  apply bind_Ok in Hit as (t2 & Hback & Hit).
  injection Hit as <-. simpl.
  destruct (expand_leaf_inv _ _ _ _ _ _ _ _ _ Hinv Hexp) as [Hinv1 Hn1].
  split; [|done]. by eapply backpropagate_inv.
Qed.

Lemma search_loop_inv k : ∀ board state bot_identity (w w' : World Action),
  tree_inv (w_tree w) →
  search_loop traverse horizon k board state bot_identity w = Ok w' →
  tree_inv (w_tree w') ∧ w_rollouts w' = k + w_rollouts w.
Proof.
  induction k as [|k IH]; intros board state bot_identity w w' Hinv Hrun; simpl in Hrun.
  - injection Hrun as <-. done.
  - apply bind_Ok in Hrun as (w1 & Hit & Hrun).
    destruct (iteration_inv _ _ _ _ _ Hinv Hit) as [Hinv1 Hr1].
    destruct (IH _ _ _ _ _ Hinv1 Hrun) as [Hinv' Hr']. split; [done|]. lia.
Qed.
End Loop.
End Invariant.

(** ** The counters *)

(** Whatever the shape of the arena, [backpropagate] never lowers a counter
    and never adds more to [wins] than to [visits]. *)
Lemma backpropagate_delta {Action : Type} (fuel : nat) :
  ∀ (t : Tree Action) (n : option nat) (won : bool) (t' : Tree Action),
  backpropagate fuel t n won = Ok t' →
  ∀ i nd nd', t !! i = Some nd → t' !! i = Some nd' →
    visits nd ≤ visits nd' ∧ wins nd ≤ wins nd' ∧
    wins nd' + visits nd ≤ visits nd' + wins nd.
Proof.
  induction fuel as [|fuel IH]; intros t [n|] won t' Hrun i nd nd' Hi Hi';
    simpl in Hrun; try discriminate.
  - injection Hrun as <-. assert (nd' = nd) as -> by congruence. lia.
  - apply bind_Ok in Hrun as (x & Hx & Hrun). apply node_at_Ok in Hx.
    rewrite bump_steps in Hrun.
    destruct (decide (i = n)) as [->|Hne].
    + assert (x = nd) as -> by congruence.
      assert (<[n := bump won nd]> t !! n = Some (bump won nd)) as Hb.
      { apply list_lookup_insert_eq. by eapply lookup_lt_Some. }
      destruct (IH _ _ _ _ Hrun n _ _ Hb Hi') as (Hv & Hw & Hd).
      simpl in *. destruct won; lia.
    + apply (IH _ _ _ _ Hrun i); [by rewrite list_lookup_insert_ne | done].
  - injection Hrun as <-. assert (nd' = nd) as -> by congruence. lia.
Qed.

(** ** The builtin [max] *)

Section MaxFacts.
Context {A Key : Type} (gt : Key → Key → bool) (key : A → result Key).

(** [max] computes the key of every item. *)
Lemma max_loop_keys (l : list A) : ∀ best kb r,
  max_loop gt key best kb l = Ok r → ∀ x, x ∈ l → is_Ok (key x).
Proof.
  induction l as [|y l IH]; intros best kb r Hrun x Hx; [by apply elem_of_nil in Hx|].
  simpl in Hrun. apply bind_Ok in Hrun as (ky & Hy & Hrun).
  apply elem_of_cons in Hx as [->|Hx]; [by exists ky|].
  destruct (gt ky kb); eauto.
Qed.

Lemma py_max_keys (l : list A) r :
  py_max gt key l = Ok r → ∀ x, x ∈ l → is_Ok (key x).
Proof.
  destruct l as [|y l]; [done|]. simpl. intros Hrun x Hx.
  apply bind_Ok in Hrun as (ky & Hy & Hrun).
  apply elem_of_cons in Hx as [->|Hx]; [by exists ky|].
  by eapply max_loop_keys.
Qed.

(** [gt] is the strict part of a total preorder. *)
Hypothesis gt_asym : ∀ a b, gt a b = true → gt b a = false.
Hypothesis gt_trans : ∀ a b c, gt a b = true → gt c b = false → gt a c = true.

Lemma gt_trans_strict a b c : gt a b = true → gt b c = true → gt a c = true.
Proof using gt_asym gt_trans. intros Hab Hbc. eapply gt_trans; eauto. Qed.

Lemma gt_irrefl a : gt a a = false.
Proof using gt_asym.
  destruct (gt a a) eqn:Haa; [|done]. by rewrite (gt_asym _ _ Haa) in Haa.
Qed.

Lemma le_trans_gt a b c : gt a b = false → gt b c = false → gt a c = false.
Proof using gt_trans.
  intros Hab Hbc. destruct (gt a c) eqn:Hac; [|done].
  by rewrite (gt_trans _ _ _ Hac Hbc) in Hab.
Qed.

Lemma max_loop_first (l : list A) : ∀ p1 best kb p2,
  key best = Ok kb →
  keys_below gt key kb p1 → keys_not_above gt key kb p2 →
  (∀ x, x ∈ l → is_Ok (key x)) →
  ∃ r kr l1 l2,
    max_loop gt key best kb l = Ok r ∧
    p1 ++ [best] ++ p2 ++ l = l1 ++ [r] ++ l2 ∧
    key r = Ok kr ∧ keys_below gt key kr l1 ∧ keys_not_above gt key kr l2.
Proof using gt_asym gt_trans.
  induction l as [|x l IH]; intros p1 best kb p2 Hb H1 H2 Hl.
  - exists best, kb, p1, p2. by rewrite app_nil_r.
  - destruct (Hl x) as [kx Hx]; [left|]. simpl. rewrite Hx. simpl.
    destruct (gt kx kb) eqn:Hgt.
    + destruct (IH (p1 ++ [best] ++ p2) x kx []) as (r & kr & l1 & l2 & Hrun & Heq & Hr);
        [done | | by intros ? ?%elem_of_nil | by intros; apply Hl; right |].
      { intros y Hy. rewrite !elem_of_app, list_elem_of_singleton in Hy.
        destruct Hy as [Hy|[->|Hy]].
        - destruct (H1 y Hy) as (ky & Hky & Hlt). exists ky. split; [done|].
          by eapply gt_trans_strict.
        - by exists kb.
        - destruct (H2 y Hy) as (ky & Hky & Hle). exists ky. split; [done|].
          by eapply gt_trans. }
      exists r, kr, l1, l2. split; [done|]. split; [|done].
      etrans; [|exact Heq]. simpl. by rewrite <- ?app_assoc.
    + destruct (IH p1 best kb (p2 ++ [x])) as (r & kr & l1 & l2 & Hrun & Heq & Hr);
        [done | done | | by intros; apply Hl; right |].
      { intros y Hy. rewrite elem_of_app, list_elem_of_singleton in Hy.
        destruct Hy as [Hy| ->]; [by apply H2 | by exists kx]. }
      exists r, kr, l1, l2. split; [done|]. split; [|done].
      etrans; [|exact Heq]. simpl. by rewrite <- ?app_assoc.
Qed.

(** [max] returns the first item whose key no other key exceeds. *)
Lemma py_max_first (l : list A) :
  l ≠ [] → (∀ x, x ∈ l → is_Ok (key x)) →
  ∃ r kr l1 l2,
    py_max gt key l = Ok r ∧ l = l1 ++ [r] ++ l2 ∧
    key r = Ok kr ∧ keys_below gt key kr l1 ∧ keys_not_above gt key kr l2.
Proof using gt_asym gt_trans.
  destruct l as [|x l]; [done|]. intros _ Hl.
  destruct (Hl x) as [kx Hx]; [left|]. simpl. rewrite Hx. simpl.
  destruct (max_loop_first l [] x kx []) as (r & kr & l1 & l2 & Hrun & Heq & Hr);
    [done | by intros ? ?%elem_of_nil | by intros ? ?%elem_of_nil
    | by intros; apply Hl; right |].
  by exists r, kr, l1, l2.
Qed.

(** No key exceeds the key of the item [max] returns. *)
Lemma py_max_greatest (l : list A) r :
  py_max gt key l = Ok r →
  r ∈ l ∧ ∃ kr, key r = Ok kr ∧ ∀ x, x ∈ l → ∃ kx, key x = Ok kx ∧ gt kx kr = false.
Proof using gt_asym gt_trans.
  intros Hrun. pose proof (py_max_keys l r Hrun) as Hkeys.
  destruct (py_max_first l) as (r' & kr & l1 & l2 & Hrun' & -> & Hr & H1 & H2);
    [by destruct l | done |].
  assert (r' = r) as -> by congruence.
  split; [rewrite !elem_of_app, list_elem_of_singleton; auto|].
  exists kr. split; [done|].
  intros x Hx. rewrite !elem_of_app, list_elem_of_singleton in Hx.
  destruct Hx as [Hx|[->|Hx]].
  - destruct (H1 x Hx) as (kx & Hkx & Hlt). exists kx. split; [done|]. by apply gt_asym.
  - exists kr. split; [done|]. apply gt_irrefl.
  - by apply H2.
Qed.
End MaxFacts.

Lemma nat_gt_asym a b : nat_gt a b = true → nat_gt b a = false.
Proof. unfold nat_gt. rewrite Nat.ltb_lt, Nat.ltb_ge. lia. Qed.

Lemma nat_gt_trans a b c : nat_gt a b = true → nat_gt c b = false → nat_gt a c = true.
Proof. unfold nat_gt. rewrite !Nat.ltb_lt, Nat.ltb_ge. lia. Qed.

(** ** Final action extraction *)

Section BestAction.
Context {Action : Type} `{EqDecision Action}.
Implicit Types (t : Tree Action) (r : MCTSNode Action).

Lemma get_best_action_childless t root r :
  t !! root = Some r → child_nodes r = [] → get_best_action t root = Ok None.
Proof.
  intros Hr Hnil. unfold get_best_action.
  apply node_at_Ok in Hr as ->. simpl. by rewrite Hnil.
Qed.

Lemma get_best_action_max t root r :
  t !! root = Some r → child_nodes r ≠ [] →
  (∀ a c, (a, c) ∈ child_nodes r → is_Some (t !! c)) →
  ∃ a c cn,
    get_best_action t root = Ok (Some a) ∧
    dict_get (child_nodes r) a = Some c ∧ t !! c = Some cn ∧
    ∀ b c' cn', dict_get (child_nodes r) b = Some c' → t !! c' = Some cn' →
      visits cn' ≤ visits cn.
Proof.
  intros Hr Hne Hres. unfold get_best_action.
  apply node_at_Ok in Hr as ->. simpl.
  apply is_nil_false in Hne as Hnil. rewrite Hnil.
  set (key := λ x : Action, match dict_get (child_nodes r) x with
                            | Some c => cn ← node_at t c; Ok (visits cn)
                            | None => Raise KeyError
                            end).
  assert (∀ x c cn, dict_get (child_nodes r) x = Some c → t !! c = Some cn →
                    key x = Ok (visits cn)) as Hkey.
  { intros x c cn Hx Hc. unfold key. rewrite Hx.
    apply node_at_Ok in Hc as ->. done. }
  assert (∀ x, x ∈ keys (child_nodes r) → is_Ok (key x)) as Hkeys.
  { intros x Hx. apply list_elem_of_fmap in Hx as ([x' c] & -> & Hin). simpl.
    destruct (dict_get_elem _ _ _ Hin) as [c' Hc'].
    destruct (Hres x' c') as [cn Hcn]; [by apply dict_get_Some_elem|].
    exists (visits cn). by eapply Hkey. }
  destruct (py_max_first nat_gt key nat_gt_asym nat_gt_trans (keys (child_nodes r)))
    as (a & ka & l1 & l2 & Hrun & Hl & Ha & H1 & H2); [|done|].
  { unfold keys. by destruct (child_nodes r). }
  pose proof (py_max_greatest nat_gt key nat_gt_asym nat_gt_trans _ _ Hrun)
    as (Hin & ka' & Ha' & Hmax).
  assert (ka' = ka) as -> by congruence.
  rewrite Hrun. simpl.
  unfold key in Ha. destruct (dict_get (child_nodes r) a) as [c|] eqn:Hc; [|done].
  apply bind_Ok in Ha as (cn & Hcn & [= <-]). apply node_at_Ok in Hcn.
  exists a, c, cn. split_and!; [done..|].
  intros b c' cn' Hb Hc'.
  destruct (Hmax b) as (kb & Hkb & Hle).
  { apply list_elem_of_fmap. exists (b, c'). split; [done|]. by apply dict_get_Some_elem. }
  rewrite (Hkey b c' cn' Hb Hc') in Hkb. injection Hkb as <-.
  unfold nat_gt in Hle. apply Nat.ltb_ge in Hle. done.
Qed.
End BestAction.

(** ** Tree descent *)

Section Descent.
Context {State Action : Type} `{EqDecision Action}.
Implicit Types (board : Board State Action) (t : Tree Action)
  (nd : MCTSNode Action) (state : State).

Lemma py_all_true {A} (f : A → result bool) (l : list A) :
  py_all f l = Ok true ↔ ∀ x, x ∈ l → f x = Ok true.
Proof.
  induction l as [|y l IH]; simpl.
  - split; [by intros _ ? ?%elem_of_nil | done].
  - split.
    + intros Hrun x Hx. apply bind_Ok in Hrun as ([|] & Hy & Hrun); [|done].
      apply elem_of_cons in Hx as [->|Hx]; [done|]. by apply IH.
    + intros Hall. rewrite (Hall y) by left. simpl. apply IH.
      intros x Hx. apply Hall. by right.
Qed.

Lemma py_all_false {A} (f : A → result bool) (l : list A) :
  py_all f l = Ok false → ∃ x, x ∈ l ∧ f x = Ok false.
Proof.
  induction l as [|y l IH]; simpl; [done|].
  intros Hrun. apply bind_Ok in Hrun as ([|] & Hy & Hrun).
  - destruct (IH Hrun) as (x & Hx & Hfx). exists x. split; [by right | done].
  - exists y. split; [left | done].
Qed.

Lemma unvisited_test t c b :
  (cn ← node_at t c; Ok (visits cn =? 0)) = Ok b ↔
  ∃ cn, t !! c = Some cn ∧ (visits cn =? 0) = b.
Proof.
  rewrite bind_Ok. split.
  - intros (cn & Hcn & [= <-]). apply node_at_Ok in Hcn. eauto.
  - intros (cn & Hcn & <-). apply node_at_Ok in Hcn. eauto.
Qed.

(** The test of the descent says yes exactly when there is no child or every
    child has zero visits. *)
Lemma nothing_visited_true t nd :
  nothing_visited t nd = Ok true ↔ unvisited t nd.
Proof.
  unfold nothing_visited, unvisited. destruct (child_nodes nd) as [|e d] eqn:Hd; cbn [is_nil].
  { split; auto. }
  rewrite py_all_true. split.
  - intros Hall. right. intros c Hc. apply Hall in Hc.
    apply unvisited_test in Hc as (cn & Hcn & Hz). apply Nat.eqb_eq in Hz. eauto.
  - intros [?|Hall]; [done|]. intros c Hc.
    destruct (Hall c Hc) as (cn & Hcn & Hz). apply unvisited_test.
    exists cn. split; [done|]. by apply Nat.eqb_eq.
Qed.

Lemma nothing_visited_false t nd :
  nothing_visited t nd = Ok false →
  child_nodes nd ≠ [] ∧
  ∃ c cn, c ∈ values (child_nodes nd) ∧ t !! c = Some cn ∧ visits cn ≠ 0.
Proof.
  unfold nothing_visited. destruct (child_nodes nd) as [|e d] eqn:Hd; [done|].
  cbn [is_nil]. intros Hrun. split; [done|].
  apply py_all_false in Hrun as (c & Hc & Hf).
  apply unvisited_test in Hf as (cn & Hcn & Hz). apply Nat.eqb_neq in Hz. eauto.
Qed.

Lemma py_all_total {A} (f : A → result bool) (l : list A) :
  (∀ x, x ∈ l → is_Ok (f x)) → is_Ok (py_all f l).
Proof.
  induction l as [|y l IH]; intros Hl; simpl; [by eexists|].
  destruct (Hl y) as [[|] ->]; [left| |by eexists]. simpl.
  apply IH. intros x Hx. apply Hl. by right.
Qed.

Lemma nothing_visited_some t nd :
  some_visited t nd → nothing_visited t nd = Ok false.
Proof.
  intros [Hres (c & cn & Hc & Hcn & Hv)].
  assert (is_Ok (nothing_visited t nd)) as [[|] Hb]; [| |done].
  - unfold nothing_visited. destruct (is_nil _); [by eexists|].
    apply py_all_total. intros x Hx. destruct (Hres x Hx) as [xn Hxn].
    exists (visits xn =? 0). apply unvisited_test. eauto.
  - apply nothing_visited_true in Hb as [Hnil|Hall].
    + rewrite Hnil in Hc. by apply elem_of_nil in Hc.
    + destruct (Hall c Hc) as (cn' & Hcn' & Hz). congruence.
Qed.

(** *** The confidence-bound bot *)

Lemma vanilla_stop fuel t node nd board state bot_identity :
  t !! node = Some nd →
  is_ended board state = true ∨ untried_actions nd ≠ [] →
  Vanilla.traverse_nodes fuel t node board state bot_identity = Ok (node, state).
Proof.
  intros Hnd Hstop. apply node_at_Ok in Hnd.
  destruct fuel; simpl; rewrite Hnd; simpl.
  all: destruct Hstop as [->|Hne%is_nil_false]; [done|];
    rewrite Hne; by rewrite andb_false_r.
Qed.

Lemma vanilla_stop_unvisited fuel t node nd board state bot_identity :
  t !! node = Some nd →
  nothing_visited t nd = Ok true →
  Vanilla.traverse_nodes fuel t node board state bot_identity = Ok (node, state).
Proof.
  intros Hnd Hnv. apply node_at_Ok in Hnd.
  destruct fuel; simpl; rewrite Hnd; simpl; rewrite Hnv; simpl;
    by destruct (negb _ && _).
Qed.

Lemma vanilla_step fuel t node nd board state bot_identity :
  t !! node = Some nd →
  is_ended board state = false → untried_actions nd = [] →
  nothing_visited t nd = Ok false →
  Vanilla.traverse_nodes (S fuel) t node board state bot_identity =
    child ← Vanilla.select_child t nd bot_identity;
    cn ← node_at t child;
    action ← required (parent_action cn);
    Vanilla.traverse_nodes fuel t child board (next_state board state action)
      bot_identity.
Proof.
  intros Hnd Hend Hnil Hnv. apply node_at_Ok in Hnd.
  simpl. rewrite Hnd. simpl. rewrite Hend, Hnil, Hnv. done.
Qed.

Lemma vanilla_stops_at fuel : ∀ t node board state bot_identity node' state',
  Vanilla.traverse_nodes fuel t node board state bot_identity = Ok (node', state') →
  ∃ nd', t !! node' = Some nd' ∧
    (is_ended board state' = true ∨ untried_actions nd' ≠ [] ∨
     nothing_visited t nd' = Ok true).
Proof.
  induction fuel as [|fuel IH]; intros t node board state bot node' state' Hrun.
  all: simpl in Hrun; apply bind_Ok in Hrun as (nd & Hnd & Hrun);
    apply node_at_Ok in Hnd.
  all: destruct (is_ended board state) eqn:Hend; simpl in Hrun;
    [injection Hrun as <- <-; eauto|].
  all: destruct (is_nil (untried_actions nd)) eqn:Hnil; simpl in Hrun;
    [|injection Hrun as <- <-; apply is_nil_false in Hnil; eauto].
  all: apply bind_Ok in Hrun as ([|] & Hnv & Hrun);
    [injection Hrun as <- <-; eauto|].
  - done.
  - inv_Ok Hrun. eauto.
Qed.

(** *** The roulette-wheel bot *)

Context {num : Type} `{Arith num}.

Lemma modified_stop fuel t node nd board state bot_identity g :
  t !! node = Some nd →
  is_ended board state = true ∨ untried_actions nd ≠ [] →
  Modified.traverse_nodes (num := num) fuel t node board state bot_identity g =
    Ok (node, state, g).
Proof.
  intros Hnd Hstop. apply node_at_Ok in Hnd.
  destruct fuel; simpl; rewrite Hnd; simpl.
  all: destruct Hstop as [->|Hne%is_nil_false]; [done|];
    rewrite Hne; by rewrite andb_false_r.
Qed.

Lemma modified_stop_unvisited fuel t node nd board state bot_identity g :
  t !! node = Some nd →
  nothing_visited t nd = Ok true →
  Modified.traverse_nodes (num := num) fuel t node board state bot_identity g =
    Ok (node, state, g).
Proof.
  intros Hnd Hnv. apply node_at_Ok in Hnd.
  destruct fuel; simpl; rewrite Hnd; simpl; rewrite Hnv; simpl;
    by destruct (negb _ && _).
Qed.

Lemma modified_step fuel t node nd board state bot_identity g :
  t !! node = Some nd →
  is_ended board state = false → untried_actions nd = [] →
  nothing_visited t nd = Ok false →
  Modified.traverse_nodes (num := num) (S fuel) t node board state bot_identity g =
    total ← Modified.total_visits t nd;
    probabilities ← Modified.probabilities_of t nd total;
    let '(selected_action, g') :=
      Modified.roulette_wheel_selection probabilities g in
    child ← match selected_action with
            | None => Raise KeyError
            | Some a =>
                match dict_get (child_nodes nd) a with
                | None => Raise KeyError
                | Some c => Ok c
                end
            end;
    cn ← node_at t child;
    action ← required (parent_action cn);
    Modified.traverse_nodes fuel t child board (next_state board state action)
      bot_identity g'.
Proof.
  intros Hnd Hend Hnil Hnv. apply node_at_Ok in Hnd.
  simpl. rewrite Hnd. simpl. rewrite Hend, Hnil, Hnv. done.
Qed.

Lemma modified_stops_at fuel : ∀ t node board state bot_identity g node' state' g',
  Modified.traverse_nodes (num := num) fuel t node board state bot_identity g =
    Ok (node', state', g') →
  ∃ nd', t !! node' = Some nd' ∧
    (is_ended board state' = true ∨ untried_actions nd' ≠ [] ∨
     nothing_visited t nd' = Ok true).
Proof.
  induction fuel as [|fuel IH]; intros t node board state bot g node' state' g' Hrun.
  all: simpl in Hrun; apply bind_Ok in Hrun as (nd & Hnd & Hrun);
    apply node_at_Ok in Hnd.
  all: destruct (is_ended board state) eqn:Hend; simpl in Hrun;
    [injection Hrun as <- <- <-; eauto|].
  all: destruct (is_nil (untried_actions nd)) eqn:Hnil; simpl in Hrun;
    [|injection Hrun as <- <- <-; apply is_nil_false in Hnil; eauto].
  all: apply bind_Ok in Hrun as ([|] & Hnv & Hrun);
    [injection Hrun as <- <- <-; eauto|].
  - done.
  - apply bind_Ok in Hrun as (total & _ & Hrun).
    apply bind_Ok in Hrun as (probabilities & _ & Hrun).
    destruct (Modified.roulette_wheel_selection probabilities g) as [sel g1].
    inv_Ok Hrun. eauto.
Qed.
End Descent.

Section BeforeTheFormula.
Context {Action : Type} `{EqDecision Action}.
Implicit Types (t : Tree Action) (nd : MCTSNode Action).

(** Without children, [max] has nothing to choose from. *)
Lemma select_child_childless t nd bot_identity :
  child_nodes nd = [] → Vanilla.select_child t nd bot_identity = Raise ValueError.
Proof. intros Hnil. unfold Vanilla.select_child. by rewrite Hnil. Qed.

Lemma map_result_visits_zero t (cs : list nat) :
  (∀ c, c ∈ cs → ∃ cn, t !! c = Some cn ∧ visits cn = 0) →
  ∃ vs, map_result (λ c, cn ← node_at t c; Ok (visits cn)) cs = Ok vs ∧
        sum_list vs = 0.
Proof.
  induction cs as [|c cs IH]; intros Hall; simpl; [by exists []|].
  destruct (Hall c) as (cn & Hcn & Hz); [left|].
  destruct IH as (vs & -> & Hsum); [intros; apply Hall; by right|].
  apply node_at_Ok in Hcn as ->. simpl. exists (visits cn :: vs).
  split; [done|]. simpl. lia.
Qed.

(** With children that all have zero visits, the probabilities would divide
    by zero. *)
Lemma probabilities_unvisited {num : Type} `{Arith num} t nd :
  child_nodes nd ≠ [] →
  (∀ c, c ∈ values (child_nodes nd) → ∃ cn, t !! c = Some cn ∧ visits cn = 0) →
  Modified.total_visits t nd = Ok 0 ∧
  Modified.probabilities_of (num := num) t nd 0 = Raise ZeroDivisionError.
Proof.
  intros Hne Hall. split.
  - unfold Modified.total_visits.
    destruct (map_result_visits_zero t _ Hall) as (vs & -> & Hsum). simpl.
    by rewrite Hsum.
  - unfold Modified.probabilities_of.
    destruct (child_nodes nd) as [|[a c] d]; [done|]. simpl.
    destruct (Hall c) as (cn & Hcn & _); [left|].
    apply node_at_Ok in Hcn as ->. done.
Qed.
End BeforeTheFormula.

(** ** Confidence-bound selection *)

Section ConfidenceBound.
Context {Action : Type} `{EqDecision Action}.
Implicit Types (t : Tree Action) (nd : MCTSNode Action).
Import Vanilla.

Lemma score_gt_asym a b : score_gt a b = true → score_gt b a = false.
Proof.
  destruct a as [|x], b as [|y]; simpl; try done.
  destruct (Rlt_dec y x), (Rlt_dec x y); try done. lra.
Qed.

Lemma score_gt_trans a b c :
  score_gt a b = true → score_gt c b = false → score_gt a c = true.
Proof.
  destruct a as [|x], b as [|y], c as [|z]; simpl; try done.
  destruct (Rlt_dec y x), (Rlt_dec y z), (Rlt_dec z x); try done. lra.
Qed.

Lemma score_gt_PosInf a : score_gt a PosInf = false.
Proof. by destruct a. Qed.

Lemma ucb_unvisited t n nd bot_identity :
  t !! n = Some nd → visits nd = 0 → ucb t n bot_identity = Ok PosInf.
Proof.
  intros Hn Hz. unfold ucb. apply node_at_Ok in Hn as ->. simpl. by rewrite Hz.
Qed.

Lemma ucb_visited t n nd p pn bot_identity :
  t !! n = Some nd → visits nd ≠ 0 →
  parent nd = Some p → t !! p = Some pn → visits pn ≠ 0 →
  ucb t n bot_identity =
    Ok (Finite
          (if bot_identity =? 1
           then INR (wins nd) / INR (visits nd) +
                2 * sqrt (ln (INR (visits pn)) / INR (visits nd))
           else - (INR (wins nd) / INR (visits nd)) +
                2 * sqrt (ln (INR (visits pn)) / INR (visits nd))))%R.
Proof.
  intros Hn Hv Hp Hpn Hpv. unfold ucb.
  apply node_at_Ok in Hn as ->. simpl.
  apply Nat.eqb_neq in Hv as ->. rewrite Hp. simpl.
  apply node_at_Ok in Hpn as ->. simpl.
  apply Nat.eqb_neq in Hpv as ->. done.
Qed.

(** A score is infinite exactly on a node without visits. *)
Lemma ucb_PosInf t n bot_identity :
  ucb t n bot_identity = Ok PosInf ↔ ∃ nd, t !! n = Some nd ∧ visits nd = 0.
Proof.
  split.
  - unfold ucb. intros Hrun. apply bind_Ok in Hrun as (nd & Hnd & Hrun).
    apply node_at_Ok in Hnd. exists nd. split; [done|].
    destruct (visits nd =? 0) eqn:Hz; [by apply Nat.eqb_eq|].
    apply bind_Ok in Hrun as (p & _ & Hrun).
    apply bind_Ok in Hrun as (pn & _ & Hrun).
    by destruct (visits pn =? 0).
  - intros (nd & Hnd & Hz). by eapply ucb_unvisited.
Qed.

Lemma ucb_Finite t n bot_identity x :
  ucb t n bot_identity = Ok (Finite x) → ∃ nd, t !! n = Some nd ∧ visits nd ≠ 0.
Proof.
  unfold ucb. intros Hrun. apply bind_Ok in Hrun as (nd & Hnd & Hrun).
  apply node_at_Ok in Hnd. exists nd. split; [done|].
  destruct (visits nd =? 0) eqn:Hz; [done|]. by apply Nat.eqb_neq.
Qed.

(** The child selected has a score that no other child's score exceeds. *)
Lemma select_child_greatest t nd bot_identity c :
  select_child t nd bot_identity = Ok c →
  c ∈ values (child_nodes nd) ∧
  ∃ s, ucb t c bot_identity = Ok s ∧
       ∀ x, x ∈ values (child_nodes nd) →
         ∃ sx, ucb t x bot_identity = Ok sx ∧ score_gt sx s = false.
Proof.
  apply (py_max_greatest score_gt (λ x, ucb t x bot_identity)
           score_gt_asym score_gt_trans).
Qed.

(** If some child has no visits, the child selected has none. *)
Lemma select_child_unvisited t nd bot_identity c :
  (∃ c0 cn0, c0 ∈ values (child_nodes nd) ∧ t !! c0 = Some cn0 ∧ visits cn0 = 0) →
  select_child t nd bot_identity = Ok c →
  ∃ cn, t !! c = Some cn ∧ visits cn = 0.
Proof.
  intros (c0 & cn0 & Hc0 & Hcn0 & Hz) Hsel.
  apply select_child_greatest in Hsel as (_ & s & Hs & Hmax).
  destruct (Hmax c0 Hc0) as (s0 & Hs0 & Hle).
  rewrite (ucb_unvisited t c0 cn0 bot_identity Hcn0 Hz) in Hs0.
  injection Hs0 as <-. destruct s as [|x]; [|done].
  by apply ucb_PosInf in Hs.
Qed.

(** The scores of the children of a visited node are defined. *)
Lemma ucb_children_defined t node nd bot_identity :
  t !! node = Some nd → visits nd ≠ 0 →
  (∀ c, c ∈ values (child_nodes nd) → ∃ cn, t !! c = Some cn ∧ parent cn = Some node) →
  ∀ c, c ∈ values (child_nodes nd) → is_Ok (ucb t c bot_identity).
Proof.
  intros Hnd Hv Hlinked c Hc. destruct (Hlinked c Hc) as (cn & Hcn & Hpar).
  destruct (decide (visits cn = 0)) as [Hz|Hnz].
  - eexists. by eapply ucb_unvisited.
  - eexists. by eapply ucb_visited.
Qed.

(** On such a node the selection returns the first child without visits. *)
Lemma select_child_first_unvisited t node nd bot_identity :
  t !! node = Some nd → visits nd ≠ 0 →
  (∀ c, c ∈ values (child_nodes nd) → ∃ cn, t !! c = Some cn ∧ parent cn = Some node) →
  (∃ c0 cn0, c0 ∈ values (child_nodes nd) ∧ t !! c0 = Some cn0 ∧ visits cn0 = 0) →
  ∃ c cn l1 l2,
    select_child t nd bot_identity = Ok c ∧
    values (child_nodes nd) = l1 ++ [c] ++ l2 ∧
    t !! c = Some cn ∧ visits cn = 0 ∧
    ∀ x, x ∈ l1 → ∃ xn, t !! x = Some xn ∧ visits xn ≠ 0.
Proof.
  intros Hnd Hv Hlinked Hzero.
  pose proof (ucb_children_defined t node nd bot_identity Hnd Hv Hlinked) as Hdef.
  destruct (py_max_first score_gt (λ x, ucb t x bot_identity)
              score_gt_asym score_gt_trans (values (child_nodes nd)))
    as (c & s & l1 & l2 & Hsel & Hl & Hs & H1 & _); [|done|].
  { destruct Hzero as (c0 & _ & Hc0 & _). intros Hnil. rewrite Hnil in Hc0.
    by apply elem_of_nil in Hc0. }
  destruct (select_child_unvisited t nd bot_identity c Hzero Hsel) as (cn & Hcn & Hz).
  exists c, cn, l1, l2. split_and!; [done..|].
  intros x Hx. destruct (H1 x Hx) as (sx & Hsx & Hlt).
  destruct sx as [|r]; [by rewrite score_gt_PosInf in Hlt|].
  by eapply ucb_Finite.
Qed.
End ConfidenceBound.

(** ** Roulette-wheel selection *)

Section Wheel.
Context {Action num : Type} `{EqDecision Action} `{Arith num}.
Implicit Types (t : Tree Action) (nd : MCTSNode Action)
  (probabilities : list (Action * num)).
Import Modified.

Lemma roulette_wheel_selection_draw probabilities (g : Rng) :
  roulette_wheel_selection probabilities g =
    (roulette_scan (num_random (g 0)) num_zero probabilities, λ i, g (S i)).
Proof. done. Qed.

Lemma roulette_scan_find (threshold : num) : ∀ probabilities (acc : num),
  roulette_scan threshold acc probabilities =
    p ← list_find
          (λ i, num_geb (foldl num_add acc (take (S i) (values probabilities)))
                  threshold = true)
          (seq 0 (length probabilities));
    keys probabilities !! p.2.
Proof.
  induction probabilities as [|[a q] ps IH]; intros acc; [done|].
  cbn [roulette_scan length seq list_find]. rewrite <- fmap_S_seq.
  case_decide as Hgeb.
  - change (num_geb (num_add acc q) threshold = true) in Hgeb. by rewrite Hgeb.
  - change (num_geb (num_add acc q) threshold ≠ true) in Hgeb.
    apply not_true_is_false in Hgeb. rewrite Hgeb.
    rewrite IH, list_find_fmap.
    by destruct (list_find _ (seq 0 (length ps))) as [[j i]|].
Qed.

Lemma roulette_scan_first_reaching (threshold : num) probabilities :
  roulette_scan threshold num_zero probabilities =
    first_reaching threshold probabilities.
Proof. apply roulette_scan_find. Qed.

(** The visits of the children, in the order of [child_nodes]. *)
Lemma children_visits t (d : list (Action * nat)) :
  (∀ c, c ∈ values d → is_Some (t !! c)) →
  ∃ vs, Forall2 (λ e v, ∃ cn, t !! e.2 = Some cn ∧ visits cn = v) d vs ∧
        map_result (λ c, cn ← node_at t c; Ok (visits cn)) (values d) = Ok vs.
Proof.
  induction d as [|[a c] d IH]; intros Hres.
  - exists []. by split.
  - destruct (Hres c) as [cn Hcn]; [left|].
    destruct IH as (vs & Hvs & Hmap); [intros; apply Hres; by right|].
    assert (node_at t c = Ok cn) as Hn by (by apply node_at_Ok).
    exists (visits cn :: vs). split; [constructor; eauto|].
    cbn. rewrite Hn. cbn. unfold values in Hmap. by rewrite Hmap.
Qed.

Lemma probabilities_of_zip t (d : list (Action * nat)) (vs : list nat) (total : nat) :
  Forall2 (λ e v, ∃ cn, t !! e.2 = Some cn ∧ visits cn = v) d vs →
  total ≠ 0 →
  map_result
    (λ '(action, c),
       cn ← node_at t c;
       if total =? 0 then Raise ZeroDivisionError
       else Ok (action, num_ratio (visits cn) total)) d =
  Ok (zip_with (λ e v, (e.1, num_ratio v total)) d vs).
Proof.
  intros Hvs Htotal. apply Nat.eqb_neq in Htotal.
  induction Hvs as [|[a c] v d vs (cn & Hcn & <-) _ IH]; [done|].
  assert (node_at t c = Ok cn) as Hn by (by apply node_at_Ok).
  cbn [map_result]. rewrite IH. cbn. rewrite Hn. cbn. by rewrite Htotal.
Qed.

(** Each child gets the probability [child.visits / total_visits]. *)
Lemma probabilities_of_children t nd :
  (∀ c, c ∈ values (child_nodes nd) → is_Some (t !! c)) →
  ∃ vs, Forall2 (λ e v, ∃ cn, t !! e.2 = Some cn ∧ visits cn = v) (child_nodes nd) vs ∧
        total_visits t nd = Ok (sum_list vs) ∧
        (sum_list vs ≠ 0 →
         probabilities_of t nd (sum_list vs) =
           Ok (zip_with (λ e v, (e.1, num_ratio v (sum_list vs))) (child_nodes nd) vs)).
Proof.
  intros Hres. destruct (children_visits t _ Hres) as (vs & Hvs & Hmap).
  exists vs. split; [done|]. split.
  - unfold total_visits. by rewrite Hmap.
  - intros Htotal. by apply probabilities_of_zip.
Qed.
End Wheel.

(** *** Binary64 *)

(** In binary64 the probabilities 1/7, 4/7, 1/7 and 1/7 add up to
    [1 - 2^-52], below the largest threshold [1 - 2^-53]: the loop falls
    through and the selection returns [None]. *)
Lemma roulette_binary64_falls_through :
  ∃ probabilities : list (nat * PrimFloat.float),
    Modified.probabilities_of Takeaway.skew_tree Takeaway.skew_root 7 =
      Ok probabilities ∧
    Modified.total_visits Takeaway.skew_tree Takeaway.skew_root = Ok 7 ∧
    (Modified.roulette_wheel_selection probabilities Takeaway.largest).1 = None.
Proof.
  eexists. split; [reflexivity|]. split; [reflexivity|].
  vm_compute. reflexivity.
Qed.

(** *** Exact arithmetic *)

Section ExactWheel.
Context {Action : Type} `{EqDecision Action}.
Implicit Types (t : Tree Action) (nd : MCTSNode Action)
  (probabilities : list (Action * Q)).
Import Modified.
Local Open Scope Q_scope.

(** [random()] is in [0, 1). *)
Lemma num_random_Q_range (r : N) :
  0 <= num_random (num := Q) r ∧ num_random (num := Q) r < 1.
Proof.
  cbn [num_random Arith_Q]. unfold Qle, Qlt. cbn [Qnum Qden].
  assert (r mod 2 ^ 53 < 2 ^ 53)%N as Hlt by (by apply N.mod_lt).
  assert (Z.pos (2 ^ 53) = Z.of_N (2 ^ 53)%N) as -> by reflexivity.
  generalize dependent (r mod 2 ^ 53)%N. generalize (2 ^ 53)%N. lia.
Qed.

Lemma Qplus_same_den (a b : Z) (p : positive) : (a # p) + (b # p) == (a + b # p).
Proof. unfold Qeq, Qplus. cbn [Qnum Qden]. rewrite Pos2Z.inj_mul. ring. Qed.

(** The mass of probabilities [v / total] is [sum v / total]. *)
Lemma foldl_ratio (total : nat) (vs : list nat) : ∀ acc : Q,
  foldl Qplus acc ((λ v, num_ratio (num := Q) v total) <$> vs) ==
  acc + (Z.of_nat (sum_list vs) # Pos.of_nat total).
Proof.
  induction vs as [|v vs IH]; intros acc; cbn [fmap list_fmap foldl sum_list].
  - assert ((Z.of_nat 0 # Pos.of_nat total) == 0) as -> by reflexivity.
    by rewrite Qplus_0_r.
  - rewrite IH. cbn [num_ratio Arith_Q].
    rewrite <- Qplus_assoc, Qplus_same_den, Nat2Z.inj_add. reflexivity.
Qed.

Lemma values_zip_ratio (d : list (Action * nat)) (vs : list nat) (total : nat) :
  length d = length vs →
  values (zip_with (λ e v, (e.1, num_ratio (num := Q) v total)) d vs) =
    (λ v, num_ratio (num := Q) v total) <$> vs ∧
  keys (zip_with (λ e v, (e.1, num_ratio (num := Q) v total)) d vs) = keys d.
Proof.
  revert vs. induction d as [|e d IH]; intros [|v vs] Hlen; try done.
  injection Hlen as Hlen. destruct (IH vs Hlen) as [Hv Hk].
  unfold values, keys in *. csimpl. split; f_equal; [exact Hv | exact Hk].
Qed.

(** The whole mass of the probabilities of a node with a visited child is 1. *)
Lemma probabilities_mass t nd (vs : list nat) :
  Forall2 (λ e v, ∃ cn, t !! e.2 = Some cn ∧ visits cn = v) (child_nodes nd) vs →
  sum_list vs ≠ 0%nat →
  let probabilities :=
    zip_with (λ e v, (e.1, num_ratio (num := Q) v (sum_list vs))) (child_nodes nd) vs in
  cumulative_mass probabilities (length probabilities) == 1.
Proof.
  intros Hvs Htotal probabilities. unfold cumulative_mass.
  rewrite <- (length_fmap snd probabilities), firstn_all.
  change (snd <$> probabilities) with (values probabilities).
  unfold probabilities.
  rewrite (proj1 (values_zip_ratio _ _ _ (Forall2_length _ _ _ Hvs))).
  cbn [num_zero num_add Arith_Q]. rewrite foldl_ratio, Qplus_0_l.
  unfold Qeq. cbn [Qnum Qden].
  rewrite <- (positive_nat_Z (Pos.of_nat _)), Nat2Pos.id by done. lia.
Qed.

(** A threshold that the whole mass reaches is reached at some entry. *)
Lemma roulette_scan_reaches (threshold : Q) : ∀ probabilities (acc : Q),
  probabilities ≠ [] →
  threshold <= foldl Qplus acc (values probabilities) →
  ∃ a, roulette_scan threshold acc probabilities = Some a ∧ a ∈ keys probabilities.
Proof.
  induction probabilities as [|[a q] ps IH]; intros acc Hne Hmass; [done|].
  cbn [roulette_scan num_geb num_add Arith_Q].
  destruct (Qle_bool threshold (acc + q)) eqn:Hle.
  - exists a. split; [done | left].
  - destruct ps as [|e ps].
    + apply Qle_bool_iff in Hmass. cbn in Hmass. congruence.
    + destruct (IH (acc + q)) as (b & Hb & Hin); [done | done |].
      exists b. split; [done | by right].
Qed.

Lemma roulette_scan_total (threshold : Q) probabilities :
  probabilities ≠ [] →
  cumulative_mass probabilities (length probabilities) == 1 →
  threshold < 1 →
  ∃ a, roulette_scan threshold num_zero probabilities = Some a ∧
       a ∈ keys probabilities.
Proof.
  intros Hne Hmass Hlt. apply roulette_scan_reaches; [done|].
  unfold cumulative_mass in Hmass.
  rewrite <- (length_fmap snd probabilities), firstn_all in Hmass.
  change (foldl Qplus 0 (values probabilities) == 1) in Hmass.
  cbn [num_zero Arith_Q]. rewrite Hmass. by apply Qlt_le_weak.
Qed.

(** In the descent, the selection of the roulette-wheel bot returns the
    action of a child. *)
Lemma roulette_in_descent t nd (g : Rng) :
  some_visited t nd →
  ∃ total probabilities a c,
    total_visits t nd = Ok total ∧
    probabilities_of (num := Q) t nd total = Ok probabilities ∧
    cumulative_mass probabilities (length probabilities) == 1 ∧
    roulette_wheel_selection probabilities g = (Some a, λ i, g (S i)) ∧
    dict_get (child_nodes nd) a = Some c.
Proof.
  intros [Hres (c0 & cn0 & Hc0 & Hcn0 & Hv0)].
  destruct (probabilities_of_children (num := Q) t nd Hres)
    as (vs & Hvs & Htotal & Hprobs).
  pose proof (Forall2_length _ _ _ Hvs) as Hlen.
  assert (sum_list vs ≠ 0%nat) as Hsum.
  { apply list_elem_of_fmap in Hc0 as ([a0 c0'] & -> & Hin).
    apply list_elem_of_lookup in Hin as [i Hi].
    destruct (Forall2_lookup_l _ _ _ _ _ Hvs Hi) as (v & Hv & cn & Hcn & Hvis).
    cbn in Hcn, Hcn0. assert (cn = cn0) as -> by congruence.
    apply list_elem_of_lookup_2 in Hv.
    pose proof (sum_list_with_in v Datatypes.id vs Hv) as Hle. cbn in Hle. lia. }
  specialize (Hprobs Hsum).
  destruct (values_zip_ratio (child_nodes nd) vs (sum_list vs) Hlen) as [_ Hkeys].
  pose proof (probabilities_mass t nd vs Hvs Hsum) as Hmass. cbn zeta in Hmass.
  set (probabilities := zip_with _ _ _) in *.
  destruct (roulette_scan_total (num_random (g 0%nat)) probabilities)
    as (a & Ha & Hin); [|done|apply num_random_Q_range|].
  { unfold probabilities. by destruct (child_nodes nd), vs. }
  rewrite Hkeys in Hin. apply list_elem_of_fmap in Hin as ([a' c] & -> & Hin).
  destruct (dict_get_elem _ _ _ Hin) as [c' Hc'].
  eexists _, _, a', c'. split_and!; [done | done | done | | done].
  rewrite roulette_wheel_selection_draw. by rewrite Ha.
Qed.
End ExactWheel.

(** ** The driver on a finished game *)

Section TerminalRoot.
Context {State Action : Type} `{EqDecision Action}.
Variable traverse :
  Tree Action → Board State Action → State → nat → Rng → result (nat * State * Rng).
Variables (board : Board State Action) (current_state : State).
Variables (horizon bot_identity : nat) (outcome : nat → Z).

Hypothesis ended : is_ended board current_state = true.
Hypothesis scored : points_values board current_state = Some outcome.
(** The descent stays at the root of a finished game. *)
Hypothesis traverse_ended : ∀ (t : Tree Action) (g : Rng),
  is_Some (t !! root_node) →
  traverse t board current_state bot_identity g = Ok (root_node, current_state, g).

Lemma rollout_ended (g : Rng) :
  rollout horizon board current_state g = Ok (current_state, g).
Proof using ended. destruct horizon; simpl; by rewrite ended. Qed.

Lemma iteration_terminal (g : Rng) (wins visits rollouts : nat) :
  let won := (outcome bot_identity =? 1)%Z in
  iteration traverse horizon board current_state bot_identity
    {| w_tree := [mkNode None None [] [] wins visits]; w_rng := g;
       w_rollouts := rollouts |} =
  Ok {| w_tree := [mkNode None None [] [] (if won then wins + 1 else wins)
                     (visits + 1)];
        w_rng := g; w_rollouts := S rollouts |}.
Proof using ended scored traverse_ended.
  intros won. unfold iteration. cbn [w_tree w_rng w_rollouts].
  rewrite traverse_ended by (by eexists). cbn.
  rewrite rollout_ended. cbn. unfold is_win. rewrite scored. cbn.
  fold won. by destruct won.
Qed.

Lemma search_loop_terminal (k : nat) : ∀ (g : Rng) (wins visits rollouts : nat),
  let won := (outcome bot_identity =? 1)%Z in
  search_loop traverse horizon k board current_state bot_identity
    {| w_tree := [mkNode None None [] [] wins visits]; w_rng := g;
       w_rollouts := rollouts |} =
  Ok {| w_tree := [mkNode None None [] [] (if won then wins + k else wins)
                     (visits + k)];
        w_rng := g; w_rollouts := k + rollouts |}.
Proof using ended scored traverse_ended.
  induction k as [|k IH]; intros g wins visits rollouts won; cbn [search_loop].
  - rewrite !Nat.add_0_r. by destruct won.
  - rewrite iteration_terminal. cbn [mbind result_bind]. rewrite IH. fold won.
    replace (visits + 1 + k) with (visits + S k) by lia.
    replace (k + S rollouts) with (S k + rollouts) by lia.
    destruct won; [|done].
    by replace (wins + 1 + k) with (wins + S k) by lia.
Qed.
End TerminalRoot.

Lemma think_with_terminal {State Action : Type} `{EqDecision Action}
    (traverse : Tree Action → Board State Action → State → nat → Rng →
                result (nat * State * Rng))
    (num_nodes horizon : nat) (board : Board State Action) (current_state : State)
    (outcome : nat → Z) (g : Rng) :
  is_ended board current_state = true →
  legal_actions board current_state = [] →
  points_values board current_state = Some outcome →
  (∀ (t : Tree Action) (g : Rng), is_Some (t !! root_node) →
     traverse t board current_state (current_player board current_state) g =
       Ok (root_node, current_state, g)) →
  think_with traverse num_nodes horizon board current_state g =
    Ok (None,
        {| w_tree :=
             [mkNode None None [] []
                (if (outcome (current_player board current_state) =? 1)%Z
                 then num_nodes else 0) num_nodes];
           w_rng := g; w_rollouts := num_nodes |}).
Proof.
  intros Hend Hlegal Hscore Htrav. unfold think_with, initial_world, MCTSNode_init.
  rewrite Hlegal.
  rewrite (search_loop_terminal traverse board current_state horizon _ outcome
             Hend Hscore Htrav).
  cbn. rewrite Nat.add_0_r. done.
Qed.

Lemma vanilla_traverse_ended {State Action : Type} `{EqDecision Action}
    (board : Board State Action) (state : State) (bot_identity : nat)
    (t : Tree Action) (g : Rng) :
  is_ended board state = true → is_Some (t !! root_node) →
  Vanilla.traverse t board state bot_identity g = Ok (root_node, state, g).
Proof.
  intros Hend [r Hr]. unfold Vanilla.traverse.
  by rewrite (vanilla_stop _ _ _ r) by auto.
Qed.

Lemma modified_traverse_ended {State Action num : Type} `{EqDecision Action}
    `{Arith num} (board : Board State Action) (state : State) (bot_identity : nat)
    (t : Tree Action) (g : Rng) :
  is_ended board state = true → is_Some (t !! root_node) →
  Modified.traverse (num := num) t board state bot_identity g =
    Ok (root_node, state, g).
Proof.
  intros Hend [r Hr]. unfold Modified.traverse.
  by rewrite (modified_stop _ _ _ r) by auto.
Qed.

(** ** The descent and the search return *)

Section Totality.
Context {State Action : Type} `{EqDecision Action}.
Implicit Types (board : Board State Action) (t : Tree Action)
  (nd : MCTSNode Action) (state : State).

Lemma reachable_trans board s0 s1 s2 :
  reachable board s0 s1 → reachable board s1 s2 → reachable board s0 s2.
Proof. intros H01. induction 1; [done|]. by constructor. Qed.

(** A child entry of a node of the tree leads to a later node that carries
    the action. *)
Lemma child_entry t node nd a c :
  tree_inv t → t !! node = Some nd → (a, c) ∈ child_nodes nd →
  ∃ cn, t !! c = Some cn ∧ parent cn = Some node ∧
        parent_action cn = Some a ∧ node < c ∧ c < length t.
Proof.
  intros Hinv Hnd Hin.
  destruct (inv_children t Hinv node nd a c Hnd Hin) as (cn & Hcn & Hpar & Hact).
  exists cn. split_and!; [done..| |].
  - by apply (inv_parents t Hinv c cn node).
  - by eapply lookup_lt_Some.
Qed.

Lemma child_value t node nd c :
  tree_inv t → t !! node = Some nd → c ∈ values (child_nodes nd) →
  ∃ cn, t !! c = Some cn ∧ parent cn = Some node.
Proof.
  intros Hinv Hnd Hc. apply list_elem_of_fmap in Hc as ([a c'] & -> & Hin).
  destruct (child_entry t node nd a c' Hinv Hnd Hin) as (cn & Hcn & Hpar & _).
  eauto.
Qed.

(** On a node of the tree the test of the descent has an answer, and the
    answer no means that the node and one of its children were visited. *)
Lemma nothing_visited_decided t node nd :
  tree_inv t → t !! node = Some nd →
  nothing_visited t nd = Ok true ∨
  (nothing_visited t nd = Ok false ∧ some_visited t nd ∧ visits nd ≠ 0).
Proof.
  intros Hinv Hnd.
  assert (∀ c, c ∈ values (child_nodes nd) → is_Some (t !! c)) as Hres.
  { intros c Hc. destruct (child_value t node nd c Hinv Hnd Hc) as (cn & Hcn & _).
    by eexists. }
  assert (is_Ok (nothing_visited t nd)) as [[|] Hb].
  { unfold nothing_visited. destruct (is_nil _); [by eexists|].
    apply py_all_total. intros x Hx. destruct (Hres x Hx) as [xn Hxn].
    exists (visits xn =? 0). apply unvisited_test. eauto. }
  - by left.
  - right. split; [done|].
    destruct (nothing_visited_false t nd Hb) as (_ & c & cn & Hc & Hcn & Hv).
    split; [split; eauto 6|].
    destruct (child_value t node nd c Hinv Hnd Hc) as (cn' & Hcn' & Hpar).
    assert (cn' = cn) as -> by congruence.
    pose proof (inv_visits t Hinv c cn node nd Hcn Hpar Hnd). lia.
Qed.

Lemma vanilla_descent_returns board t bot_identity (fuel : nat) :
  tree_inv t →
  ∀ node state, node < length t → length t ≤ fuel + node →
  ∃ node' state',
    Vanilla.traverse_nodes fuel t node board state bot_identity = Ok (node', state') ∧
    node' < length t ∧ reachable board state state'.
Proof.
  intros Hinv. induction fuel as [|fuel IH]; intros node state Hlt Hfuel; [lia|].
  destruct (lookup_lt_is_Some_2 t node Hlt) as [nd Hnd].
  destruct (is_ended board state) eqn:Hend.
  { exists node, state. split; [|split; [done | constructor]].
    eapply vanilla_stop; eauto. }
  destruct (decide (untried_actions nd = [])) as [Hnil|Hne].
  2: { exists node, state. split; [|split; [done | constructor]].
       eapply vanilla_stop; eauto. }
  destruct (nothing_visited_decided t node nd Hinv Hnd) as [Hnv|(Hnv & Hsome & Hv)].
  { exists node, state. split; [|split; [done | constructor]].
    by eapply vanilla_stop_unvisited. }
  rewrite (vanilla_step fuel t node nd board state bot_identity Hnd Hend Hnil Hnv).
  destruct (py_max_first Vanilla.score_gt (λ x, Vanilla.ucb t x bot_identity)
              score_gt_asym score_gt_trans (values (child_nodes nd)))
    as (c & s & l1 & l2 & Hsel & Hl & _).
  { destruct Hsome as [_ (c & _ & Hc & _)]. intros Hempty. rewrite Hempty in Hc.
    by apply elem_of_nil in Hc. }
  { apply (ucb_children_defined t node nd bot_identity Hnd Hv).
    intros c Hc. by eapply child_value. }
  assert (c ∈ values (child_nodes nd)) as Hc.
  { rewrite Hl, !elem_of_app, list_elem_of_singleton. auto. }
  apply list_elem_of_fmap in Hc as ([a c'] & -> & Hin). cbn [snd] in *.
  destruct (child_entry t node nd a c' Hinv Hnd Hin)
    as (cn & Hcn & Hpar & Hact & Hnc & Hcl).
  unfold Vanilla.select_child. rewrite Hsel. cbn [mbind result_bind].
  apply node_at_Ok in Hcn as ->. cbn [mbind result_bind]. rewrite Hact.
  cbn [required mbind result_bind].
  destruct (IH c' (next_state board state a)) as (node' & state' & Hrun & Hn' & Hreach);
    [done | lia |].
  exists node', state'. split_and!; [done | done |].
  eapply reachable_trans; [|done]. constructor. constructor.
Qed.

Lemma modified_descent_returns board t bot_identity (fuel : nat) :
  tree_inv t →
  ∀ node state (g : Rng), node < length t → length t ≤ fuel + node →
  ∃ node' state' g',
    Modified.traverse_nodes (num := Q) fuel t node board state bot_identity g =
      Ok (node', state', g') ∧
    node' < length t ∧ reachable board state state'.
Proof.
  intros Hinv. induction fuel as [|fuel IH]; intros node state g Hlt Hfuel; [lia|].
  destruct (lookup_lt_is_Some_2 t node Hlt) as [nd Hnd].
  destruct (is_ended board state) eqn:Hend.
  { exists node, state, g. split; [|split; [done | constructor]].
    eapply modified_stop; eauto. }
  destruct (decide (untried_actions nd = [])) as [Hnil|Hne].
  2: { exists node, state, g. split; [|split; [done | constructor]].
       eapply modified_stop; eauto. }
  destruct (nothing_visited_decided t node nd Hinv Hnd) as [Hnv|(Hnv & Hsome & Hv)].
  { exists node, state, g. split; [|split; [done | constructor]].
    by eapply modified_stop_unvisited. }
  rewrite (modified_step fuel t node nd board state bot_identity g Hnd Hend Hnil Hnv).
  destruct (roulette_in_descent t nd g Hsome)
    as (total & probabilities & a & c & -> & Hprobs & _ & Hsel & Hc).
  cbn [mbind result_bind]. rewrite Hprobs. cbn [mbind result_bind].
  rewrite Hsel, Hc. cbn [mbind result_bind].
  apply dict_get_Some_elem in Hc.
  destruct (child_entry t node nd a c Hinv Hnd Hc)
    as (cn & Hcn & Hpar & Hact & Hnc & Hcl).
  apply node_at_Ok in Hcn as ->. cbn [mbind result_bind]. rewrite Hact.
  cbn [required mbind result_bind].
  destruct (IH c (next_state board state a) (λ i, g (S i)))
    as (node' & state' & g' & Hrun & Hn' & Hreach); [done | lia |].
  exists node', state', g'. split_and!; [done | done |].
  eapply reachable_trans; [|done]. constructor. constructor.
Qed.
End Totality.

Section SearchReturns.
Context {State Action : Type} `{EqDecision Action}.
Implicit Types (board : Board State Action) (t : Tree Action) (state : State).

Lemma rollout_ends board (fuel : nat) : ∀ state (g : Rng) state' (g' : Rng),
  rollout fuel board state g = Ok (state', g') →
  is_ended board state' = true ∧ reachable board state state'.
Proof.
  induction fuel as [|fuel IH]; intros state g state' g' Hrun; simpl in Hrun.
  - destruct (is_ended board state) eqn:Hend; [|done].
    injection Hrun as <- <-. split; [done | constructor].
  - destruct (is_ended board state) eqn:Hend.
    + injection Hrun as <- <-. split; [done | constructor].
    + apply bind_Ok in Hrun as ([a g1] & _ & Hrun).
      destruct (IH _ _ _ _ Hrun) as [Hend' Hreach]. split; [done|].
      eapply reachable_trans; [|done]. constructor. constructor.
Qed.

Lemma expand_leaf_returns board t node state (g : Rng) :
  node < length t →
  ∃ t1 node1 state1 g1,
    expand_leaf board t node state g = Ok (t1, node1, state1, g1) ∧
    reachable board state state1.
Proof.
  intros Hlt. destruct (lookup_lt_is_Some_2 t node Hlt) as [nd Hnd].
  destruct (decide (untried_actions nd = [])) as [Hnil|Hne].
  - eexists _, _, _, _. split; [by eapply expand_leaf_tried | constructor].
  - destruct (expand_leaf_untried board t node nd state g Hnd Hne)
      as (action & l1 & l2 & _ & _ & _ & Hexp).
    eexists _, _, _, _. split; [exact Hexp|]. constructor. constructor.
Qed.

Lemma get_best_action_returns t :
  tree_inv t → is_Ok (get_best_action t root_node).
Proof.
  intros Hinv. destruct (inv_root t Hinv) as (r & Hr & _).
  destruct (decide (child_nodes r = [])) as [Hnil|Hne].
  - eexists. by eapply get_best_action_childless.
  - destruct (get_best_action_max t root_node r Hr Hne) as (a & _ & _ & Hrun & _).
    + intros a c Hin.
      destruct (child_entry t root_node r a c Hinv Hr Hin) as (cn & Hcn & _).
      by eexists.
    + by eexists.
Qed.

Section Iterations.
Variable traverse :
  Tree Action → Board State Action → State → nat → Rng → result (nat * State * Rng).
Variables (board : Board State Action) (current_state : State).
Variables (horizon bot_identity : nat).

Hypothesis game : playable board horizon current_state.
(** The descent returns a node of the tree and a state of the game. *)
Hypothesis traverse_returns : ∀ (t : Tree Action) (g : Rng),
  tree_inv t →
  ∃ node state g',
    traverse t board current_state bot_identity g = Ok (node, state, g') ∧
    node < length t ∧ reachable board current_state state.

Lemma iteration_returns (w : World Action) :
  tree_inv (w_tree w) →
  is_Ok (iteration traverse horizon board current_state bot_identity w).
Proof using game traverse_returns.
  intros Hinv. unfold iteration.
  destruct (traverse_returns (w_tree w) (w_rng w) Hinv)
    as (node & state & g1 & -> & Hnode & Hreach). cbn [mbind result_bind].
  destruct (expand_leaf_returns board (w_tree w) node state g1 Hnode)
    as (t1 & node1 & state1 & g2 & Hexp & Hreach1).
  rewrite Hexp. cbn [mbind result_bind].
  destruct (expand_leaf_inv _ _ _ _ _ _ _ _ _ Hinv Hexp) as [Hinv1 Hnode1].
  destruct (playouts_end board horizon current_state game state1 g2)
    as [[result_state g3] Hroll]; [by eapply reachable_trans|].
  rewrite Hroll. cbn [mbind result_bind].
  destruct (rollout_ends _ _ _ _ _ _ Hroll) as [Hend _].
  destruct (finished_scored board horizon current_state game result_state Hend)
    as [outcome Hscore].
  unfold is_win. rewrite Hscore. cbn [mbind result_bind].
  destruct (backpropagate_spec (length t1) t1 node1
              (outcome bot_identity =? 1)%Z (inv_parents t1 Hinv1) Hnode1 Hnode1)
    as (t2 & -> & _).
  by eexists.
Qed.

Lemma search_loop_returns (k : nat) : ∀ w : World Action,
  tree_inv (w_tree w) →
  ∃ w', search_loop traverse horizon k board current_state bot_identity w = Ok w' ∧
        tree_inv (w_tree w') ∧ w_rollouts w' = k + w_rollouts w.
Proof using game traverse_returns.
  induction k as [|k IH]; intros w Hinv; cbn [search_loop].
  - by exists w.
  - destruct (iteration_returns w Hinv) as [w1 Hit]. rewrite Hit.
    cbn [mbind result_bind].
    destruct (iteration_inv _ _ _ _ _ _ _ Hinv Hit) as [Hinv1 Hr1].
    destruct (IH w1 Hinv1) as (w' & Hrun & Hinv' & Hr').
    exists w'. split_and!; [done | done | lia].
Qed.
End Iterations.

Lemma think_with_returns
    (traverse : Tree Action → Board State Action → State → nat → Rng →
                result (nat * State * Rng))
    (num_nodes horizon : nat) board (current_state : State) (g : Rng) :
  playable board horizon current_state →
  (∀ (t : Tree Action) (g : Rng), tree_inv t →
     ∃ node state g',
       traverse t board current_state (current_player board current_state) g =
         Ok (node, state, g') ∧
       node < length t ∧ reachable board current_state state) →
  ∃ best_action w,
    think_with traverse num_nodes horizon board current_state g = Ok (best_action, w) ∧
    tree_inv (w_tree w) ∧ w_rollouts w = num_nodes.
Proof.
  intros Hgame Htrav. unfold think_with.
  destruct (search_loop_returns traverse board current_state horizon
              (current_player board current_state) Hgame Htrav num_nodes
              (initial_world board current_state g))
    as (w & -> & Hinv & Hr); [apply tree_inv_initial|].
  cbn [mbind result_bind].
  destruct (get_best_action_returns (w_tree w) Hinv) as [a ->].
  exists a, w. split_and!; [done | done |]. cbn in Hr. lia.
Qed.

Lemma vanilla_traverse_returns board (current_state : State) (bot_identity : nat)
    t (g : Rng) :
  tree_inv t →
  ∃ node state g',
    Vanilla.traverse t board current_state bot_identity g = Ok (node, state, g') ∧
    node < length t ∧ reachable board current_state state.
Proof.
  intros Hinv. destruct (inv_root t Hinv) as (r & Hr & _).
  destruct (vanilla_descent_returns board t bot_identity (length t) Hinv
              root_node current_state)
    as (node & state & Hrun & Hnode & Hreach);
    [by eapply lookup_lt_Some | unfold root_node; lia |].
  exists node, state, g. unfold Vanilla.traverse. by rewrite Hrun.
Qed.

Lemma modified_traverse_returns board (current_state : State) (bot_identity : nat)
    t (g : Rng) :
  tree_inv t →
  ∃ node state g',
    Modified.traverse (num := Q) t board current_state bot_identity g =
      Ok (node, state, g') ∧
    node < length t ∧ reachable board current_state state.
Proof.
  intros Hinv. destruct (inv_root t Hinv) as (r & Hr & _).
  apply modified_descent_returns; [done | by eapply lookup_lt_Some |].
  unfold root_node. lia.
Qed.

(** On a playable game both bots return, the roulette-wheel bot in exact
    arithmetic; the tree they end with has the shape the search maintains. *)
Lemma think_returns (horizon : nat) board (current_state : State) (g : Rng) :
  playable board horizon current_state →
  (∃ best_action w,
     Vanilla.think horizon board current_state g = Ok (best_action, w) ∧
     tree_inv (w_tree w) ∧ w_rollouts w = 100) ∧
  (∃ best_action w,
     Modified.think (num := Q) horizon board current_state g = Ok (best_action, w) ∧
     tree_inv (w_tree w) ∧ w_rollouts w = 1000).
Proof.
  intros Hgame. split.
  - apply think_with_returns; [done|]. intros t g'.
    apply vanilla_traverse_returns.
  - apply think_with_returns; [done|]. intros t g'.
    apply modified_traverse_returns.
Qed.
End SearchReturns.

(** The take-away game from three tokens is playable within three moves. *)
Lemma takeaway_playable : playable Takeaway.board 3 (3, 1).
Proof.
  assert (∀ s, reachable Takeaway.board (3, 1) s → s.1 ≤ 3) as Hpile.
  { induction 1 as [|s a _ IH]; simpl in *; lia. }
  assert (∀ fuel s g, s.1 ≤ fuel → is_Ok (rollout fuel Takeaway.board s g)) as Hroll.
  { induction fuel as [|fuel IH]; intros [pile player] g Hle; simpl in Hle.
    - assert (pile = 0) as -> by lia. by eexists.
    - destruct pile as [|pile]; [by eexists|].
      destruct (choice_Ok (legal_actions Takeaway.board (S pile, player)) g)
        as (a & Hidx & Hch); [by destruct pile|].
      change (rollout (S fuel) Takeaway.board (S pile, player) g) with
        ('(action, g') ← choice (legal_actions Takeaway.board (S pile, player)) g;
         rollout fuel Takeaway.board
           (next_state Takeaway.board (S pile, player) action) g').
      rewrite Hch. cbn [mbind result_bind]. apply IH.
      apply list_elem_of_lookup_2 in Hidx.
      assert (1 ≤ a) as Ha.
      { destruct pile; simpl in Hidx;
          repeat (apply elem_of_cons in Hidx as [->|Hidx]; [lia|]);
          by apply elem_of_nil in Hidx. }
      simpl. lia. }
  split.
  - intros s g Hs. apply Hroll. by apply Hpile.
  - intros [pile player] Hend. simpl in *. rewrite Hend. by eexists.
Qed.

(** Both bots return on the take-away game from three tokens. *)
Lemma think_returns_takeaway (g : Rng) :
  (∃ best_action w,
     Vanilla.think 3 Takeaway.board (3, 1) g = Ok (best_action, w) ∧
     tree_inv (w_tree w) ∧ w_rollouts w = 100) ∧
  (∃ best_action w,
     Modified.think (num := Q) 3 Takeaway.board (3, 1) g = Ok (best_action, w) ∧
     tree_inv (w_tree w) ∧ w_rollouts w = 1000).
Proof. apply think_returns, takeaway_playable. Qed.

(** In a tree of the search, the score of a visited child is defined. *)
Lemma ucb_in_tree {Action : Type} `{EqDecision Action} (t : Tree Action)
    (node : nat) (nd : MCTSNode Action) (c : nat) (cn : MCTSNode Action)
    (bot_identity : nat) :
  tree_inv t → t !! node = Some nd →
  c ∈ values (child_nodes nd) → t !! c = Some cn → visits cn ≠ 0 →
  Vanilla.ucb t c bot_identity =
    Ok (Vanilla.Finite
          (if bot_identity =? 1
           then INR (wins cn) / INR (visits cn) +
                2 * sqrt (ln (INR (visits nd)) / INR (visits cn))
           else - (INR (wins cn) / INR (visits cn)) +
                2 * sqrt (ln (INR (visits nd)) / INR (visits cn))))%R.
Proof.
  intros Hinv Hnd Hc Hcn Hv.
  destruct (child_value t node nd c Hinv Hnd Hc) as (cn' & Hcn' & Hpar).
  assert (cn' = cn) as -> by congruence.
  pose proof (inv_visits t Hinv c cn node nd Hcn Hpar Hnd) as Hle.
  eapply ucb_visited; eauto. lia.
Qed.

(** * Main theorems *)

(** C1 ([ucb] and line 31 of [traverse_nodes], [mcts_vanilla.py]): the code
    at its failing input.  On the take-away game, with two tokens left and
    player 2 to move, taking both tokens wins at once.
    - After the two iterations that expand the root, the child of that move
      has 1 win in 1 visit and the other child 0 wins in 1 visit, the wins
      being those of the bot, player 2.  [ucb] scores both with the
      exploitation term negated, so the child the bot lost in has the
      greater score and is the one selected.
    - [think] as player 2 returns the other move, the one that loses; in the
      same position under the name of player 1 it returns the winning move.
    - From four tokens, in the tree [think] ends with as player 2, node 1
      (player 1 to move in its state) and its child node 3 (player 2 to
      move) are both scored with the exploitation term negated: the sign
      does not change from a level of the tree to the next. *)
Theorem ucb_sign_by_identity :
  (current_player Takeaway.board (2, 2) = 2 ∧
   is_ended Takeaway.board (next_state Takeaway.board (2, 2) 2) = true ∧
   is_win Takeaway.board (next_state Takeaway.board (2, 2) 2) 2 = Ok true) ∧
  (∃ w root lost won,
     search_loop (Vanilla64.traverse libm_log) 3 2 Takeaway.board (2, 2) 2
       (initial_world Takeaway.board (2, 2) Takeaway.zeros) = Ok w ∧
     w_tree w !! root_node = Some root ∧
     untried_actions root = [] ∧ child_nodes root = [(1, 1); (2, 2)] ∧
     visits root = 2 ∧
     w_tree w !! 1 = Some lost ∧ wins lost = 0 ∧ visits lost = 1 ∧
     w_tree w !! 2 = Some won ∧ wins won = 1 ∧ visits won = 1 ∧
     Vanilla64.ucb libm_log (w_tree w) 1 2 =
       Ok (confidence_bound libm_log true 0 1 2) ∧
     Vanilla64.ucb libm_log (w_tree w) 2 2 =
       Ok (confidence_bound libm_log true 1 1 2) ∧
     Vanilla64.score_gt (confidence_bound libm_log true 0 1 2)
       (confidence_bound libm_log true 1 1 2) = true ∧
     Vanilla64.select_child libm_log (w_tree w) root 2 = Ok 1) ∧
  (∃ w, Vanilla64.think libm_log 3 Takeaway.board (2, 2) Takeaway.zeros =
          Ok (Some 1, w)) ∧
  (∃ w, Vanilla64.think libm_log 3 Takeaway.board (2, 1) Takeaway.zeros =
          Ok (Some 2, w)) ∧
  (∃ best w,
     Vanilla64.think libm_log 5 Takeaway.board (4, 2) Takeaway.zeros =
       Ok (best, w) ∧
     state_at Takeaway.board (4, 2) (w_tree w) 1 (3, 1) ∧
     state_at Takeaway.board (4, 2) (w_tree w) 3 (2, 2) ∧
     current_player Takeaway.board (3, 1) = 1 ∧
     current_player Takeaway.board (2, 2) = 2 ∧
     Vanilla64.ucb libm_log (w_tree w) 1 2 =
       Ok (confidence_bound libm_log true 11 35 100) ∧
     Vanilla64.ucb libm_log (w_tree w) 3 2 =
       Ok (confidence_bound libm_log true 5 28 35)).
Proof.
  split; [by split_and!|]. split.
  { eexists _, _, _, _. split; [vm_compute; reflexivity|].
    split_and!; try reflexivity; vm_compute; reflexivity. }
  split; [eexists; vm_compute; reflexivity|].
  split; [eexists; vm_compute; reflexivity|].
  eexists _, _. split; [vm_compute; reflexivity|].
  split.
  { eapply (state_at_child Takeaway.board (4, 2) _ 1 _ 0 1 (4, 2)); [reflexivity..|].
    eapply state_at_root; reflexivity. }
  split.
  { eapply (state_at_child Takeaway.board (4, 2) _ 3 _ 1 1 (3, 1)); [reflexivity..|].
    eapply (state_at_child Takeaway.board (4, 2) _ 1 _ 0 1 (4, 2)); [reflexivity..|].
    eapply state_at_root; reflexivity. }
  split_and!; try reflexivity; vm_compute; reflexivity.
Qed.

(** C2 (the counters, [backpropagate] and [think] of both files).  A new node
    has [wins = 0] and [visits = 0]; a backpropagation adds to [wins] of a
    node at most what it adds to [visits]; and after any number of completed
    iterations of the search loop, whichever way the tree is descended,
    [wins <= visits] at every node of the tree.  On a playable game the loop
    of either bot does complete any number of iterations (the roulette-wheel
    bot in exact arithmetic). *)
Theorem wins_le_visits_search {State Action : Type} `{EqDecision Action} :
  (∀ (p : option nat) (a : option Action) (l : list Action),
     wins (MCTSNode_init p a l) = 0 ∧ visits (MCTSNode_init p a l) = 0) ∧
  (∀ fuel (t : Tree Action) n won t',
     backpropagate fuel t n won = Ok t' →
     ∀ i nd nd', t !! i = Some nd → t' !! i = Some nd' →
       visits nd ≤ visits nd' ∧ wins nd ≤ wins nd' ∧
       wins nd' + visits nd ≤ visits nd' + wins nd) ∧
  (∀ traverse horizon k (board : Board State Action) current_state bot_identity g w,
     search_loop traverse horizon k board current_state bot_identity
       (initial_world board current_state g) = Ok w →
     ∀ i nd, w_tree w !! i = Some nd → wins nd ≤ visits nd) ∧
  (∀ horizon k (board : Board State Action) current_state g,
     playable board horizon current_state →
     is_Ok (search_loop Vanilla.traverse horizon k board current_state
              (current_player board current_state)
              (initial_world board current_state g)) ∧
     is_Ok (search_loop (Modified.traverse (num := Q)) horizon k board current_state
              (current_player board current_state)
              (initial_world board current_state g))).
Proof.
  split_and!.
  - done.
  - intros fuel. apply backpropagate_delta.
  - intros traverse horizon k board current_state bot_identity g w Hrun.
    eapply search_loop_inv in Hrun as [Hinv _]; [apply Hinv|].
    apply tree_inv_initial.
  - intros horizon k board current_state g Hgame. split.
    + destruct (search_loop_returns Vanilla.traverse board current_state horizon
                  (current_player board current_state) Hgame
                  (vanilla_traverse_returns board current_state _) k
                  (initial_world board current_state g)) as (w & Hrun & _);
        [apply tree_inv_initial | by exists w].
    + destruct (search_loop_returns (Modified.traverse (num := Q)) board
                  current_state horizon
                  (current_player board current_state) Hgame
                  (modified_traverse_returns board current_state _) k
                  (initial_world board current_state g)) as (w & Hrun & _);
        [apply tree_inv_initial | by exists w].
Qed.

Lemma wins_le_visits_search_witness :
  ∃ w, search_loop (Modified.traverse (num := Q)) 3 4 Takeaway.board (3, 1) 1
         (initial_world Takeaway.board (3, 1) Takeaway.zeros) = Ok w ∧
       ∀ i nd, w_tree w !! i = Some nd → wins nd ≤ visits nd.
Proof.
  destruct (proj2 (proj2 (proj2 wins_le_visits_search)) 3 4 Takeaway.board (3, 1)
              Takeaway.zeros takeaway_playable) as [_ [w Hrun]].
  exists w. split; [exact Hrun|].
  exact (proj1 (proj2 (proj2 wins_le_visits_search)) _ _ _ _ _ _ _ _ Hrun).
Defined.



(** C4 (visit-proportional selection, [roulette_wheel_selection] and lines
    32-35 of [mcts_modified.py]).  In any arithmetic: the probability of each
    child is [num_ratio child.visits total_visits] with [total_visits] the sum
    of the visits of all children; the selection reads one draw of the random
    source as its threshold; and it returns the first entry, in the order of
    the children, whose cumulative mass reaches or exceeds the threshold.  In
    exact arithmetic the threshold is in [0, 1).  For children visited 10, 30
    and 60 times, a threshold of 0.05 selects the first child and a threshold
    of 0.95 the third, both in exact arithmetic and in binary64. *)
Theorem roulette_wheel_selection_spec :
  (∀ (Action num : Type) `(EqDecision Action) `(Arith num)
     (t : Tree Action) (nd : MCTSNode Action),
     (∀ c, c ∈ values (child_nodes nd) → is_Some (t !! c)) →
     ∃ vs,
       Forall2 (λ e v, ∃ cn, t !! e.2 = Some cn ∧ visits cn = v) (child_nodes nd) vs ∧
       Modified.total_visits t nd = Ok (sum_list vs) ∧
       (sum_list vs ≠ 0 →
        Modified.probabilities_of (num := num) t nd (sum_list vs) =
          Ok (zip_with (λ e v, (e.1, num_ratio v (sum_list vs))) (child_nodes nd) vs))) ∧
  (∀ (Action num : Type) `(Arith num) (probabilities : list (Action * num)) (g : Rng),
     Modified.roulette_wheel_selection probabilities g =
       (Modified.roulette_scan (num_random (g 0)) num_zero probabilities,
        λ i, g (S i))) ∧
  (∀ (Action num : Type) `(Arith num) (threshold : num)
     (probabilities : list (Action * num)),
     Modified.roulette_scan threshold num_zero probabilities =
       first_reaching threshold probabilities) ∧
  (∀ r : N, (0 <= num_random (num := Q) r)%Q ∧ (num_random (num := Q) r < 1)%Q) ∧
  (Modified.total_visits Takeaway.fan_tree (Takeaway.fan_root 50 100) = Ok 100 ∧
   Modified.probabilities_of (num := Q) Takeaway.fan_tree (Takeaway.fan_root 50 100) 100 =
     Ok Takeaway.fan_probabilities ∧
   Modified.roulette_scan (5 # 100)%Q 0%Q Takeaway.fan_probabilities = Some 1 ∧
   Modified.roulette_scan (95 # 100)%Q 0%Q Takeaway.fan_probabilities = Some 3) ∧
  (∃ probabilities : list (nat * PrimFloat.float),
     Modified.probabilities_of Takeaway.fan_tree (Takeaway.fan_root 50 100) 100 =
       Ok probabilities ∧
     Modified.roulette_scan (num_ratio 5 100) num_zero probabilities = Some 1 ∧
     Modified.roulette_scan (num_ratio 95 100) num_zero probabilities = Some 3).
Proof.
  split_and!.
  - intros Action num ? ? t nd. apply probabilities_of_children.
  - intros Action num ? probabilities g. apply roulette_wheel_selection_draw.
  - intros Action num ? threshold probabilities. apply roulette_scan_first_reaching.
  - apply num_random_Q_range.
  - reflexivity.
  - reflexivity.
  - reflexivity.
  - reflexivity.
  - eexists. split_and!; [reflexivity | vm_compute; reflexivity..].
Qed.

Lemma roulette_wheel_selection_spec_witness :
  ∃ vs,
    Modified.total_visits Takeaway.fan_tree (Takeaway.fan_root 50 100) =
      Ok (sum_list vs) ∧
    sum_list vs = 100.
Proof.
  destruct (proj1 roulette_wheel_selection_spec nat Q _ _ Takeaway.fan_tree
              (Takeaway.fan_root 50 100)) as (vs & Hvs & Htotal & _).
  - intros c Hc. simpl in Hc.
    repeat (apply elem_of_cons in Hc as [->|Hc]; [by eexists|]).
    by apply elem_of_nil in Hc.
  - exists vs. split; [exact Htotal|].
    assert (Ok (sum_list vs) = Ok 100) as Heq by (rewrite <- Htotal; reflexivity).
    by injection Heq.
Defined.



(** C6 (expansion, [expand_leaf] of both files).  On a node with a non-empty
    list of untried actions, expansion removes exactly one action from the
    list (the first occurrence of the action chosen), allocates exactly one
    new node, records it in [child_nodes] under that action, gives it the
    legal actions of the resulting state and zero counters, and returns it
    with that state; [parent], [parent_action], [wins], [visits] and the other
    entries of [child_nodes] of the expanded node, and every other node, are
    unchanged.  On a node without untried actions it returns the node, the
    state and the store as they are. *)
Theorem expand_leaf_effect {State Action : Type} `{EqDecision Action}
    (board : Board State Action) (t : Tree Action) (node : nat)
    (nd : MCTSNode Action) (state : State) (g : Rng) :
  t !! node = Some nd →
  (untried_actions nd = [] →
     expand_leaf board t node state g = Ok (t, node, state, g)) ∧
  (untried_actions nd ≠ [] →
     ∃ action t' nd',
       expand_leaf board t node state g =
         Ok (t', length t, next_state board state action, (draw g).2) ∧
       (∃ l1 l2, untried_actions nd = l1 ++ [action] ++ l2 ∧
                 untried_actions nd' = l1 ++ l2) ∧
       length (untried_actions nd') + 1 = length (untried_actions nd) ∧
       length t' = S (length t) ∧
       t' !! node = Some nd' ∧
       t' !! length t =
         Some (MCTSNode_init (Some node) (Some action)
                 (legal_actions board (next_state board state action))) ∧
       dict_get (child_nodes nd') action = Some (length t) ∧
       (∀ b, b ≠ action →
          dict_get (child_nodes nd') b = dict_get (child_nodes nd) b) ∧
       (dict_get (child_nodes nd) action = None →
          child_nodes nd' = child_nodes nd ++ [(action, length t)]) ∧
       parent nd' = parent nd ∧ parent_action nd' = parent_action nd ∧
       wins nd' = wins nd ∧ visits nd' = visits nd ∧
       (∀ m, m ≠ node → m < length t → t' !! m = t !! m)).
Proof.
  intros Hnd. split; [by apply expand_leaf_tried|].
  intros Hne.
  destruct (expand_leaf_untried board t node nd state g Hnd Hne)
    as (action & l1 & l2 & Hidx & Hl & Hl1 & Hexp).
  assert (node < length t) as Hlt by (by eapply lookup_lt_Some).
  eexists action, _, (with_expansion nd (l1 ++ l2) action (length t)).
  split; [exact Hexp|]. split_and!.
  - by exists l1, l2.
  - cbn [untried_actions with_expansion]. rewrite Hl, !length_app. simpl. lia.
  - rewrite length_app, length_insert. simpl. lia.
  - rewrite lookup_app_l by (by rewrite length_insert).
    by apply list_lookup_insert_eq.
  - rewrite lookup_app_r by (by rewrite length_insert).
    by rewrite length_insert, Nat.sub_diag.
  - apply dict_get_set_eq.
  - intros b Hb. by apply dict_get_set_ne.
  - apply dict_set_new.
  - done.
  - done.
  - done.
  - done.
  - intros m Hm Hmt. rewrite lookup_app_l by (by rewrite length_insert).
    by apply list_lookup_insert_ne.
Qed.

Lemma expand_leaf_effect_witness :
  ∃ action t',
    expand_leaf Takeaway.board
      [MCTSNode_init None None [1; 2]] 0 (3, 1) Takeaway.zeros =
      Ok (t', 1, next_state Takeaway.board (3, 1) action, (draw Takeaway.zeros).2) ∧
    length t' = 2.
Proof.
  destruct (expand_leaf_effect Takeaway.board [MCTSNode_init None None [1; 2]]
              0 (MCTSNode_init None None [1; 2]) (3, 1) Takeaway.zeros eq_refl)
    as [_ Hexp].
  destruct Hexp as (action & t' & nd' & Hexp & _ & _ & Hlen & _); [done|].
  exists action, t'. split; [exact Hexp | exact Hlen].
Defined.

(** C7 (backpropagation, [backpropagate] of both files).  From a node of an
    arena in which every node is allocated after its parent, with fuel above
    the node's index, [backpropagate] returns; [visits] grows by exactly 1 at
    the node and at every node on its [parent] chain, which ends at a node
    without parent (the root); [wins] grows by exactly 1 at those same nodes
    when the outcome is a win and not at all otherwise; the outcome is the
    one boolean for the whole path; every node off the path, and every other
    field, is unchanged. *)
Theorem backpropagate_path {Action : Type} (t : Tree Action) (n fuel : nat)
    (won : bool) :
  parents_below t → n < length t → n < fuel →
  ∃ t', backpropagate fuel t (Some n) won = Ok t' ∧
        length t' = length t ∧
        on_path t n n ∧
        (∃ r rn, on_path t n r ∧ t !! r = Some rn ∧ parent rn = None) ∧
        ∀ m nd, t !! m = Some nd →
          (on_path t n m →
             ∃ nd', t' !! m = Some nd' ∧
               visits nd' = visits nd + 1 ∧
               wins nd' = (if won then wins nd + 1 else wins nd) ∧
               parent nd' = parent nd ∧ parent_action nd' = parent_action nd ∧
               child_nodes nd' = child_nodes nd ∧
               untried_actions nd' = untried_actions nd) ∧
          (¬ on_path t n m → t' !! m = Some nd).
Proof.
  intros Hp Hn Hfuel.
  destruct (backpropagate_spec fuel t n won Hp Hn Hfuel) as (t' & Hrun & Hlen & Hspec).
  exists t'. split_and!; [done | done | constructor | by apply on_path_root |].
  intros m nd Hm. destruct (Hspec m nd Hm) as [[Hpath Hin]|[Hpath Hout]].
  - split; [|done]. intros _. exists (bump won nd). by rewrite Hin.
  - split; [done|]. by intros _.
Qed.

Lemma backpropagate_path_witness :
  ∃ t', backpropagate 3 Takeaway.path_tree (Some 2) true = Ok t' ∧
        length t' = 3.
Proof.
  destruct (backpropagate_path Takeaway.path_tree 2 3 true) as (t' & Hrun & Hlen & _).
  - intros [|[|[|i]]] nd p; simpl; intros [= <-]; simpl; intros [= <-]; lia.
  - simpl. lia.
  - lia.
  - exists t'. split; [exact Hrun | exact Hlen].
Defined.

(** C8 (final action extraction, [get_best_action] of both files).  When the
    root has no children the result is [None]; otherwise it is an action of
    the root whose child has at least as many visits as the child of any
    other action.  On the tree [fan_tree] the children have win rates 9/10,
    11/30 and 30/60 and visits 10, 30 and 60: the action returned is the
    third, the most visited, not the first, which has the best win rate. *)
Theorem get_best_action_most_visited :
  (∀ {Action : Type} `{EqDecision Action} (t : Tree Action) (root : nat)
     (r : MCTSNode Action),
     t !! root = Some r →
     (child_nodes r = [] → get_best_action t root = Ok None) ∧
     (child_nodes r ≠ [] →
      (∀ a c, (a, c) ∈ child_nodes r → is_Some (t !! c)) →
      ∃ a c cn,
        get_best_action t root = Ok (Some a) ∧
        dict_get (child_nodes r) a = Some c ∧ t !! c = Some cn ∧
        ∀ b c' cn', dict_get (child_nodes r) b = Some c' → t !! c' = Some cn' →
          visits cn' ≤ visits cn)) ∧
  get_best_action Takeaway.fan_tree 0 = Ok (Some 3).
Proof.
  split; [|reflexivity].
  intros Action ? t root r Hr. split.
  - by apply get_best_action_childless.
  - by apply get_best_action_max.
Qed.

Lemma get_best_action_most_visited_witness :
  ∃ a c cn,
    get_best_action Takeaway.fan_tree 0 = Ok (Some a) ∧
    dict_get [(1, 1); (2, 2); (3, 3)] a = Some c ∧
    Takeaway.fan_tree !! c = Some cn ∧ 60 ≤ visits cn.
Proof.
  destruct (proj1 get_best_action_most_visited nat _ Takeaway.fan_tree 0
              (Takeaway.fan_root 50 100) eq_refl) as [_ Hmax].
  destruct Hmax as (a & c & cn & Hrun & Hc & Hcn & Hmost).
  - discriminate.
  - intros a c Hin. simpl in Hin.
    repeat (apply elem_of_cons in Hin as [[= -> ->]|Hin]; [by eexists|]).
    by apply elem_of_nil in Hin.
  - exists a, c, cn. split_and!; [exact Hrun | exact Hc | exact Hcn |].
    exact (Hmost 3 3 (Takeaway.leaf 3 30 60) eq_refl eq_refl).
Defined.

(** On a finished game both bots return no action, and every iteration has
    called [rollout]: 100 calls for the confidence-bound bot, 1000 for the
    roulette-wheel bot.  On the board that lists moves at a finished game,
    the bot returns one of them. *)
Lemma think_terminal_root_calls_rollout :
  is_ended Takeaway.board (0, 1) = true ∧
  (∃ w, Vanilla.think 0 Takeaway.board (0, 1) Takeaway.zeros = Ok (None, w) ∧
        w_rollouts w = 100) ∧
  (∃ w, Modified.think (num := Q) 0 Takeaway.board (0, 1) Takeaway.zeros =
          Ok (None, w) ∧
        w_rollouts w = 1000) ∧
  is_ended Takeaway.lenient_board (0, 1) = true ∧
  (∃ w, Modified.think (num := Q) 0 Takeaway.lenient_board (0, 1) Takeaway.zeros =
          Ok (Some 1, w)).
Proof.
  split; [reflexivity|]. split_and!.
  - eexists. split.
    + apply (think_with_terminal Vanilla.traverse Vanilla.num_nodes 0 Takeaway.board
               (0, 1) (λ i, if i =? 1 then (-1)%Z else 1%Z));
        [reflexivity..|].
      intros t g. by apply vanilla_traverse_ended.
    + reflexivity.
  - eexists. split.
    + apply (think_with_terminal Modified.traverse Modified.num_nodes 0 Takeaway.board
               (0, 1) (λ i, if i =? 1 then (-1)%Z else 1%Z));
        [reflexivity..|].
      intros t g. by apply modified_traverse_ended.
    + reflexivity.
  - reflexivity.
  - eexists. vm_compute. reflexivity.
Qed.

(** C9, as the code has it ([think] of both files).  On a root state that is
    terminal, has no legal action and has its points, [think] returns no
    action.  Each of its iterations calls [rollout] (100 calls in
    [mcts_vanilla.py], 1000 in [mcts_modified.py]), which returns the state at
    once: no move is played and nothing is drawn from the random source.
    The tree is left with the root alone, visited once per iteration. *)
Theorem think_terminal_root {State Action num : Type} `{EqDecision Action}
    `{Arith num} (board : Board State Action) (current_state : State)
    (horizon : nat) (g : Rng) (outcome : nat → Z) :
  is_ended board current_state = true →
  legal_actions board current_state = [] →
  points_values board current_state = Some outcome →
  Vanilla.think horizon board current_state g =
    Ok (None,
        {| w_tree :=
             [mkNode None None [] []
                (if (outcome (current_player board current_state) =? 1)%Z
                 then 100 else 0) 100];
           w_rng := g; w_rollouts := 100 |}) ∧
  Modified.think (num := num) horizon board current_state g =
    Ok (None,
        {| w_tree :=
             [mkNode None None [] []
                (if (outcome (current_player board current_state) =? 1)%Z
                 then 1000 else 0) 1000];
           w_rng := g; w_rollouts := 1000 |}).
Proof.
  intros Hend Hlegal Hscore. split.
  - apply (think_with_terminal Vanilla.traverse Vanilla.num_nodes); try done.
    intros t g'. by apply vanilla_traverse_ended.
  - apply (think_with_terminal Modified.traverse Modified.num_nodes); try done.
    intros t g'. by apply modified_traverse_ended.
Qed.

Lemma think_terminal_root_witness :
  ∃ w, Modified.think (num := Q) 3 Takeaway.board (0, 2) Takeaway.zeros =
         Ok (None, w) ∧
       w_rollouts w = 1000 ∧ w_rng w = Takeaway.zeros.
Proof.
  eexists. split.
  - apply (think_terminal_root (num := Q) Takeaway.board (0, 2) 3 Takeaway.zeros
             (λ i, if i =? 2 then (-1)%Z else 1%Z)); reflexivity.
  - split; reflexivity.
Defined.

(** C10 (no fall-through, [roulette_wheel_selection] as [traverse_nodes] of
    [mcts_modified.py] calls it), in exact arithmetic.  On a non-empty mapping
    whose probabilities sum to 1 and a threshold below 1, the loop returns a
    key of the mapping.  In the descent, on a node with a visited child, the
    probabilities are defined, non-empty and of mass 1, the threshold drawn is
    below 1, and the action selected is a key of [child_nodes]; the branch
    that returns no action is not reached. *)
Theorem roulette_returns_key {Action : Type} `{EqDecision Action} :
  (∀ (probabilities : list (Action * Q)) (threshold : Q),
     probabilities ≠ [] →
     (cumulative_mass probabilities (length probabilities) == 1)%Q →
     (0 <= threshold)%Q ∧ (threshold < 1)%Q →
     ∃ a, Modified.roulette_scan threshold num_zero probabilities = Some a ∧
          a ∈ keys probabilities) ∧
  (∀ (t : Tree Action) (nd : MCTSNode Action) (g : Rng),
     some_visited t nd →
     ∃ total probabilities a c,
       Modified.total_visits t nd = Ok total ∧
       Modified.probabilities_of (num := Q) t nd total = Ok probabilities ∧
       (cumulative_mass probabilities (length probabilities) == 1)%Q ∧
       Modified.roulette_wheel_selection probabilities g = (Some a, λ i, g (S i)) ∧
       dict_get (child_nodes nd) a = Some c).
Proof.
  split.
  - intros probabilities threshold Hne Hmass [_ Hlt].
    by apply roulette_scan_total.
  - apply roulette_in_descent.
Qed.

Lemma roulette_returns_key_witness :
  ∃ a, Modified.roulette_scan (95 # 100)%Q num_zero Takeaway.fan_probabilities =
         Some a ∧
       a ∈ keys Takeaway.fan_probabilities.
Proof.
  apply (proj1 roulette_returns_key Takeaway.fan_probabilities (95 # 100)%Q).
  - discriminate.
  - reflexivity.
  - split; [by vm_compute | reflexivity].
Defined.

(** * Further properties *)

(** ** Playouts *)

Section Playouts.
Context {State Action : Type} `{EqDecision Action}.
Implicit Types (board : Board State Action) (state : State).

Lemma choice_inv {A} (seq : list A) (g : Rng) (a : A) (g' : Rng) :
  choice seq g = Ok (a, g') → a ∈ seq ∧ g' = (draw g).2.
Proof.
  destruct seq as [|x seq]; [done|]. intros Hch.
  destruct (choice_Ok (x :: seq) g) as (b & Hidx & Hch'); [done|].
  rewrite Hch' in Hch. injection Hch as -> <-.
  split; [by eapply list_elem_of_lookup_2 | done].
Qed.

Lemma rollout_step board (fuel : nat) state (g : Rng) :
  is_ended board state = false →
  rollout (S fuel) board state g =
    '(action, g') ← choice (legal_actions board state) g;
    rollout fuel board (next_state board state action) g'.
Proof. intros Hend. simpl. by rewrite Hend. Qed.

Lemma played_trans board s1 s2 s3 :
  played board s1 s2 → played board s2 s3 → played board s1 s3.
Proof.
  induction 1 as [|s a s' Hend Ha _ IH]; [done|]. intros H23.
  eapply played_move; eauto.
Qed.

Lemma rollout_outcomes_aux board (fuel : nat) : ∀ state (g : Rng),
  match rollout fuel board state g with
  | Ok (state', _) => played board state state' ∧ is_ended board state' = true
  | Raise e =>
      e = IndexError ∧
      ∃ state', played board state state' ∧ is_ended board state' = false ∧
                legal_actions board state' = []
  | IllFormed => False
  | OutOfFuel => ∃ state', played board state state' ∧ is_ended board state' = false
  end.
Proof.
  induction fuel as [|fuel IH]; intros state g.
  - simpl. destruct (is_ended board state) eqn:Hend.
    + split; [constructor | done].
    + exists state. split; [constructor | done].
  - destruct (is_ended board state) eqn:Hend.
    + simpl. rewrite Hend. split; [constructor | done].
    + rewrite rollout_step by done.
      destruct (decide (legal_actions board state = [])) as [Hnil|Hne].
      * rewrite Hnil. simpl. split; [done|]. exists state.
        split_and!; [constructor | done..].
      * destruct (choice_Ok (legal_actions board state) g Hne) as (a & Hidx & ->).
        apply list_elem_of_lookup_2 in Hidx. cbn [mbind result_bind].
        specialize (IH (next_state board state a) (draw g).2).
        destruct (rollout fuel board (next_state board state a) (draw g).2)
          as [[state' g']|e| |].
        -- destruct IH as [Hplayed Hend']. split; [|done].
           by eapply played_move.
        -- destruct IH as (-> & state' & Hplayed & Hend' & Hnil).
           split; [done|]. exists state'. split_and!; [|done..].
           by eapply played_move.
        -- done.
        -- destruct IH as (state' & Hplayed & Hend').
           exists state'. split; [|done]. by eapply played_move.
Qed.

(** With fuel for the rank of the state, a playout of a ranked game
    returns. *)
Lemma rollout_ranked board (rank : State → nat) (fuel : nat) :
  ranked board rank →
  ∀ state (g : Rng), rank state ≤ fuel → is_Ok (rollout fuel board state g).
Proof.
  intros [Hmove Hlegal]. induction fuel as [|fuel IH]; intros state g Hrank.
  - simpl. destruct (is_ended board state) eqn:Hend; [by eexists|].
    destruct (legal_actions board state) as [|a l] eqn:Hl; [by apply Hlegal in Hl|].
    pose proof (Hmove state a Hend) as Hlt. rewrite Hl in Hlt.
    specialize (Hlt ltac:(left)). lia.
  - destruct (is_ended board state) eqn:Hend.
    + simpl. rewrite Hend. by eexists.
    + rewrite rollout_step by done.
      destruct (choice_Ok (legal_actions board state) g (Hlegal state Hend))
        as (a & Hidx & ->).
      apply list_elem_of_lookup_2 in Hidx. cbn [mbind result_bind].
      apply IH. pose proof (Hmove state a Hend Hidx). lia.
Qed.
End Playouts.

(** ** The tree between iterations *)

Section SearchInvariant.
Context {State Action : Type} `{EqDecision Action}.
Implicit Types (board : Board State Action) (t : Tree Action)
  (nd : MCTSNode Action) (state : State).

Lemma search_inv_initial (actions : list Action) :
  search_inv [MCTSNode_init None None actions].
Proof.
  split.
  - apply tree_inv_initial.
  - intros [|i] nd; simpl; [done|done].
  - intros [|i] nd p; simpl; [by intros [= <-]|done].
  - intros [|i] nd; simpl; [done|done].
Qed.

(** After an expansion: the links are as [search_inv] wants them, every node
    but the root and the node returned has been visited, the tree has grown
    by at most one node, and the root has the visits it had. *)
Lemma expand_leaf_sinv board t node state g t1 n1 s1 g1 :
  search_inv t →
  expand_leaf board t node state g = Ok (t1, n1, s1, g1) →
  rooted t1 ∧ acted t1 ∧
  (∀ i x, t1 !! i = Some x → i ≠ root_node → i ≠ n1 → visits x ≠ 0) ∧
  length t ≤ length t1 ≤ S (length t) ∧
  (∀ r, t !! root_node = Some r →
        ∃ r', t1 !! root_node = Some r' ∧ visits r' = visits r).
Proof.
  intros [Hinv Hroot Hact Hvis] Hexp.
  assert (∃ nd, t !! node = Some nd) as [nd Hnd].
  { unfold expand_leaf in Hexp. inv_Ok Hexp. apply node_at_Ok in Ha. eauto. }
  pose proof (lookup_lt_Some _ _ _ Hnd) as Hlt.
  destruct (decide (untried_actions nd = [])) as [Hnil|Hne].
  { rewrite (expand_leaf_tried board t node nd state g Hnd Hnil) in Hexp.
    injection Hexp as <- <- <- <-. split_and!; eauto. }
  destruct (expand_leaf_untried board t node nd state g Hnd Hne)
    as (action & l1 & l2 & _ & _ & _ & Heq).
  rewrite Heq in Hexp. injection Hexp as <- <- <- <-.
  set (cn := MCTSNode_init _ _ _).
  split_and!.
  - intros i x Hi Hpar.
    destruct (expanded_lookup _ _ _ _ _ _ _ Hnd Hi) as [[-> ->]|[[-> ->]|[_ Hold]]].
    + done.
    + by apply (Hroot node nd).
    + by apply (Hroot i x).
  - intros i x p Hi Hpar.
    destruct (expanded_lookup _ _ _ _ _ _ _ Hnd Hi) as [[-> ->]|[[-> ->]|[_ Hold]]].
    + by eexists.
    + by apply (Hact node nd p).
    + by apply (Hact i x p).
  - intros i x Hi H0 Hn1.
    destruct (expanded_lookup _ _ _ _ _ _ _ Hnd Hi) as [[-> ->]|[[-> ->]|[_ Hold]]].
    + done.
    + by apply (Hvis node nd).
    + by apply (Hvis i x).
  - rewrite length_app, length_insert. simpl. lia.
  - rewrite length_app, length_insert. simpl. lia.
  - intros r Hr.
    destruct (expanded_old t node nd (l1 ++ l2) action cn root_node r Hnd Hr)
      as (r' & Hr' & _ & _ & Hv & _).
    eauto.
Qed.

(** Under [rooted], the [parent] chain of every node ends at the root. *)
Lemma on_path_to_root t n :
  parents_below t → rooted t → n < length t → on_path t n root_node.
Proof.
  intros Hp Hroot Hn.
  destruct (on_path_root t n Hp Hn) as (r & rn & Hpath & Hr & Hnone).
  by rewrite <- (Hroot r rn Hr Hnone).
Qed.

Lemma backpropagate_sinv t n won t' :
  tree_inv t → rooted t → acted t →
  (∀ i x, t !! i = Some x → i ≠ root_node → i ≠ n → visits x ≠ 0) →
  n < length t →
  backpropagate (length t) t (Some n) won = Ok t' →
  search_inv t' ∧ length t' = length t ∧
  (∀ r, t !! root_node = Some r →
        ∃ r', t' !! root_node = Some r' ∧ visits r' = S (visits r)).
Proof.
  intros Hinv Hroot Hact Hvis Hn Hrun.
  pose proof (backpropagate_inv t n won t' Hinv Hn Hrun) as Hinv'.
  destruct (backpropagated_lookup t n won t' (inv_parents t Hinv) Hn Hrun)
    as [Hlen Hlook].
  split_and!; [split|done|].
  - done.
  - intros i x Hi Hpar. destruct (Hlook i x Hi) as (nd & Hnd & [[_ ->]|[_ ->]]);
      by apply (Hroot i nd).
  - intros i x p Hi Hpar. destruct (Hlook i x Hi) as (nd & Hnd & [[_ ->]|[_ ->]]);
      by apply (Hact i nd p).
  - intros i x Hi H0. destruct (Hlook i x Hi) as (nd & Hnd & [[_ ->]|[Hpath ->]]).
    + simpl. lia.
    + destruct (decide (i = n)) as [->|Hne]; [|by apply (Hvis i nd)].
      destruct Hpath. constructor.
  - intros r Hr.
    assert (root_node < length t') as Hlt
      by (rewrite Hlen; by eapply lookup_lt_Some).
    destruct (lookup_lt_is_Some_2 t' root_node Hlt) as [r' Hr'].
    exists r'. split; [done|].
    destruct (Hlook root_node r' Hr') as (nd & Hnd & [[_ ->]|[Hpath ->]]).
    + assert (nd = r) as -> by congruence. simpl. lia.
    + destruct Hpath. apply on_path_to_root; [apply Hinv | done..].
Qed.

Section Loop.
Variable traverse :
  Tree Action → Board State Action → State → nat → Rng → result (nat * State * Rng).
Variable horizon : nat.

Lemma iteration_sinv board state bot_identity (w w' : World Action) :
  search_inv (w_tree w) →
  iteration traverse horizon board state bot_identity w = Ok w' →
  search_inv (w_tree w') ∧
  length (w_tree w) ≤ length (w_tree w') ≤ S (length (w_tree w)) ∧
  (∀ r, w_tree w !! root_node = Some r →
        ∃ r', w_tree w' !! root_node = Some r' ∧ visits r' = S (visits r)).
Proof.
  intros Hsinv Hit. unfold iteration in Hit.
  apply bind_Ok in Hit as ([[node st] g1] & Htr & Hit).
  apply bind_Ok in Hit as ([[[t1 node1] st1] g2] & Hexp & Hit).
  apply bind_Ok in Hit as ([result_state g3] & Hroll & Hit).
  apply bind_Ok in Hit as (won & Hwin & Hit).
  apply bind_Ok in Hit as (t2 & Hback & Hit).
  injection Hit as <-. cbn [w_tree].
  destruct (expand_leaf_inv _ _ _ _ _ _ _ _ _ (sinv_tree _ Hsinv) Hexp) as [Hinv1 Hn1].
  destruct (expand_leaf_sinv _ _ _ _ _ _ _ _ _ Hsinv Hexp)
    as (Hroot1 & Hact1 & Hvis1 & Hlen1 & Hrv1).
  destruct (backpropagate_sinv t1 node1 won t2 Hinv1 Hroot1 Hact1 Hvis1 Hn1 Hback)
    as (Hsinv2 & Hlen2 & Hrv2).
  split_and!; [done | lia | lia |].
  intros r Hr. destruct (Hrv1 r Hr) as (r1 & Hr1 & Hv1).
  destruct (Hrv2 r1 Hr1) as (r2 & Hr2 & Hv2). exists r2. split; [done | lia].
Qed.

Lemma search_loop_sinv (k : nat) : ∀ board state bot_identity (w w' : World Action),
  search_inv (w_tree w) →
  search_loop traverse horizon k board state bot_identity w = Ok w' →
  search_inv (w_tree w') ∧
  length (w_tree w) ≤ length (w_tree w') ≤ k + length (w_tree w) ∧
  (∀ r, w_tree w !! root_node = Some r →
        ∃ r', w_tree w' !! root_node = Some r' ∧ visits r' = k + visits r).
Proof.
  induction k as [|k IH]; intros board state bot_identity w w' Hinv Hrun;
    simpl in Hrun.
  - injection Hrun as <-. split_and!; [done | lia | lia | eauto].
  - apply bind_Ok in Hrun as (w1 & Hit & Hrun).
    destruct (iteration_sinv _ _ _ _ _ Hinv Hit) as (Hinv1 & Hlen1 & Hrv1).
    destruct (IH _ _ _ _ _ Hinv1 Hrun) as (Hinv' & Hlen' & Hrv').
    split_and!; [done | lia | lia |].
    intros r Hr. destruct (Hrv1 r Hr) as (r1 & Hr1 & Hv1).
    destruct (Hrv' r1 Hr1) as (r' & Hr' & Hv'). exists r'. split; [done | lia].
Qed.
End Loop.
End SearchInvariant.

(** ** What a run can fail on *)

Lemma fault_bind {A B} (m : result A) (f : A → result B) :
  fault_of_board m → (∀ a, m = Ok a → fault_of_board (f a)) →
  fault_of_board (m ≫= f).
Proof. destruct m; simpl; auto. Qed.

Section Faults.
Context {State Action : Type} `{EqDecision Action}.
Variable traverse :
  Tree Action → Board State Action → State → nat → Rng → result (nat * State * Rng).
Variables (board : Board State Action) (current_state : State).
Variables (horizon bot_identity : nat).

(** The descent returns a node of the tree. *)
Hypothesis traverse_returns : ∀ (t : Tree Action) (g : Rng),
  tree_inv t →
  ∃ node state g',
    traverse t board current_state bot_identity g = Ok (node, state, g') ∧
    node < length t ∧ reachable board current_state state.

Lemma rollout_fault (state : State) (g : Rng) :
  fault_of_board (rollout horizon board state g).
Proof.
  pose proof (rollout_outcomes_aux board horizon state g) as Hout.
  destruct (rollout horizon board state g) as [[s' g']|e| |]; simpl; try done.
  destruct Hout as [-> _]. by left.
Qed.

Lemma iteration_fault (w : World Action) :
  tree_inv (w_tree w) →
  fault_of_board (iteration traverse horizon board current_state bot_identity w).
Proof using traverse_returns.
  intros Hinv. unfold iteration.
  destruct (traverse_returns (w_tree w) (w_rng w) Hinv)
    as (node & state & g1 & -> & Hnode & _). cbn [mbind result_bind].
  destruct (expand_leaf_returns board (w_tree w) node state g1 Hnode)
    as (t1 & node1 & state1 & g2 & Hexp & _).
  rewrite Hexp. cbn [mbind result_bind].
  destruct (expand_leaf_inv _ _ _ _ _ _ _ _ _ Hinv Hexp) as [Hinv1 Hnode1].
  apply fault_bind; [apply rollout_fault|]. intros [result_state g3] Hroll.
  unfold is_win. destruct (points_values board result_state) as [outcome|];
    [|by right].
  cbn [mbind result_bind].
  destruct (backpropagate_spec (length t1) t1 node1
              (outcome bot_identity =? 1)%Z (inv_parents t1 Hinv1) Hnode1 Hnode1)
    as (t2 & -> & _).
  done.
Qed.

Lemma search_loop_fault (k : nat) : ∀ w : World Action,
  tree_inv (w_tree w) →
  fault_of_board
    (search_loop traverse horizon k board current_state bot_identity w).
Proof using traverse_returns.
  induction k as [|k IH]; intros w Hinv; cbn [search_loop]; [done|].
  apply fault_bind; [by apply iteration_fault|]. intros w1 Hit.
  apply IH. by destruct (iteration_inv _ _ _ _ _ _ _ Hinv Hit).
Qed.
End Faults.

Lemma think_with_fault {State Action : Type} `{EqDecision Action}
    (traverse : Tree Action → Board State Action → State → nat → Rng →
                result (nat * State * Rng))
    (num_nodes horizon : nat) (board : Board State Action)
    (current_state : State) (g : Rng) :
  (∀ (t : Tree Action) (g : Rng), tree_inv t →
     ∃ node state g',
       traverse t board current_state (current_player board current_state) g =
         Ok (node, state, g') ∧
       node < length t ∧ reachable board current_state state) →
  fault_of_board (think_with traverse num_nodes horizon board current_state g).
Proof.
  intros Htrav. unfold think_with.
  apply fault_bind.
  - apply search_loop_fault; [done | apply tree_inv_initial].
  - intros w Hrun.
    apply search_loop_inv in Hrun as [Hinv _]; [|apply tree_inv_initial].
    destruct (get_best_action_returns (w_tree w) Hinv) as [a ->]. done.
Qed.

(** ** The state of the game at a node *)

Section StateAt.
Context {State Action : Type} `{EqDecision Action}.
Variables (board : Board State Action) (s0 : State).
Implicit Types (t : Tree Action) (nd : MCTSNode Action) (state : State).

Lemma state_at_fun t n s1 : state_at board s0 t n s1 →
  ∀ s2, state_at board s0 t n s2 → s1 = s2.
Proof.
  induction 1 as [n nd Hn Hpar | n nd p a s Hn Hpar Hact _ IH]; intros s2 H2.
  - inversion H2; subst; [done | congruence].
  - inversion H2 as [|? nd' p' a' s' Hn' Hpar' Hact' Hs']; subst; [congruence|].
    assert (nd' = nd) as -> by congruence.
    assert (p' = p) as -> by congruence. assert (a' = a) as -> by congruence.
    by rewrite (IH s').
Qed.

Lemma state_at_lt t n s : state_at board s0 t n s → n < length t.
Proof. destruct 1; by eapply lookup_lt_Some. Qed.

(** The state at a node depends on the links below it only. *)
Lemma state_at_ext t t' n s :
  (∀ i nd, t !! i = Some nd →
     ∃ nd', t' !! i = Some nd' ∧ parent nd' = parent nd ∧
            parent_action nd' = parent_action nd) →
  state_at board s0 t n s → state_at board s0 t' n s.
Proof.
  intros Hext. induction 1 as [n nd Hn Hpar | n nd p a s Hn Hpar Hact _ IH].
  - destruct (Hext n nd Hn) as (nd' & Hn' & Hpar' & _).
    apply (state_at_root board s0 t' n nd'); congruence.
  - destruct (Hext n nd Hn) as (nd' & Hn' & Hpar' & Hact').
    apply (state_at_child board s0 t' n nd' p a s); congruence.
Qed.

(** Every node of the tree has a state. *)
Lemma state_at_exists t n :
  parents_below t → acted t → n < length t → ∃ s, state_at board s0 t n s.
Proof.
  intros Hp Hact. induction n as [n IH] using lt_wf_ind. intros Hn.
  destruct (lookup_lt_is_Some_2 t n Hn) as [nd Hnd].
  destruct (parent nd) as [p|] eqn:Hpar.
  - destruct (Hact n nd p Hnd Hpar) as [a Ha].
    pose proof (Hp n nd p Hnd Hpar) as Hlt.
    destruct (IH p Hlt) as [s Hs]; [lia|].
    exists (next_state board s a). by eapply state_at_child.
  - exists s0. by eapply state_at_root.
Qed.

(** *** Across an expansion *)

Lemma state_at_expanded t node nd rest action cn n s :
  t !! node = Some nd →
  state_at board s0 t n s →
  state_at board s0
    (<[node := with_expansion nd rest action (length t)]> t ++ [cn]) n s.
Proof.
  intros Hnd. apply state_at_ext. intros i x Hi.
  destruct (expanded_old t node nd rest action cn i x Hnd Hi)
    as (x' & Hx' & Hpar & Hact & _).
  eauto.
Qed.

Lemma state_at_expanded_old t node nd rest action cn n s :
  parents_below t → t !! node = Some nd →
  state_at board s0
    (<[node := with_expansion nd rest action (length t)]> t ++ [cn]) n s →
  n < length t → state_at board s0 t n s.
Proof.
  intros Hp Hnd.
  induction 1 as [n x Hn Hpar | n x p a s Hn Hpar Hact _ IH]; intros Hlt.
  - destruct (expanded_lookup _ _ _ _ _ _ _ Hnd Hn) as [[-> ->]|[[-> ->]|[_ Hold]]].
    + lia.
    + by apply (state_at_root board s0 t node nd).
    + by apply (state_at_root board s0 t n x).
  - destruct (expanded_lookup _ _ _ _ _ _ _ Hnd Hn) as [[-> ->]|[[-> ->]|[_ Hold]]].
    + lia.
    + pose proof (Hp node nd p Hnd Hpar).
      apply (state_at_child board s0 t node nd p a s); [done..|]. apply IH. lia.
    + pose proof (Hp n x p Hold Hpar).
      apply (state_at_child board s0 t n x p a s); [done..|]. apply IH. lia.
Qed.

(** The state at the node an expansion adds. *)
Lemma state_at_expanded_new t node nd rest action l state s :
  parents_below t → t !! node = Some nd →
  state_at board s0 t node state →
  state_at board s0
    (<[node := with_expansion nd rest action (length t)]> t ++
       [MCTSNode_init (Some node) (Some action) l]) (length t) s →
  s = next_state board state action.
Proof.
  intros Hp Hnd Hstate Hnew.
  pose proof (lookup_lt_Some _ _ _ Hnd) as Hlt.
  inversion Hnew as [n x Hn Hpar | n x p a s' Hn Hpar Hact Hs']; subst.
  - destruct (expanded_lookup _ _ _ _ _ _ _ Hnd Hn) as [[_ ->]|[[? _]|[_ Hold]]].
    + done.
    + lia.
    + apply lookup_lt_Some in Hold. lia.
  - destruct (expanded_lookup _ _ _ _ _ _ _ Hnd Hn) as [[_ ->]|[[? _]|[_ Hold]]].
    + simpl in Hpar, Hact. injection Hpar as <-. injection Hact as <-.
      apply state_at_expanded_old in Hs'; [|done..].
      by rewrite (state_at_fun t node s' Hs' state Hstate).
    + lia.
    + apply lookup_lt_Some in Hold. lia.
Qed.

(** *** Across a backpropagation *)

Lemma state_at_backpropagated t n0 won t' n s :
  parents_below t → n0 < length t →
  backpropagate (length t) t (Some n0) won = Ok t' →
  state_at board s0 t n s ↔ state_at board s0 t' n s.
Proof.
  intros Hp Hn0 Hrun.
  destruct (backpropagate_spec (length t) t n0 won Hp Hn0 Hn0)
    as (t'' & Hrun' & Hlen & Hspec).
  assert (t'' = t') as -> by congruence.
  destruct (backpropagated_lookup t n0 won t' Hp Hn0 Hrun) as [_ Hlook].
  split; apply state_at_ext.
  - intros i nd Hi. destruct (Hspec i nd Hi) as [[_ Hin]|[_ Hout]]; eauto.
  - intros i x Hi. destruct (Hlook i x Hi) as (nd & Hnd & [[_ ->]|[_ ->]]); eauto.
Qed.
End StateAt.

(** ** The descent keeps the state in step with the node *)

Section DescentState.
Context {State Action : Type} `{EqDecision Action}.
Variables (board : Board State Action) (s0 : State).
Implicit Types (t : Tree Action) (nd : MCTSNode Action) (state : State).

Lemma vanilla_descent_state t bot_identity (fuel : nat) :
  tree_inv t →
  ∀ node state node' state',
    state_at board s0 t node state →
    Vanilla.traverse_nodes fuel t node board state bot_identity = Ok (node', state') →
    state_at board s0 t node' state'.
Proof.
  intros Hinv.
  induction fuel as [|fuel IH]; intros node state node' state' Hstate Hrun.
  all: simpl in Hrun; apply bind_Ok in Hrun as (nd & Hnd & Hrun);
    apply node_at_Ok in Hnd.
  all: destruct (is_ended board state) eqn:Hend; simpl in Hrun;
    [by injection Hrun as <- <-|].
  all: destruct (is_nil (untried_actions nd)) eqn:Hnil; simpl in Hrun;
    [|by injection Hrun as <- <-].
  all: apply bind_Ok in Hrun as ([|] & Hnv & Hrun);
    [by injection Hrun as <- <-|].
  - done.
  - apply bind_Ok in Hrun as (c & Hsel & Hrun).
    apply bind_Ok in Hrun as (cn & Hcn & Hrun). apply node_at_Ok in Hcn.
    apply bind_Ok in Hrun as (action & Hact & Hrun). apply required_Ok in Hact.
    apply select_child_greatest in Hsel as [Hc _].
    destruct (child_value t node nd c Hinv Hnd Hc) as (cn' & Hcn' & Hpar).
    assert (cn' = cn) as -> by congruence.
    apply (IH c (next_state board state action)); [|done].
    by apply (state_at_child board s0 t c cn node action state).
Qed.

Lemma modified_descent_state {num : Type} `{Arith num} t bot_identity (fuel : nat) :
  tree_inv t →
  ∀ node state (g : Rng) node' state' (g' : Rng),
    state_at board s0 t node state →
    Modified.traverse_nodes (num := num) fuel t node board state bot_identity g =
      Ok (node', state', g') →
    state_at board s0 t node' state'.
Proof.
  intros Hinv.
  induction fuel as [|fuel IH]; intros node state g node' state' g' Hstate Hrun.
  all: simpl in Hrun; apply bind_Ok in Hrun as (nd & Hnd & Hrun);
    apply node_at_Ok in Hnd.
  all: destruct (is_ended board state) eqn:Hend; simpl in Hrun;
    [by injection Hrun as <- <- <-|].
  all: destruct (is_nil (untried_actions nd)) eqn:Hnil; simpl in Hrun;
    [|by injection Hrun as <- <- <-].
  all: apply bind_Ok in Hrun as ([|] & Hnv & Hrun);
    [by injection Hrun as <- <- <-|].
  - done.
  - apply bind_Ok in Hrun as (total & _ & Hrun).
    apply bind_Ok in Hrun as (probabilities & _ & Hrun).
    apply bind_Ok in Hrun as (c & Hsel & Hrun).
    apply bind_Ok in Hrun as (cn & Hcn & Hrun). apply node_at_Ok in Hcn.
    apply bind_Ok in Hrun as (action & Hact & Hrun). apply required_Ok in Hact.
    destruct (Modified.roulette_scan _ _ _) as [a|]; [|discriminate Hsel].
    destruct (dict_get (child_nodes nd) a) as [c'|] eqn:Hget; [|discriminate Hsel].
    injection Hsel as ->. apply dict_get_Some_elem in Hget.
    destruct (child_entry t node nd a c Hinv Hnd Hget) as (cn' & Hcn' & Hpar & _).
    assert (cn' = cn) as -> by congruence.
    eapply (IH c (next_state board state action)); [|exact Hrun].
    by apply (state_at_child board s0 t c cn node action state).
Qed.

(** From the root and the state the search started from. *)
Lemma vanilla_traverse_state t bot_identity (g : Rng) node state (g' : Rng) :
  tree_inv t →
  Vanilla.traverse t board s0 bot_identity g = Ok (node, state, g') →
  state_at board s0 t node state.
Proof.
  intros Hinv Hrun. unfold Vanilla.traverse in Hrun.
  apply bind_Ok in Hrun as ([n s] & Hrun & [= <- <- _]).
  destruct (inv_root t Hinv) as (r & Hr & Hpar).
  eapply vanilla_descent_state; [done| |done].
  by apply (state_at_root board s0 t root_node r).
Qed.

Lemma modified_traverse_state {num : Type} `{Arith num} t bot_identity (g : Rng)
    node state (g' : Rng) :
  tree_inv t →
  Modified.traverse (num := num) t board s0 bot_identity g = Ok (node, state, g') →
  state_at board s0 t node state.
Proof.
  intros Hinv Hrun. unfold Modified.traverse in Hrun.
  destruct (inv_root t Hinv) as (r & Hr & Hpar).
  eapply modified_descent_state; [done| |done].
  by apply (state_at_root board s0 t root_node r).
Qed.
End DescentState.

(** ** The actions of a node and the legal actions of its state *)

Section DictKeys.
Context {K V : Type} `{EqDecision K}.

Lemma keys_dict_set (d : list (K * V)) (k : K) (v : V) (a : K) :
  a ∈ keys (dict_set d k v) → a = k ∨ a ∈ keys d.
Proof.
  unfold keys. intros Ha. apply list_elem_of_fmap in Ha as ([k' v'] & -> & Hin).
  apply dict_set_elem in Hin as [[= -> ->]|Hin]; [by left|].
  right. apply list_elem_of_fmap. by exists (k', v').
Qed.

Lemma dict_set_nonempty (d : list (K * V)) (k : K) (v : V) : dict_set d k v ≠ [].
Proof. destruct d as [|[k' w] d]; simpl; [done|]. by destruct (decide (k' = k)). Qed.

Lemma dict_get_None (d : list (K * V)) (k : K) :
  k ∉ keys d → dict_get d k = None.
Proof.
  intros Hk. destruct (dict_get d k) as [v|] eqn:Hget; [|done].
  destruct Hk. apply dict_get_Some_elem in Hget.
  apply list_elem_of_fmap. by exists (k, v).
Qed.
End DictKeys.

Section GameInvariant.
Context {State Action : Type} `{EqDecision Action}.
Variables (board : Board State Action) (s0 : State).
Implicit Types (t : Tree Action) (nd : MCTSNode Action) (state : State).

Lemma game_initial :
  actions_legal board s0 [MCTSNode_init None None (legal_actions board s0)] ∧
  actions_partitioned board s0 [MCTSNode_init None None (legal_actions board s0)] ∧
  children_recorded [MCTSNode_init None None (legal_actions board s0)].
Proof.
  assert (∀ n nd s,
    [MCTSNode_init None None (legal_actions board s0)] !! n = Some nd →
    state_at board s0 [MCTSNode_init None None (legal_actions board s0)] n s →
    nd = MCTSNode_init None None (legal_actions board s0) ∧ s = s0) as Hone.
  { intros [|n] nd s Hn Hs; [|done]. injection Hn as <-. split; [done|].
    inversion Hs as [|? x ? ? ? Hx Hpar]; [done|]. subst.
    injection Hx as <-. done. }
  split_and!.
  - intros n nd s Hn Hs a Ha. destruct (Hone n nd s Hn Hs) as [-> ->]. done.
  - intros n nd s Hn Hs. destruct (Hone n nd s Hn Hs) as [-> ->]. done.
  - intros [|i] nd p a Hi Hpar; [|done]. injection Hi as <-. done.
Qed.

(** The state at the node an expansion returns. *)
Lemma expand_leaf_state t node state g t1 n1 s1 g1 :
  tree_inv t → state_at board s0 t node state →
  expand_leaf board t node state g = Ok (t1, n1, s1, g1) →
  state_at board s0 t1 n1 s1.
Proof.
  intros Hinv Hstate Hexp.
  assert (∃ nd, t !! node = Some nd) as [nd Hnd].
  { unfold expand_leaf in Hexp. inv_Ok Hexp. apply node_at_Ok in Ha. eauto. }
  destruct (decide (untried_actions nd = [])) as [Hnil|Hne].
  { rewrite (expand_leaf_tried board t node nd state g Hnd Hnil) in Hexp.
    by injection Hexp as <- <- <- <-. }
  destruct (expand_leaf_untried board t node nd state g Hnd Hne)
    as (action & l1 & l2 & _ & _ & _ & Heq).
  rewrite Heq in Hexp. injection Hexp as <- <- <- <-.
  pose proof (lookup_lt_Some _ _ _ Hnd) as Hlt.
  eapply (state_at_child board s0 _ (length t) _ node action state).
  - rewrite lookup_app_r by (by rewrite length_insert).
    by rewrite length_insert, Nat.sub_diag.
  - done.
  - done.
  - by apply state_at_expanded.
Qed.

Lemma expand_leaf_legal t node state g t1 n1 s1 g1 :
  tree_inv t → actions_legal board s0 t → state_at board s0 t node state →
  expand_leaf board t node state g = Ok (t1, n1, s1, g1) →
  actions_legal board s0 t1.
Proof.
  intros Hinv Hlegal Hstate Hexp.
  assert (∃ nd, t !! node = Some nd) as [nd Hnd].
  { unfold expand_leaf in Hexp. inv_Ok Hexp. apply node_at_Ok in Ha. eauto. }
  destruct (decide (untried_actions nd = [])) as [Hnil|Hne].
  { rewrite (expand_leaf_tried board t node nd state g Hnd Hnil) in Hexp.
    by injection Hexp as <- <- <- <-. }
  destruct (expand_leaf_untried board t node nd state g Hnd Hne)
    as (action & l1 & l2 & _ & Hl & _ & Heq).
  rewrite Heq in Hexp. injection Hexp as <- <- <- <-.
  pose proof (lookup_lt_Some _ _ _ Hnd) as Hlt.
  pose proof (inv_parents t Hinv) as Hp.
  intros n x s Hn Hs a Ha.
  destruct (expanded_lookup _ _ _ _ _ _ _ Hnd Hn) as [[-> ->]|[[-> ->]|[_ Hold]]].
  - rewrite (state_at_expanded_new board s0 _ _ _ _ _ _ _ _ Hp Hnd Hstate Hs).
    done.
  - apply state_at_expanded_old in Hs; [|done..].
    apply (Hlegal node nd s Hnd Hs). cbn [child_nodes untried_actions with_expansion] in Ha.
    rewrite Hl. rewrite !elem_of_app in *. rewrite list_elem_of_singleton.
    destruct Ha as [Ha|[Ha|Ha]]; [|by auto..].
    apply keys_dict_set in Ha as [->|Ha]; auto.
  - apply state_at_expanded_old in Hs; [|done..|by eapply lookup_lt_Some].
    by apply (Hlegal n x s Hold Hs).
Qed.

Lemma expand_leaf_partitioned t node state g t1 n1 s1 g1 :
  distinct_actions board →
  tree_inv t → actions_partitioned board s0 t → children_recorded t →
  state_at board s0 t node state →
  expand_leaf board t node state g = Ok (t1, n1, s1, g1) →
  actions_partitioned board s0 t1 ∧ children_recorded t1.
Proof.
  intros Hdistinct Hinv Hpart Hrec Hstate Hexp.
  assert (∃ nd, t !! node = Some nd) as [nd Hnd].
  { unfold expand_leaf in Hexp. inv_Ok Hexp. apply node_at_Ok in Ha. eauto. }
  destruct (decide (untried_actions nd = [])) as [Hnil|Hne].
  { rewrite (expand_leaf_tried board t node nd state g Hnd Hnil) in Hexp.
    by injection Hexp as <- <- <- <-. }
  destruct (expand_leaf_untried board t node nd state g Hnd Hne)
    as (action & l1 & l2 & _ & Hl & _ & Heq).
  rewrite Heq in Hexp. injection Hexp as <- <- <- <-.
  pose proof (lookup_lt_Some _ _ _ Hnd) as Hlt.
  pose proof (inv_parents t Hinv) as Hp.
  assert (action ∉ keys (child_nodes nd)) as Hnew.
  { pose proof (Hpart node nd state Hnd Hstate) as Hperm.
    assert (NoDup (keys (child_nodes nd) ++ untried_actions nd)) as Hnd'
      by (rewrite Hperm; apply Hdistinct).
    apply NoDup_app in Hnd' as (_ & Hdisj & _). intros Hin.
    apply (Hdisj action Hin). rewrite Hl, !elem_of_app, list_elem_of_singleton. auto. }
  pose proof (dict_get_None _ _ Hnew) as Hnone.
  split.
  - intros n x s Hn Hs.
    destruct (expanded_lookup _ _ _ _ _ _ _ Hnd Hn) as [[-> ->]|[[-> ->]|[_ Hold]]].
    + rewrite (state_at_expanded_new board s0 _ _ _ _ _ _ _ _ Hp Hnd Hstate Hs).
      done.
    + apply state_at_expanded_old in Hs; [|done..].
      rewrite <- (Hpart node nd s Hnd Hs).
      cbn [child_nodes untried_actions with_expansion].
      rewrite (dict_set_new _ _ _ Hnone), Hl. unfold keys.
      rewrite fmap_app. cbn [fmap list_fmap fst]. rewrite <- !app_assoc.
      apply Permutation_app_head. cbn [app].
      by rewrite <- Permutation_middle.
    + apply state_at_expanded_old in Hs; [|done..|by eapply lookup_lt_Some].
      by apply (Hpart n x s Hold Hs).
  - intros i x p a Hi Hpar Hact.
    assert (∀ y, t !! i = Some y → parent y = Some p → parent_action y = Some a →
      ∃ pn, (<[node := with_expansion nd (l1 ++ l2) action (length t)]> t ++
               [MCTSNode_init (Some node) (Some action)
                  (legal_actions board (next_state board state action))]) !! p
              = Some pn ∧
            dict_get (child_nodes pn) a = Some i) as Hold.
    { intros y Hy Hyp Hya. destruct (Hrec i y p a Hy Hyp Hya) as (pn & Hpn & Hget).
      pose proof (lookup_lt_Some _ _ _ Hpn) as Hplt.
      destruct (decide (p = node)) as [->|Hne'].
      - assert (pn = nd) as -> by congruence.
        exists (with_expansion nd (l1 ++ l2) action (length t)). split.
        + rewrite lookup_app_l by (by rewrite length_insert).
          by apply list_lookup_insert_eq.
        + cbn [child_nodes with_expansion].
          destruct (decide (a = action)) as [->|Hna]; [congruence|].
          by rewrite dict_get_set_ne.
      - exists pn. split; [|done].
        rewrite lookup_app_l by (by rewrite length_insert).
        by rewrite list_lookup_insert_ne. }
    destruct (expanded_lookup _ _ _ _ _ _ _ Hnd Hi) as [[-> ->]|[[-> ->]|[_ Hi']]].
    + simpl in Hpar, Hact. injection Hpar as <-. injection Hact as <-.
      exists (with_expansion nd (l1 ++ l2) action (length t)). split.
      * rewrite lookup_app_l by (by rewrite length_insert).
        by apply list_lookup_insert_eq.
      * apply dict_get_set_eq.
    + by apply (Hold nd).
    + by apply (Hold x).
Qed.

Lemma backpropagate_game t n won t' :
  tree_inv t → n < length t →
  backpropagate (length t) t (Some n) won = Ok t' →
  (actions_legal board s0 t → actions_legal board s0 t') ∧
  (actions_partitioned board s0 t → actions_partitioned board s0 t') ∧
  (children_recorded t → children_recorded t').
Proof.
  intros Hinv Hn Hrun. pose proof (inv_parents t Hinv) as Hp.
  destruct (backpropagate_spec (length t) t n won Hp Hn Hn)
    as (t'' & Hrun' & Hlen & Hspec).
  assert (t'' = t') as -> by congruence.
  destruct (backpropagated_lookup t n won t' Hp Hn Hrun) as [_ Hlook].
  assert (∀ i x, t' !! i = Some x →
    ∃ nd, t !! i = Some nd ∧ parent x = parent nd ∧
          parent_action x = parent_action nd ∧
          child_nodes x = child_nodes nd ∧
          untried_actions x = untried_actions nd) as Hback.
  { intros i x Hi. destruct (Hlook i x Hi) as (nd & Hnd & [[_ ->]|[_ ->]]); eauto 7. }
  split_and!.
  - intros Hlegal i x s Hi Hs. destruct (Hback i x Hi) as (nd & Hnd & _ & _ & -> & ->).
    apply (Hlegal i nd s Hnd).
    by apply (state_at_backpropagated board s0 t n won t' i s Hp Hn Hrun).
  - intros Hpart i x s Hi Hs. destruct (Hback i x Hi) as (nd & Hnd & _ & _ & -> & ->).
    apply (Hpart i nd s Hnd).
    by apply (state_at_backpropagated board s0 t n won t' i s Hp Hn Hrun).
  - intros Hrec i x p a Hi Hpar Hact.
    destruct (Hback i x Hi) as (nd & Hnd & Hp' & Ha' & _).
    destruct (Hrec i nd p a Hnd) as (pn & Hpn & Hget); [congruence..|].
    destruct (Hspec p pn Hpn) as [[_ Hin]|[_ Hout]]; eauto.
Qed.

Section Loop.
Variable traverse :
  Tree Action → Board State Action → State → nat → Rng → result (nat * State * Rng).
Variables (horizon bot_identity : nat).

(** The descent returns a node with the state of the game at that node. *)
Hypothesis traverse_state : ∀ (t : Tree Action) (g : Rng) node state (g' : Rng),
  tree_inv t →
  traverse t board s0 bot_identity g = Ok (node, state, g') →
  state_at board s0 t node state.

Lemma iteration_game (w w' : World Action) :
  tree_inv (w_tree w) →
  iteration traverse horizon board s0 bot_identity w = Ok w' →
  (actions_legal board s0 (w_tree w) → actions_legal board s0 (w_tree w')) ∧
  (distinct_actions board →
   actions_partitioned board s0 (w_tree w) ∧ children_recorded (w_tree w) →
   actions_partitioned board s0 (w_tree w') ∧ children_recorded (w_tree w')).
Proof using traverse_state.
  intros Hinv Hit. unfold iteration in Hit.
  apply bind_Ok in Hit as ([[node st] g1] & Htr & Hit).
  apply bind_Ok in Hit as ([[[t1 node1] st1] g2] & Hexp & Hit).
  apply bind_Ok in Hit as ([result_state g3] & Hroll & Hit).
  apply bind_Ok in Hit as (won & Hwin & Hit).
  apply bind_Ok in Hit as (t2 & Hback & Hit).
  injection Hit as <-. cbn [w_tree].
  pose proof (traverse_state _ _ _ _ _ Hinv Htr) as Hstate.
  destruct (expand_leaf_inv _ _ _ _ _ _ _ _ _ Hinv Hexp) as [Hinv1 Hn1].
  destruct (backpropagate_game t1 node1 won t2 Hinv1 Hn1 Hback)
    as (Hl2 & Hp2 & Hr2).
  split.
  - intros Hlegal. apply Hl2.
    eapply expand_leaf_legal; [exact Hinv | exact Hlegal | exact Hstate | exact Hexp].
  - intros Hdistinct [Hpart Hrec].
    destruct (expand_leaf_partitioned _ _ _ _ _ _ _ _ Hdistinct Hinv Hpart Hrec
                Hstate Hexp) as [Hpart1 Hrec1].
    auto.
Qed.

Lemma search_loop_game (k : nat) : ∀ w w' : World Action,
  tree_inv (w_tree w) →
  search_loop traverse horizon k board s0 bot_identity w = Ok w' →
  (actions_legal board s0 (w_tree w) → actions_legal board s0 (w_tree w')) ∧
  (distinct_actions board →
   actions_partitioned board s0 (w_tree w) ∧ children_recorded (w_tree w) →
   actions_partitioned board s0 (w_tree w') ∧ children_recorded (w_tree w')).
Proof using traverse_state.
  induction k as [|k IH]; intros w w' Hinv Hrun; simpl in Hrun.
  - injection Hrun as <-. auto.
  - apply bind_Ok in Hrun as (w1 & Hit & Hrun).
    destruct (iteration_game w w1 Hinv Hit) as [Hl1 Hp1].
    destruct (iteration_inv _ _ _ _ _ _ _ Hinv Hit) as [Hinv1 _].
    destruct (IH w1 w' Hinv1 Hrun) as [Hl' Hp']. split; auto.
Qed.
End Loop.
End GameInvariant.

(** ** Children between iterations *)

Section VisitedChildren.
Context {Action : Type} `{EqDecision Action}.
Implicit Types (t : Tree Action) (nd : MCTSNode Action).

Lemma child_visited t node nd c :
  search_inv t → t !! node = Some nd → c ∈ values (child_nodes nd) →
  ∃ cn, t !! c = Some cn ∧ parent cn = Some node ∧ visits cn ≠ 0.
Proof.
  intros Hsinv Hnd Hc. pose proof (sinv_tree t Hsinv) as Hinv.
  apply list_elem_of_fmap in Hc as ([a c'] & -> & Hin).
  destruct (child_entry t node nd a c' Hinv Hnd Hin) as (cn & Hcn & Hpar & _ & Hlt & _).
  exists cn. split_and!; [done..|].
  apply (sinv_visited t Hsinv c' cn Hcn). unfold root_node. cbn [snd]. lia.
Qed.

Lemma nothing_visited_childless t node nd :
  search_inv t → t !! node = Some nd →
  nothing_visited t nd = Ok true ↔ child_nodes nd = [].
Proof.
  intros Hsinv Hnd. rewrite nothing_visited_true. split.
  - intros [Hnil|Hall]; [done|].
    destruct (child_nodes nd) as [|[a c] d] eqn:Hd; [done|].
    destruct (child_visited t node nd c Hsinv Hnd) as (cn & Hcn & _ & Hv).
    { rewrite Hd. left. }
    destruct (Hall c) as (cn' & Hcn' & Hz); [left|]. congruence.
  - by left.
Qed.

Lemma ucb_child_finite t node nd c bot_identity :
  search_inv t → t !! node = Some nd → c ∈ values (child_nodes nd) →
  ∃ x, Vanilla.ucb t c bot_identity = Ok (Vanilla.Finite x).
Proof using All.
  intros Hsinv Hnd Hc.
  destruct (child_visited t node nd c Hsinv Hnd Hc) as (cn & Hcn & _ & Hv).
  eexists.
  apply (ucb_in_tree t node nd c cn bot_identity (sinv_tree t Hsinv) Hnd Hc Hcn Hv).
Qed.
End VisitedChildren.

(** ** The action returned *)

(** A backpropagation leaves the root with the children it has. *)
Lemma backpropagate_root_child {Action : Type} (fuel : nat) :
  ∀ (t : Tree Action) (i : option nat) (won : bool) (t' : Tree Action),
  backpropagate fuel t i won = Ok t' →
  (∃ r, t !! root_node = Some r ∧ child_nodes r ≠ []) →
  ∃ r', t' !! root_node = Some r' ∧ child_nodes r' ≠ [].
Proof.
  induction fuel as [|fuel IH]; intros t [n|] won t' Hb (r & Hr & Hne);
    simpl in Hb; try discriminate.
  - injection Hb as <-. eauto.
  - apply bind_Ok in Hb as (x & Hx & Hb). apply node_at_Ok in Hx.
    rewrite bump_steps in Hb. apply (IH _ _ _ _ Hb).
    destruct (decide (n = root_node)) as [->|Hn].
    + assert (x = r) as -> by congruence. exists (bump won r). split; [|done].
      apply list_lookup_insert_eq. by eapply lookup_lt_Some.
    + exists r. split; [|done]. by rewrite list_lookup_insert_ne.
  - injection Hb as <-. eauto.
Qed.

Section ActionReturned.
Context {State Action : Type} `{EqDecision Action}.
Variable traverse :
  Tree Action → Board State Action → State → nat → Rng → result (nat * State * Rng).
Variables (board : Board State Action) (s0 : State).
Variables (horizon bot_identity : nat).

Hypothesis traverse_returns : ∀ (t : Tree Action) (g : Rng),
  tree_inv t →
  ∃ node state g',
    traverse t board s0 bot_identity g = Ok (node, state, g') ∧
    node < length t ∧ reachable board s0 state.

(** Once the root has a child it keeps having one. *)
Lemma iteration_root_child (w w' : World Action) :
  iteration traverse horizon board s0 bot_identity w = Ok w' →
  (∃ r, w_tree w !! root_node = Some r ∧ child_nodes r ≠ []) →
  ∃ r', w_tree w' !! root_node = Some r' ∧ child_nodes r' ≠ [].
Proof.
  intros Hit (r & Hr & Hne). unfold iteration in Hit.
  apply bind_Ok in Hit as ([[node st] g1] & Htr & Hit).
  apply bind_Ok in Hit as ([[[t1 node1] st1] g2] & Hexp & Hit).
  apply bind_Ok in Hit as ([result_state g3] & Hroll & Hit).
  apply bind_Ok in Hit as (won & Hwin & Hit).
  apply bind_Ok in Hit as (t2 & Hback & Hit).
  injection Hit as <-. cbn [w_tree].
  apply (backpropagate_root_child _ _ _ _ _ Hback).
  assert (∃ nd, w_tree w !! node = Some nd) as [nd Hnd].
  { unfold expand_leaf in Hexp. inv_Ok Hexp. apply node_at_Ok in Ha. eauto. }
  destruct (decide (untried_actions nd = [])) as [Hnil|Hne'].
  { rewrite (expand_leaf_tried board _ node nd st g1 Hnd Hnil) in Hexp.
    injection Hexp as <- <- <- <-. eauto. }
  destruct (expand_leaf_untried board _ node nd st g1 Hnd Hne')
    as (action & l1 & l2 & _ & _ & _ & Heq).
  rewrite Heq in Hexp. injection Hexp as <- <- <- <-.
  pose proof (lookup_lt_Some _ _ _ Hr) as Hlt.
  rewrite lookup_app_l by (by rewrite length_insert).
  destruct (decide (node = root_node)) as [->|Hnode].
  - rewrite list_lookup_insert_eq by done. eexists. split; [done|].
    cbn [child_nodes with_expansion]. apply dict_set_nonempty.
  - rewrite list_lookup_insert_ne by done. eauto.
Qed.

(** The first iteration gives the root a child when the root state has a
    legal action. *)
Lemma first_iteration_root_child (g : Rng) (w' : World Action) :
  legal_actions board s0 ≠ [] →
  iteration traverse horizon board s0 bot_identity (initial_world board s0 g) = Ok w' →
  ∃ r', w_tree w' !! root_node = Some r' ∧ child_nodes r' ≠ [].
Proof using traverse_returns.
  intros Hlegal Hit. unfold iteration in Hit.
  destruct (traverse_returns (w_tree (initial_world board s0 g)) g
              (tree_inv_initial _)) as (node & st & g1 & Htr & Hnode & _).
  cbn [initial_world w_tree w_rng] in Hit, Htr. rewrite Htr in Hit.
  cbn [mbind result_bind] in Hit.
  assert (node = root_node) as -> by (simpl in Hnode; unfold root_node; lia).
  destruct (expand_leaf_untried board
              [MCTSNode_init None None (legal_actions board s0)] root_node
              (MCTSNode_init None None (legal_actions board s0)) st g1 eq_refl Hlegal)
    as (action & l1 & l2 & _ & _ & _ & Heq).
  rewrite Heq in Hit. cbn [mbind result_bind] in Hit.
  apply bind_Ok in Hit as ([result_state g3] & Hroll & Hit).
  apply bind_Ok in Hit as (won & Hwin & Hit).
  apply bind_Ok in Hit as (t2 & Hback & Hit).
  injection Hit as <-. cbn [w_tree].
  apply (backpropagate_root_child _ _ _ _ _ Hback).
  eexists. split; [reflexivity|]. apply dict_set_nonempty.
Qed.

Lemma search_loop_root_child (k : nat) : ∀ w w' : World Action,
  search_loop traverse horizon k board s0 bot_identity w = Ok w' →
  (∃ r, w_tree w !! root_node = Some r ∧ child_nodes r ≠ []) →
  ∃ r', w_tree w' !! root_node = Some r' ∧ child_nodes r' ≠ [].
Proof.
  induction k as [|k IH]; intros w w' Hrun Hchild; simpl in Hrun.
  - by injection Hrun as <-.
  - apply bind_Ok in Hrun as (w1 & Hit & Hrun).
    apply (IH w1 w' Hrun). by eapply iteration_root_child.
Qed.
End ActionReturned.

Lemma think_with_legal {State Action : Type} `{EqDecision Action}
    (traverse : Tree Action → Board State Action → State → nat → Rng →
                result (nat * State * Rng))
    (num_nodes horizon : nat) (board : Board State Action) (s0 : State) (g : Rng)
    (best_action : option Action) (w : World Action) :
  (∀ (t : Tree Action) (g : Rng), tree_inv t →
     ∃ node state g',
       traverse t board s0 (current_player board s0) g = Ok (node, state, g') ∧
       node < length t ∧ reachable board s0 state) →
  (∀ (t : Tree Action) (g : Rng) node state (g' : Rng), tree_inv t →
     traverse t board s0 (current_player board s0) g = Ok (node, state, g') →
     state_at board s0 t node state) →
  num_nodes ≠ 0 → legal_actions board s0 ≠ [] →
  think_with traverse num_nodes horizon board s0 g = Ok (best_action, w) →
  ∃ a, best_action = Some a ∧ a ∈ legal_actions board s0.
Proof.
  intros Hret Hstate Hnum Hlegal Hrun. unfold think_with in Hrun.
  apply bind_Ok in Hrun as (w' & Hloop & Hrun).
  apply bind_Ok in Hrun as (best & Hbest & [= <- <-]).
  pose proof (tree_inv_initial (Action := Action) (legal_actions board s0)) as Hinit.
  change (tree_inv (w_tree (initial_world board s0 g))) in Hinit.
  destruct (search_loop_inv _ _ _ _ _ _ _ _ Hinit Hloop) as [Hinv _].
  destruct (search_loop_game board s0 traverse horizon _ Hstate num_nodes _ _
              Hinit Hloop) as [Hl _].
  specialize (Hl (proj1 (game_initial board s0))).
  assert (∃ r, w_tree w' !! root_node = Some r ∧ child_nodes r ≠ [])
    as (r & Hr & Hne).
  { destruct num_nodes as [|k]; [done|]. cbn [search_loop] in Hloop.
    apply bind_Ok in Hloop as (w1 & Hit & Hloop).
    eapply search_loop_root_child; [exact Hloop|].
    eapply first_iteration_root_child; [exact Hret | exact Hlegal | exact Hit]. }
  destruct (get_best_action_max (w_tree w') root_node r Hr Hne)
    as (a & c & cn & Hrun & Hget & _).
  { intros a c Hin.
    destruct (child_entry _ root_node r a c Hinv Hr Hin) as (cn & Hcn & _).
    by eexists. }
  rewrite Hrun in Hbest. injection Hbest as <-.
  exists a. split; [done|].
  destruct (inv_root _ Hinv) as (r' & Hr' & Hpar).
  assert (r' = r) as -> by congruence.
  apply (Hl root_node r s0 Hr).
  - by apply (state_at_root board s0 _ root_node r).
  - apply elem_of_app. left. apply dict_get_Some_elem in Hget.
    apply list_elem_of_fmap. by exists (a, c).
Qed.

(** ** The order of binary64 *)

Section FloatOrder.
Import SpecFloat.

Lemma SFcompare_lt_le_trans (a b c : spec_float) :
  SFltb a b = true → SFleb b c = true → SFltb a c = true.
Proof.
  unfold SFltb, SFleb.
  destruct a as [sa|sa| |sa ma ea], b as [sb|sb| |sb mb eb], c as [sc|sc| |sc mc ec];
    repeat match goal with s : bool |- _ => destruct s end;
    cbn; try done.
  all: rewrite ?Pos.compare_cont_spec; cbn [Pos.switch_Eq].
  all: destruct (Z.compare_spec ea eb), (Z.compare_spec eb ec), (Z.compare_spec ea ec);
         try lia; try done.
  all: destruct (Pos.compare_spec ma mb), (Pos.compare_spec mb mc), (Pos.compare_spec ma mc);
         cbn; try lia; try done.
Qed.

Lemma SFcompare_lt_irrefl (a : spec_float) : SFltb a a = false.
Proof.
  unfold SFltb. destruct a as [[]|[]| |[] m e]; cbn; try done.
  all: rewrite Z.compare_refl, Pos.compare_cont_refl; done.
Qed.

Lemma SFcompare_lt_le (a b : spec_float) : SFltb a b = true → SFleb a b = true.
Proof. unfold SFltb, SFleb. by destruct (SFcompare a b) as [[]|]. Qed.
End FloatOrder.

(** [>] and [>=] on binary64, [nan] included. *)
Lemma float_gt_ge (a b : PrimFloat.float) :
  PrimFloat.ltb b a = true → PrimFloat.leb b a = true.
Proof. rewrite FloatAxioms.ltb_spec, FloatAxioms.leb_spec. apply SFcompare_lt_le. Qed.

Lemma float_gt_irrefl (a : PrimFloat.float) : PrimFloat.ltb a a = false.
Proof. rewrite FloatAxioms.ltb_spec. apply SFcompare_lt_irrefl. Qed.

Lemma float_ge_gt_trans (a b c : PrimFloat.float) :
  PrimFloat.ltb a b = true → PrimFloat.leb b c = true → PrimFloat.ltb a c = true.
Proof.
  rewrite !FloatAxioms.ltb_spec, FloatAxioms.leb_spec. apply SFcompare_lt_le_trans.
Qed.

Section MaxOfFloats.
Context {A : Type} (key : A → result PrimFloat.float).

(** The items before the maximum do not reach its key, the items after it
    do not exceed it. *)
Lemma max_loop_first_float (l : list A) : ∀ p1 best kb p2,
  key best = Ok kb →
  (∀ y, y ∈ p1 → ∃ ky, key y = Ok ky ∧ PrimFloat.leb kb ky = false) →
  (∀ y, y ∈ p2 → ∃ ky, key y = Ok ky ∧ PrimFloat.ltb kb ky = false) →
  (∀ x, x ∈ l → is_Ok (key x)) →
  ∃ r kr l1 l2,
    max_loop Vanilla64.score_gt key best kb l = Ok r ∧
    p1 ++ [best] ++ p2 ++ l = l1 ++ [r] ++ l2 ∧
    key r = Ok kr ∧
    (∀ y, y ∈ l1 → ∃ ky, key y = Ok ky ∧ PrimFloat.leb kr ky = false) ∧
    (∀ y, y ∈ l2 → ∃ ky, key y = Ok ky ∧ PrimFloat.ltb kr ky = false).
Proof.
  induction l as [|x l IH]; intros p1 best kb p2 Hb H1 H2 Hl.
  - exists best, kb, p1, p2. by rewrite app_nil_r.
  - destruct (Hl x) as [kx Hx]; [left|]. simpl. rewrite Hx. simpl.
    unfold Vanilla64.score_gt at 1.
    destruct (PrimFloat.ltb kb kx) eqn:Hgt.
    + destruct (IH (p1 ++ [best] ++ p2) x kx []) as (r & kr & l1 & l2 & Hrun & Heq & Hr);
        [done | | by intros ? ?%elem_of_nil | by intros; apply Hl; right |].
      { intros y Hy. rewrite !elem_of_app, list_elem_of_singleton in Hy.
        destruct Hy as [Hy|[->|Hy]].
        - destruct (H1 y Hy) as (ky & Hky & Hlt). exists ky. split; [done|].
          destruct (PrimFloat.leb kx ky) eqn:Hle; [|done].
          pose proof (float_ge_gt_trans _ _ _ Hgt Hle) as Hc.
          apply float_gt_ge in Hc. congruence.
        - exists kb. split; [done|].
          destruct (PrimFloat.leb kx kb) eqn:Hle; [|done].
          pose proof (float_ge_gt_trans _ _ _ Hgt Hle) as Hc.
          by rewrite float_gt_irrefl in Hc.
        - destruct (H2 y Hy) as (ky & Hky & Hle'). exists ky. split; [done|].
          destruct (PrimFloat.leb kx ky) eqn:Hle; [|done].
          pose proof (float_ge_gt_trans _ _ _ Hgt Hle) as Hc. congruence. }
      exists r, kr, l1, l2. split; [done|]. split; [|done].
      etrans; [|exact Heq]. simpl. by rewrite <- ?app_assoc.
    + destruct (IH p1 best kb (p2 ++ [x])) as (r & kr & l1 & l2 & Hrun & Heq & Hr);
        [done | done | | by intros; apply Hl; right |].
      { intros y Hy. rewrite elem_of_app, list_elem_of_singleton in Hy.
        destruct Hy as [Hy| ->]; [by apply H2 | by exists kx]. }
      exists r, kr, l1, l2. split; [done|]. split; [|done].
      etrans; [|exact Heq]. simpl. by rewrite <- ?app_assoc.
Qed.

Lemma py_max_first_float (l : list A) :
  l ≠ [] → (∀ x, x ∈ l → is_Ok (key x)) →
  ∃ r kr l1 l2,
    py_max Vanilla64.score_gt key l = Ok r ∧ l = l1 ++ [r] ++ l2 ∧
    key r = Ok kr ∧
    (∀ y, y ∈ l1 → ∃ ky, key y = Ok ky ∧ PrimFloat.leb kr ky = false) ∧
    (∀ y, y ∈ l2 → ∃ ky, key y = Ok ky ∧ PrimFloat.ltb kr ky = false).
Proof.
  destruct l as [|x l]; [done|]. intros _ Hl.
  destruct (Hl x) as [kx Hx]; [left|]. simpl. rewrite Hx. simpl.
  destruct (max_loop_first_float l [] x kx []) as (r & kr & l1 & l2 & Hrun & Heq & Hr);
    [done | by intros ? ?%elem_of_nil | by intros ? ?%elem_of_nil
    | by intros; apply Hl; right |].
  by exists r, kr, l1, l2.
Qed.
End MaxOfFloats.

(** ** Ties *)

Section Ties.
Context {Action : Type} `{EqDecision Action}.
Implicit Types (t : Tree Action) (r nd : MCTSNode Action).

(** [get_best_action] returns the first action, in the order the children
    were added, whose child has the most visits. *)
Lemma get_best_action_first t root r :
  t !! root = Some r → child_nodes r ≠ [] →
  (∀ a c, (a, c) ∈ child_nodes r → is_Some (t !! c)) →
  ∃ a c cn l1 l2,
    get_best_action t root = Ok (Some a) ∧
    keys (child_nodes r) = l1 ++ [a] ++ l2 ∧
    dict_get (child_nodes r) a = Some c ∧ t !! c = Some cn ∧
    (∀ b, b ∈ l1 → ∃ c' cn', dict_get (child_nodes r) b = Some c' ∧
                             t !! c' = Some cn' ∧ visits cn' < visits cn) ∧
    (∀ b, b ∈ l2 → ∃ c' cn', dict_get (child_nodes r) b = Some c' ∧
                             t !! c' = Some cn' ∧ visits cn' ≤ visits cn).
Proof.
  intros Hr Hne Hres. unfold get_best_action.
  apply node_at_Ok in Hr as ->. simpl.
  apply is_nil_false in Hne as Hnil. rewrite Hnil.
  set (key := λ x : Action, match dict_get (child_nodes r) x with
                            | Some c => cn ← node_at t c; Ok (visits cn)
                            | None => Raise KeyError
                            end).
  assert (∀ x k, key x = Ok k →
    ∃ c cn, dict_get (child_nodes r) x = Some c ∧ t !! c = Some cn ∧
            k = visits cn) as Hkey.
  { intros x k. unfold key. destruct (dict_get (child_nodes r) x) as [c|]; [|done].
    intros Hk. apply bind_Ok in Hk as (cn & Hcn & [= <-]).
    apply node_at_Ok in Hcn. eauto. }
  assert (∀ x, x ∈ keys (child_nodes r) → is_Ok (key x)) as Hkeys.
  { intros x Hx. apply list_elem_of_fmap in Hx as ([x' c] & -> & Hin). simpl.
    destruct (dict_get_elem _ _ _ Hin) as [c' Hc'].
    destruct (Hres x' c') as [cn Hcn]; [by apply dict_get_Some_elem|].
    exists (visits cn). unfold key. rewrite Hc'.
    apply node_at_Ok in Hcn as ->. done. }
  destruct (py_max_first nat_gt key nat_gt_asym nat_gt_trans (keys (child_nodes r)))
    as (a & ka & l1 & l2 & Hrun & Hl & Ha & H1 & H2); [|done|].
  { unfold keys. by destruct (child_nodes r). }
  rewrite Hrun. simpl.
  destruct (Hkey a ka Ha) as (c & cn & Hc & Hcn & ->).
  exists a, c, cn, l1, l2. split_and!; [done..| |].
  - intros b Hb. destruct (H1 b Hb) as (kb & Hkb & Hlt).
    destruct (Hkey b kb Hkb) as (c' & cn' & Hc' & Hcn' & ->).
    exists c', cn'. split_and!; [done..|].
    unfold nat_gt in Hlt. by apply Nat.ltb_lt in Hlt.
  - intros b Hb. destruct (H2 b Hb) as (kb & Hkb & Hle).
    destruct (Hkey b kb Hkb) as (c' & cn' & Hc' & Hcn' & ->).
    exists c', cn'. split_and!; [done..|].
    unfold nat_gt in Hle. by apply Nat.ltb_ge in Hle.
Qed.
End Ties.

(** ** The roulette wheel off its end *)

Lemma modified_fall_through {State Action num : Type} `{EqDecision Action}
    `{Arith num} (board : Board State Action) (t : Tree Action) (node : nat)
    (nd : MCTSNode Action) (state : State) (bot_identity : nat) (g : Rng)
    (fuel total : nat) (probabilities : list (Action * num)) :
  t !! node = Some nd →
  is_ended board state = false → untried_actions nd = [] → some_visited t nd →
  Modified.total_visits t nd = Ok total →
  Modified.probabilities_of t nd total = Ok probabilities →
  first_reaching (num_random (g 0)) probabilities = None →
  Modified.traverse_nodes (S fuel) t node board state bot_identity g =
    Raise KeyError.
Proof.
  intros Hnd Hend Hnil Hsome%nothing_visited_some Htotal Hprobs Hnone.
  rewrite (modified_step fuel t node nd board state bot_identity g Hnd Hend Hnil Hsome).
  rewrite Htotal. cbn [mbind result_bind]. rewrite Hprobs. cbn [mbind result_bind].
  rewrite roulette_wheel_selection_draw, roulette_scan_first_reaching, Hnone.
  done.
Qed.

(** ** The take-away game *)

Lemma takeaway_ranked : ranked Takeaway.board fst.
Proof.
  split.
  - intros [pile player] a Hend Ha. simpl in *.
    destruct pile as [|[|pile]]; [done| |];
      repeat (apply elem_of_cons in Ha as [->|Ha]; [simpl; lia|]);
      by apply elem_of_nil in Ha.
  - intros [pile player] Hend. simpl in *. by destruct pile as [|[|pile]].
Qed.

Lemma takeaway_distinct : distinct_actions Takeaway.board.
Proof.
  intros [pile player]. simpl. destruct pile as [|[|pile]].
  - constructor.
  - apply NoDup_singleton.
  - apply NoDup_cons. split; [|apply NoDup_singleton].
    rewrite list_elem_of_singleton. lia.
Qed.

(** ** The tree of a run *)

Lemma on_path_visits {Action : Type} (t : Tree Action) (n m : nat) :
  parents_below t → visits_below_parent t → on_path t n m →
  ∀ nd md, t !! n = Some nd → t !! m = Some md → visits nd ≤ visits md.
Proof.
  intros Hp Hv Hpath.
  induction Hpath as [n|n nd0 p m Hn Hpar Hpath IH]; intros nd md Hnd Hmd.
  - assert (nd = md) as -> by congruence. lia.
  - assert (nd0 = nd) as -> by congruence.
    pose proof (Hp n nd p Hnd Hpar) as Hlt.
    apply lookup_lt_Some in Hnd as Hn'.
    destruct (lookup_lt_is_Some_2 t p) as [pn Hpn]; [lia|].
    specialize (Hv n nd p pn Hnd Hpar Hpn). specialize (IH pn md Hpn Hmd). lia.
Qed.

Section OfBot.
Context {State Action num : Type} `{EqDecision Action} `{Arith num}.
Variable traverse :
  Tree Action → Board State Action → State → nat → Rng → result (nat * State * Rng).
Variables (board : Board State Action) (s0 : State) (bot_identity : nat).

Hypothesis bot :
  traverse = Vanilla.traverse ∨ traverse = Modified.traverse (num := num).

Lemma bot_traverse_state (t : Tree Action) (g1 : Rng) node state (g2 : Rng) :
  tree_inv t →
  traverse t board s0 bot_identity g1 = Ok (node, state, g2) →
  state_at board s0 t node state.
Proof using bot.
  destruct bot as [-> | ->].
  - apply vanilla_traverse_state.
  - apply modified_traverse_state.
Qed.

Lemma bot_traverse_stops (t : Tree Action) (g1 : Rng) node state (g2 : Rng) :
  traverse t board s0 bot_identity g1 = Ok (node, state, g2) →
  ∃ nd, t !! node = Some nd ∧
    (is_ended board state = true ∨ untried_actions nd ≠ [] ∨
     nothing_visited t nd = Ok true).
Proof using bot.
  destruct bot as [-> | ->].
  - unfold Vanilla.traverse. intros Hrun.
    apply bind_Ok in Hrun as ([node' state'] & Hrun & [= <- <- <-]).
    by eapply vanilla_stops_at.
  - unfold Modified.traverse. intros Hrun. by eapply modified_stops_at.
Qed.
End OfBot.

Section Run.
Context {State Action : Type} `{EqDecision Action}.
Variable traverse :
  Tree Action → Board State Action → State → nat → Rng → result (nat * State * Rng).
Variables (board : Board State Action) (s0 : State).
Variables (horizon bot_identity k : nat) (g : Rng) (w : World Action).

Hypothesis run :
  search_loop traverse horizon k board s0 bot_identity (initial_world board s0 g) =
    Ok w.

Lemma run_inv :
  search_inv (w_tree w) ∧ 1 ≤ length (w_tree w) ≤ k + 1 ∧
  ∃ r, w_tree w !! root_node = Some r ∧ visits r = k.
Proof using run.
  pose proof (search_inv_initial (Action := Action) (legal_actions board s0)) as Hinit.
  change (search_inv (w_tree (initial_world board s0 g))) in Hinit.
  destruct (search_loop_sinv _ _ _ _ _ _ _ _ Hinit run) as (Hs & Hlen & Hroot).
  split; [done|]. split; [simpl in Hlen; lia|].
  destruct (Hroot (MCTSNode_init None None (legal_actions board s0)) eq_refl)
    as (r & Hr & Hv).
  exists r. split; [done|]. simpl in Hv. lia.
Qed.

Lemma run_game {num : Type} `{Arith num} :
  traverse = Vanilla.traverse ∨ traverse = Modified.traverse (num := num) →
  actions_legal board s0 (w_tree w) ∧
  (distinct_actions board →
   actions_partitioned board s0 (w_tree w) ∧ children_recorded (w_tree w)).
Proof using run.
  intros Hbot.
  pose proof (tree_inv_initial (Action := Action) (legal_actions board s0)) as Hinit.
  change (tree_inv (w_tree (initial_world board s0 g))) in Hinit.
  destruct (search_loop_game board s0 traverse horizon bot_identity
              (bot_traverse_state traverse board s0 bot_identity Hbot)
              k _ _ Hinit run) as [Hl Hp].
  destruct (game_initial board s0) as (Hl0 & Hp0 & Hr0).
  split; [by apply Hl|]. intros Hd. by apply Hp.
Qed.
End Run.

(** ** The roulette wheel in any arithmetic *)

Section WheelOutcomes.
Context {State Action num : Type} `{EqDecision Action} `{Arith num}.
Implicit Types (board : Board State Action) (t : Tree Action) (state : State).

Lemma roulette_scan_key (threshold : num) :
  ∀ (probabilities : list (Action * num)) (acc : num) a,
  Modified.roulette_scan threshold acc probabilities = Some a →
  a ∈ keys probabilities.
Proof.
  induction probabilities as [|[b q] ps IH]; intros acc a Hscan; [done|].
  cbn [Modified.roulette_scan] in Hscan.
  destruct (num_geb (num_add acc q) threshold).
  - injection Hscan as ->. left.
  - right. by eapply IH.
Qed.

Lemma keys_zip_with {V W : Type} (f : nat → W) :
  ∀ (d : list (Action * V)) (vs : list nat), length d = length vs →
  keys (zip_with (λ e v, (e.1, f v)) d vs) = keys d.
Proof.
  induction d as [|[a c] d IH]; intros [|v vs] Hlen; try done.
  cbn. f_equal. apply IH. simpl in Hlen. lia.
Qed.

(** On a node with a visited child the probabilities are computed, one for
    each child, whatever the arithmetic. *)
Lemma probabilities_defined t nd :
  some_visited t nd →
  ∃ total probabilities,
    Modified.total_visits t nd = Ok total ∧
    Modified.probabilities_of (num := num) t nd total = Ok probabilities ∧
    keys probabilities = keys (child_nodes nd).
Proof.
  intros [Hres (c0 & cn0 & Hc0 & Hcn0 & Hv0)].
  destruct (probabilities_of_children (num := num) t nd Hres)
    as (vs & Hvs & Htotal & Hprobs).
  pose proof (Forall2_length _ _ _ Hvs) as Hlen.
  assert (sum_list vs ≠ 0%nat) as Hsum.
  { apply list_elem_of_fmap in Hc0 as ([a0 c0'] & -> & Hin).
    apply list_elem_of_lookup in Hin as [i Hi].
    destruct (Forall2_lookup_l _ _ _ _ _ Hvs Hi) as (v & Hv & cn & Hcn & Hvis).
    cbn in Hcn, Hcn0. assert (cn = cn0) as -> by congruence.
    apply list_elem_of_lookup_2 in Hv.
    pose proof (sum_list_with_in v Datatypes.id vs Hv) as Hle. cbn in Hle. lia. }
  eexists _, _. split_and!; [done | by apply Hprobs |].
  by apply keys_zip_with.
Qed.

Lemma modified_descent_outcomes board t bot_identity (fuel : nat) :
  tree_inv t →
  ∀ node state (g : Rng), node < length t → length t ≤ fuel + node →
  (∃ node' state' g',
     Modified.traverse_nodes (num := num) fuel t node board state bot_identity g =
       Ok (node', state', g') ∧
     node' < length t) ∨
  Modified.traverse_nodes (num := num) fuel t node board state bot_identity g =
    Raise KeyError.
Proof.
  intros Hinv. induction fuel as [|fuel IH]; intros node state g Hlt Hfuel; [lia|].
  destruct (lookup_lt_is_Some_2 t node Hlt) as [nd Hnd].
  destruct (is_ended board state) eqn:Hend.
  { left. exists node, state, g. split; [|done]. eapply modified_stop; eauto. }
  destruct (decide (untried_actions nd = [])) as [Hnil|Hne].
  2: { left. exists node, state, g. split; [|done]. eapply modified_stop; eauto. }
  destruct (nothing_visited_decided t node nd Hinv Hnd) as [Hnv|(Hnv & Hsome & Hv)].
  { left. exists node, state, g. split; [|done]. by eapply modified_stop_unvisited. }
  rewrite (modified_step fuel t node nd board state bot_identity g Hnd Hend Hnil Hnv).
  destruct (probabilities_defined t nd Hsome) as (total & probabilities & -> & Hprobs & Hkeys).
  cbn [mbind result_bind]. rewrite Hprobs. cbn [mbind result_bind].
  rewrite roulette_wheel_selection_draw.
  destruct (Modified.roulette_scan _ _ _) as [a|] eqn:Hscan; [|by right].
  apply roulette_scan_key in Hscan. rewrite Hkeys in Hscan.
  apply list_elem_of_fmap in Hscan as ([a' c0] & -> & Hin).
  destruct (dict_get_elem _ _ _ Hin) as [c Hc]. cbn [fst]. rewrite Hc.
  cbn [mbind result_bind].
  apply dict_get_Some_elem in Hc.
  destruct (child_entry t node nd a' c Hinv Hnd Hc)
    as (cn & Hcn & Hpar & Hact & Hnc & Hcl).
  apply node_at_Ok in Hcn as ->. cbn [mbind result_bind]. rewrite Hact.
  cbn [required mbind result_bind].
  apply IH; [done | lia].
Qed.

Lemma modified_traverse_outcomes board state bot_identity t (g : Rng) :
  tree_inv t →
  (∃ node state' g',
     Modified.traverse (num := num) t board state bot_identity g =
       Ok (node, state', g') ∧
     node < length t) ∨
  Modified.traverse (num := num) t board state bot_identity g = Raise KeyError.
Proof.
  intros Hinv. destruct (inv_root t Hinv) as (r & Hr & _).
  apply modified_descent_outcomes; [done | by eapply lookup_lt_Some |].
  unfold root_node. lia.
Qed.
End WheelOutcomes.

Lemma fault_of_wheel_bind {A B} (m : result A) (f : A → result B) :
  fault_of_wheel m → (∀ a, m = Ok a → fault_of_wheel (f a)) →
  fault_of_wheel (m ≫= f).
Proof. destruct m; simpl; auto. Qed.

Section WheelFaults.
Context {State Action : Type} `{EqDecision Action}.
Variable traverse :
  Tree Action → Board State Action → State → nat → Rng → result (nat * State * Rng).
Variables (board : Board State Action) (current_state : State).
Variables (horizon bot_identity : nat).

(** The descent returns a node of the tree or raises [KeyError]. *)
Hypothesis traverse_outcomes : ∀ (t : Tree Action) (g : Rng),
  tree_inv t →
  (∃ node state g',
     traverse t board current_state bot_identity g = Ok (node, state, g') ∧
     node < length t) ∨
  traverse t board current_state bot_identity g = Raise KeyError.

Lemma iteration_wheel_fault (w : World Action) :
  tree_inv (w_tree w) →
  fault_of_wheel (iteration traverse horizon board current_state bot_identity w).
Proof using traverse_outcomes.
  intros Hinv. unfold iteration.
  destruct (traverse_outcomes (w_tree w) (w_rng w) Hinv)
    as [(node & state & g1 & -> & Hnode) | ->]; [|simpl; auto].
  cbn [mbind result_bind].
  destruct (expand_leaf_returns board (w_tree w) node state g1 Hnode)
    as (t1 & node1 & state1 & g2 & Hexp & _).
  rewrite Hexp. cbn [mbind result_bind].
  destruct (expand_leaf_inv _ _ _ _ _ _ _ _ _ Hinv Hexp) as [Hinv1 Hnode1].
  apply fault_of_wheel_bind.
  { pose proof (rollout_outcomes_aux board horizon state1 g2) as Hout.
    destruct (rollout horizon board state1 g2) as [[s' g']|e| |]; simpl; try done.
    destruct Hout as [-> _]. by left. }
  intros [result_state g3] Hroll.
  unfold is_win. destruct (points_values board result_state) as [outcome|];
    [|simpl; auto].
  cbn [mbind result_bind].
  destruct (backpropagate_spec (length t1) t1 node1
              (outcome bot_identity =? 1)%Z (inv_parents t1 Hinv1) Hnode1 Hnode1)
    as (t2 & -> & _).
  done.
Qed.

Lemma search_loop_wheel_fault (k : nat) : ∀ w : World Action,
  tree_inv (w_tree w) →
  fault_of_wheel
    (search_loop traverse horizon k board current_state bot_identity w).
Proof using traverse_outcomes.
  induction k as [|k IH]; intros w Hinv; cbn [search_loop]; [done|].
  apply fault_of_wheel_bind; [by apply iteration_wheel_fault|]. intros w1 Hit.
  apply IH. by destruct (iteration_inv _ _ _ _ _ _ _ Hinv Hit).
Qed.
End WheelFaults.

(** ** Counting visits *)

Section Sums.
Lemma sum_list_fmap_same (f g : nat → nat) (l : list nat) :
  (∀ c, c ∈ l → g c = f c) → sum_list (g <$> l) = sum_list (f <$> l).
Proof.
  induction l as [|a l IH]; intros Hfg; [done|]. cbn.
  rewrite (Hfg a) by left. rewrite IH; [done|]. intros c Hc. apply Hfg. by right.
Qed.

Lemma sum_list_fmap_one (f g : nat → nat) (l : list nat) (c0 : nat) :
  NoDup l → c0 ∈ l → g c0 = S (f c0) → (∀ c, c ∈ l → c ≠ c0 → g c = f c) →
  sum_list (g <$> l) = S (sum_list (f <$> l)).
Proof.
  induction l as [|a l IH]; intros Hnd Hin H0 Hrest; [by apply elem_of_nil in Hin|].
  apply NoDup_cons in Hnd as [Ha Hnd]. cbn.
  destruct (decide (a = c0)) as [->|Hne].
  - rewrite H0. rewrite (sum_list_fmap_same f g l); [lia|].
    intros c Hc. apply Hrest; [by right|]. by intros ->.
  - apply elem_of_cons in Hin as [->|Hin]; [done|].
    rewrite (Hrest a); [|by left|done]. rewrite IH; [lia|done..|].
    intros c Hc. apply Hrest. by right.
Qed.
End Sums.

Section DictValues.
Context {K : Type} `{EqDecision K}.

Lemma values_dict_set_elem (d : list (K * nat)) (k : K) (v x : nat) :
  x ∈ values (dict_set d k v) → x = v ∨ x ∈ values d.
Proof.
  induction d as [|[k' w] d IH]; cbn.
  - intros Hx. apply list_elem_of_singleton in Hx. by left.
  - destruct (decide (k' = k)); cbn; intros Hx.
    + apply elem_of_cons in Hx as [->|Hx]; [by left|]. right. by right.
    + apply elem_of_cons in Hx as [->|Hx]; [right; left|].
      destruct (IH Hx) as [->|Hin]; [by left|]. right. by right.
Qed.

Lemma NoDup_values_dict_set (d : list (K * nat)) (k : K) (v : nat) :
  NoDup (values d) → v ∉ values d → NoDup (values (dict_set d k v)).
Proof.
  induction d as [|[k' w] d IH]; cbn; intros Hnd Hv.
  - apply NoDup_singleton.
  - apply NoDup_cons in Hnd as [Hw Hnd].
    apply not_elem_of_cons in Hv as [Hvw Hv].
    destruct (decide (k' = k)); cbn; apply NoDup_cons.
    + done.
    + split; [|by apply IH]. intros Hin.
      apply values_dict_set_elem in Hin as [->|Hin]; done.
Qed.

Lemma sum_values_dict_set (f : nat → nat) (d : list (K * nat)) (k : K) (v : nat) :
  sum_list (f <$> values (dict_set d k v)) ≤ sum_list (f <$> values d) + f v.
Proof.
  induction d as [|[k' w] d IH]; cbn; [lia|].
  destruct (decide (k' = k)); cbn; [lia|].
  unfold values in IH. lia.
Qed.

Lemma sum_values_dict_set_new (f : nat → nat) (d : list (K * nat)) (k : K) (v : nat) :
  k ∉ keys d →
  sum_list (f <$> values (dict_set d k v)) = sum_list (f <$> values d) + f v.
Proof.
  induction d as [|[k' w] d IH]; cbn; intros Hk; [lia|].
  apply not_elem_of_cons in Hk as [Hne Hk].
  destruct (decide (k' = k)); [done|]. cbn.
  unfold values, keys in IH. rewrite IH by done. lia.
Qed.
End DictValues.

Section PathFacts.
Context {Action : Type}.
Implicit Types (t : Tree Action).

Lemma on_path_linear t n x y :
  on_path t n x → on_path t n y → on_path t x y ∨ on_path t y x.
Proof.
  intros Hx. revert y. induction Hx as [n|n nd p x Hn Hpar Hx IH]; intros y Hy.
  - by left.
  - inversion Hy as [|n' nd' p' y' Hn' Hpar' Hy']; subst.
    + right. by eapply on_path_up.
    + assert (nd' = nd) as -> by congruence.
      assert (p' = p) as -> by congruence.
      by apply IH.
Qed.

(** At most one child of a node is on a path to the root. *)
Lemma child_on_path_unique t n m c1 c2 cn1 cn2 :
  parents_below t → on_path t n c1 → on_path t n c2 →
  t !! c1 = Some cn1 → t !! c2 = Some cn2 →
  parent cn1 = Some m → parent cn2 = Some m → c1 = c2.
Proof.
  intros Hp H1 H2 Hc1 Hc2 Hp1 Hp2.
  pose proof (Hp c1 cn1 m Hc1 Hp1) as Hlt1.
  pose proof (Hp c2 cn2 m Hc2 Hp2) as Hlt2.
  destruct (on_path_linear t n c1 c2 H1 H2) as [H|H];
    inversion H as [|? nd p ? Hn Hpar Hup]; subst; try done.
  - assert (nd = cn1) as -> by congruence. assert (p = m) as -> by congruence.
    apply on_path_le in Hup; [lia|done].
  - assert (nd = cn2) as -> by congruence. assert (p = m) as -> by congruence.
    apply on_path_le in Hup; [lia|done].
Qed.

(** A node on a path, other than its start, is the parent of a node on it. *)
Lemma on_path_pred t n m :
  on_path t n m → n ≠ m →
  ∃ c cn, on_path t n c ∧ t !! c = Some cn ∧ parent cn = Some m.
Proof.
  induction 1 as [n|n nd p m Hn Hpar Hup IH]; intros Hne; [done|].
  destruct (decide (p = m)) as [->|Hpm].
  - exists n, nd. split_and!; [constructor | done | done].
  - destruct (IH Hpm) as (c & cn & Hc & Hcn & Hcp).
    exists c, cn. split_and!; [|done|done]. by eapply on_path_up.
Qed.

Lemma on_path_dec t : parents_below t →
  ∀ n m, on_path t n m ∨ ¬ on_path t n m.
Proof.
  intros Hp n. induction (lt_wf n) as [n _ IH]. intros m.
  destruct (decide (n = m)) as [->|Hne]; [left; constructor|].
  destruct (t !! n) as [nd|] eqn:Hn.
  2: { right. intros Hpath. inversion Hpath; subst; congruence. }
  destruct (parent nd) as [p|] eqn:Hpar.
  2: { right. intros Hpath. inversion Hpath; subst; congruence. }
  destruct (IH p (Hp n nd p Hn Hpar) m) as [Hup|Hup].
  - left. by eapply on_path_up.
  - right. intros Hpath. inversion Hpath as [|? nd' p' ? Hn' Hpar' Hup']; subst; [done|].
    assert (nd' = nd) as -> by congruence. assert (p' = p) as -> by congruence.
    done.
Qed.

Lemma on_path_among t n (l : list nat) : parents_below t →
  (∃ c, c ∈ l ∧ on_path t n c) ∨ (∀ c, c ∈ l → ¬ on_path t n c).
Proof.
  intros Hp. induction l as [|a l IH].
  - right. intros c Hc. by apply elem_of_nil in Hc.
  - destruct (on_path_dec t Hp n a) as [Ha|Ha].
    + left. exists a. split; [left | done].
    + destruct IH as [(c & Hc & Hpath)|Hnone].
      * left. exists c. split; [by right | done].
      * right. intros c Hc. apply elem_of_cons in Hc as [->|Hc]; [done|].
        by apply Hnone.
Qed.
End PathFacts.

Section BackpropCounts.
Context {Action : Type} `{EqDecision Action}.
Implicit Types (t : Tree Action).

Lemma visits_at_backpropagated t n won t' :
  parents_below t → n < length t →
  backpropagate (length t) t (Some n) won = Ok t' →
  ∀ c, (on_path t n c → visits_at t' c = S (visits_at t c)) ∧
       (¬ on_path t n c → visits_at t' c = visits_at t c).
Proof.
  intros Hp Hn Hrun c.
  destruct (backpropagated_lookup t n won t' Hp Hn Hrun) as [Hlen Hlook].
  unfold visits_at. destruct (t' !! c) as [x|] eqn:Hc.
  - destruct (Hlook c x Hc) as (nd & -> & [[Hpath ->]|[Hpath ->]]).
    + split; [intros _; simpl; lia | done].
    + split; [done | by intros _].
  - apply lookup_ge_None in Hc. rewrite Hlen in Hc.
    split.
    + intros Hpath. apply on_path_le in Hpath; [lia|done].
    + intros _. apply lookup_ge_None in Hc. by rewrite Hc.
Qed.

(** What a backpropagation adds to the visits of a node and to the total of
    its children: one to both when a child is on the path, else nothing to
    the total. *)
Lemma backpropagate_counts t n1 won t2 :
  tree_inv t → children_distinct t → n1 < length t →
  backpropagate (length t) t (Some n1) won = Ok t2 →
  ∀ m x, t !! m = Some x →
    ∃ x', t2 !! m = Some x' ∧
      ((on_path t n1 m ∧ visits x' = S (visits x)) ∨
       (¬ on_path t n1 m ∧ visits x' = visits x)) ∧
      (((∃ c, c ∈ values (child_nodes x) ∧ on_path t n1 c) ∧
        on_path t n1 m ∧ m ≠ n1 ∧ children_total t2 x' = S (children_total t x)) ∨
       ((∀ c, c ∈ values (child_nodes x) → ¬ on_path t n1 c) ∧
        children_total t2 x' = children_total t x)).
Proof.
  intros Hinv Hdist Hn Hrun m x Hm.
  pose proof (inv_parents t Hinv) as Hp.
  pose proof (visits_at_backpropagated t n1 won t2 Hp Hn Hrun) as Hat.
  destruct (backpropagate_spec (length t) t n1 won Hp Hn Hn) as (t' & Hrun' & _ & Hspec).
  rewrite Hrun in Hrun'. injection Hrun' as <-.
  assert (∃ x', t2 !! m = Some x' ∧ child_nodes x' = child_nodes x ∧
    ((on_path t n1 m ∧ visits x' = S (visits x)) ∨
     (¬ on_path t n1 m ∧ visits x' = visits x))) as (x' & Hx' & Hch & Hv).
  { destruct (Hspec m x Hm) as [[Hpath Hb]|[Hpath Hs]].
    - exists (bump won x). split_and!; [done | done |]. left. split; [done|]. simpl. lia.
    - exists x. split_and!; [done | done |]. by right. }
  exists x'. split_and!; [done | done |].
  unfold children_total. rewrite Hch.
  destruct (on_path_among t n1 (values (child_nodes x)) Hp) as [(c & Hc & Hpath)|Hnone].
  - left.
    apply list_elem_of_fmap in Hc as Hc'. destruct Hc' as ([a c'] & Heq & Hin).
    simpl in Heq. subst c'.
    destruct (inv_children t Hinv m x a c Hm Hin) as (cn & Hcn & Hpar & _).
    pose proof (Hp c cn m Hcn Hpar) as Hlt.
    pose proof (on_path_le t n1 c Hp Hpath) as Hle.
    split_and!.
    + by exists c.
    + by eapply on_path_extend.
    + lia.
    + apply (sum_list_fmap_one _ _ _ c); [by eapply Hdist | done | by apply Hat |].
      intros c2 Hc2 Hne. apply Hat. intros Hpath2. apply Hne.
      apply list_elem_of_fmap in Hc2 as ([a2 c2'] & Heq & Hin2).
      simpl in Heq. subst c2'.
      destruct (inv_children t Hinv m x a2 c2 Hm Hin2) as (cn2 & Hcn2 & Hpar2 & _).
      by eapply (child_on_path_unique t n1 m c2 c).
  - right. split; [done|].
    apply sum_list_fmap_same. intros c Hc. apply Hat. by apply Hnone.
Qed.
End BackpropCounts.

Section CountSteps.
Context {State Action : Type} `{EqDecision Action}.
Implicit Types (board : Board State Action) (t : Tree Action) (state : State).

Lemma backpropagate_distinct t n won t' :
  parents_below t → n < length t →
  backpropagate (length t) t (Some n) won = Ok t' →
  children_distinct t → children_distinct t'.
Proof.
  intros Hp Hn Hrun Hdist i x Hi.
  destruct (backpropagated_lookup t n won t' Hp Hn Hrun) as [_ Hlook].
  destruct (Hlook i x Hi) as (nd & Hnd & [[_ ->]|[_ ->]]); exact (Hdist i nd Hnd).
Qed.

Lemma backpropagate_cover t n1 won t2 :
  tree_inv t → children_distinct t → n1 < length t →
  backpropagate (length t) t (Some n1) won = Ok t2 →
  (∀ m x, t !! m = Some x →
     children_total t x + own_playout m ≤
       visits x + (if decide (m = n1) then 1 else 0)) →
  visits_cover t2.
Proof.
  intros Hinv Hdist Hn Hrun Hcover m x' Hm.
  destruct (backpropagated_lookup t n1 won t2 (inv_parents t Hinv) Hn Hrun)
    as [Hlen _].
  destruct (lookup_lt_is_Some_2 t m) as [x Hx].
  { rewrite <- Hlen. by eapply lookup_lt_Some. }
  destruct (backpropagate_counts t n1 won t2 Hinv Hdist Hn Hrun m x Hx)
    as (x'' & Hx'' & Hv & Hc).
  assert (x'' = x') as -> by congruence.
  specialize (Hcover m x Hx).
  destruct Hc as [(_ & Hpath & Hne & ->)|[_ ->]].
  - destruct Hv as [[_ ->]|[Hno _]]; [|done].
    destruct (decide (m = n1)); [done|]. lia.
  - destruct (decide (m = n1)) as [->|Hne].
    + destruct Hv as [[_ ->]|[Hno _]]; [lia|]. destruct Hno. constructor.
    + destruct Hv as [[_ ->]|[_ ->]]; lia.
Qed.

Lemma backpropagate_exact board (s0 : State) t n1 won t2 :
  tree_inv t → acted t → children_distinct t → children_recorded t →
  n1 < length t →
  backpropagate (length t) t (Some n1) won = Ok t2 →
  (∀ m x s, t !! m = Some x → state_at board s0 t m s →
     is_ended board s = false → legal_actions board s ≠ [] →
     visits x + (if decide (m = n1) then 1 else 0) =
       children_total t x + own_playout m) →
  visits_exact board s0 t2.
Proof.
  intros Hinv Hacted Hdist Hrec Hn Hrun Hexact m x' s Hm Hs Hend Hlegal.
  pose proof (inv_parents t Hinv) as Hp.
  destruct (backpropagated_lookup t n1 won t2 Hp Hn Hrun) as [Hlen _].
  destruct (lookup_lt_is_Some_2 t m) as [x Hx].
  { rewrite <- Hlen. by eapply lookup_lt_Some. }
  destruct (backpropagate_counts t n1 won t2 Hinv Hdist Hn Hrun m x Hx)
    as (x'' & Hx'' & Hv & Hc).
  assert (x'' = x') as -> by congruence.
  apply (state_at_backpropagated board s0 t n1 won t2 m s Hp Hn Hrun) in Hs.
  specialize (Hexact m x s Hx Hs Hend Hlegal).
  destruct Hc as [(_ & Hpath & Hne & ->)|[Hnone ->]].
  - destruct Hv as [[_ ->]|[Hno _]]; [|done].
    destruct (decide (m = n1)); [done|]. lia.
  - destruct (decide (m = n1)) as [->|Hne].
    + destruct Hv as [[_ ->]|[Hno _]]; [lia|]. destruct Hno. constructor.
    + destruct Hv as [[Hpath _]|[_ ->]]; [|lia].
      destruct (on_path_pred t n1 m Hpath) as (c & cn & Hc & Hcn & Hpar); [done|].
      destruct (Hacted c cn m Hcn Hpar) as [a Ha].
      destruct (Hrec c cn m a Hcn Hpar Ha) as (pn & Hpn & Hget).
      assert (pn = x) as -> by congruence.
      destruct (Hnone c); [|done].
      apply dict_get_Some_elem in Hget. apply list_elem_of_fmap. by exists (a, c).
Qed.

Lemma children_below t m x c :
  tree_inv t → t !! m = Some x → c ∈ values (child_nodes x) → c < length t.
Proof.
  intros Hinv Hm Hc. apply list_elem_of_fmap in Hc as ([a c'] & -> & Hin).
  destruct (child_entry t m x a c' Hinv Hm Hin) as (cn & Hcn & _). simpl.
  by eapply lookup_lt_Some.
Qed.

Lemma visits_at_expanded t node nd rest action cn c :
  t !! node = Some nd → c < length t →
  visits_at (<[node := with_expansion nd rest action (length t)]> t ++ [cn]) c =
    visits_at t c.
Proof.
  intros Hnd Hc. destruct (lookup_lt_is_Some_2 t c Hc) as [x Hx].
  destruct (expanded_old t node nd rest action cn c x Hnd Hx) as (x' & Hx' & _ & _ & Hv & _).
  unfold visits_at. by rewrite Hx', Hx.
Qed.

Lemma visits_at_new t node (nd' cn : MCTSNode Action) :
  visits_at (<[node := nd']> t ++ [cn]) (length t) = visits cn.
Proof.
  unfold visits_at. rewrite lookup_app_r by (by rewrite length_insert).
  rewrite length_insert. by rewrite Nat.sub_diag.
Qed.

Lemma children_total_expanded t node nd rest action cn m x :
  tree_inv t → t !! node = Some nd → t !! m = Some x →
  children_total (<[node := with_expansion nd rest action (length t)]> t ++ [cn]) x =
    children_total t x.
Proof.
  intros Hinv Hnd Hm. apply sum_list_fmap_same. intros c Hc.
  apply visits_at_expanded; [done|]. by eapply children_below.
Qed.

Lemma expand_leaf_cover board t node state g t1 n1 s1 g1 :
  tree_inv t → children_distinct t → visits_cover t →
  expand_leaf board t node state g = Ok (t1, n1, s1, g1) →
  children_distinct t1 ∧
  ∀ m x, t1 !! m = Some x →
    children_total t1 x + own_playout m ≤
      visits x + (if decide (m = n1) then 1 else 0).
Proof.
  intros Hinv Hdist Hcover Hexp.
  assert (∃ nd, t !! node = Some nd) as [nd Hnd].
  { unfold expand_leaf in Hexp. inv_Ok Hexp. apply node_at_Ok in Ha. eauto. }
  destruct (decide (untried_actions nd = [])) as [Hnil|Hne].
  { rewrite (expand_leaf_tried board t node nd state g Hnd Hnil) in Hexp.
    injection Hexp as <- <- <- <-. split; [done|]. intros m x Hm.
    specialize (Hcover m x Hm). lia. }
  destruct (expand_leaf_untried board t node nd state g Hnd Hne)
    as (action & l1 & l2 & _ & Hl & _ & Heq).
  rewrite Heq in Hexp. injection Hexp as <- <- <- <-.
  pose proof (lookup_lt_Some _ _ _ Hnd) as Hlt.
  split.
  - intros m x Hm.
    destruct (expanded_lookup _ _ _ _ _ _ _ Hnd Hm) as [[-> ->]|[[-> ->]|[_ Hold]]].
    + apply NoDup_nil_2.
    + cbn [child_nodes with_expansion]. apply NoDup_values_dict_set; [by eapply Hdist|].
      intros Hin. pose proof (children_below t node nd _ Hinv Hnd Hin). lia.
    + by eapply Hdist.
  - intros m x Hm.
    destruct (expanded_lookup _ _ _ _ _ _ _ Hnd Hm) as [[-> ->]|[[-> ->]|[Hne' Hold]]].
    + rewrite decide_True by done. unfold children_total, own_playout. simpl.
      destruct (decide (length t = root_node)); lia.
    + rewrite decide_False by lia.
      pose proof (Hcover node nd Hnd) as Hc.
      cbn [visits with_expansion].
      unfold children_total at 1. cbn [child_nodes with_expansion].
      pose proof (sum_values_dict_set
        (visits_at (<[node := with_expansion nd (l1 ++ l2) action (length t)]> t ++
              [MCTSNode_init (Some node) (Some action)
                 (legal_actions board (next_state board state action))]))
        (child_nodes nd) action (length t)) as Hsum.
      rewrite visits_at_new in Hsum. cbn [visits MCTSNode_init] in Hsum.
      rewrite (sum_list_fmap_same (visits_at t) _ (values (child_nodes nd))) in Hsum.
      2: { intros c Hc'. apply visits_at_expanded; [done|]. by eapply children_below. }
      unfold children_total in Hc. lia.
    + rewrite (children_total_expanded t node nd _ _ _ m x Hinv Hnd Hold).
      pose proof (Hcover m x Hold) as Hc.
      destruct (decide (m = length t)); lia.
Qed.

Lemma expand_leaf_exact board (s0 : State) t node state g t1 n1 s1 g1 :
  distinct_actions board → tree_inv t → actions_partitioned board s0 t →
  state_at board s0 t node state → visits_exact board s0 t →
  (∀ nd, t !! node = Some nd → untried_actions nd = [] →
     is_ended board state = true ∨ legal_actions board state = []) →
  expand_leaf board t node state g = Ok (t1, n1, s1, g1) →
  ∀ m x s, t1 !! m = Some x → state_at board s0 t1 m s →
    is_ended board s = false → legal_actions board s ≠ [] →
    visits x + (if decide (m = n1) then 1 else 0) =
      children_total t1 x + own_playout m.
Proof.
  intros Hdistinct Hinv Hpart Hstate Hexact Hexempt Hexp.
  assert (∃ nd, t !! node = Some nd) as [nd Hnd].
  { unfold expand_leaf in Hexp. inv_Ok Hexp. apply node_at_Ok in Ha. eauto. }
  destruct (decide (untried_actions nd = [])) as [Hnil|Hne].
  { rewrite (expand_leaf_tried board t node nd state g Hnd Hnil) in Hexp.
    injection Hexp as <- <- <- <-. intros m x s Hm Hs Hend Hlegal.
    destruct (decide (m = node)) as [->|Hne].
    - rewrite (state_at_fun board s0 t node s Hs state Hstate) in Hend, Hlegal.
      destruct (Hexempt nd Hnd Hnil); congruence.
    - rewrite (Hexact m x s Hm Hs Hend Hlegal). lia. }
  destruct (expand_leaf_untried board t node nd state g Hnd Hne)
    as (action & l1 & l2 & _ & Hl & _ & Heq).
  rewrite Heq in Hexp. injection Hexp as <- <- <- <-.
  pose proof (lookup_lt_Some _ _ _ Hnd) as Hlt.
  pose proof (inv_parents t Hinv) as Hp.
  assert (action ∉ keys (child_nodes nd)) as Hnew.
  { pose proof (Hpart node nd state Hnd Hstate) as Hperm.
    assert (NoDup (keys (child_nodes nd) ++ untried_actions nd)) as Hnd'
      by (rewrite Hperm; apply Hdistinct).
    apply NoDup_app in Hnd' as (_ & Hdisj & _). intros Hin.
    apply (Hdisj action Hin). rewrite Hl, !elem_of_app, list_elem_of_singleton. auto. }
  intros m x s Hm Hs Hend Hlegal.
  destruct (expanded_lookup _ _ _ _ _ _ _ Hnd Hm) as [[-> ->]|[[-> ->]|[Hne' Hold]]].
  - rewrite decide_True by done. unfold children_total, own_playout. simpl.
    rewrite decide_False; [done|]. unfold root_node. lia.
  - rewrite decide_False by lia.
    apply state_at_expanded_old in Hs; [|done..].
    pose proof (Hexact node nd s Hnd Hs Hend Hlegal) as He.
    cbn [visits with_expansion].
    unfold children_total at 1. cbn [child_nodes with_expansion].
    rewrite (sum_values_dict_set_new _ _ _ _ Hnew).
    rewrite visits_at_new. cbn [visits MCTSNode_init].
    rewrite (sum_list_fmap_same (visits_at t) _ (values (child_nodes nd))).
    2: { intros c Hc'. apply visits_at_expanded; [done|]. by eapply children_below. }
    unfold children_total in He. lia.
  - pose proof (lookup_lt_Some _ _ _ Hold) as Hmlt.
    apply state_at_expanded_old in Hs; [|done..].
    rewrite (children_total_expanded t node nd _ _ _ m x Hinv Hnd Hold).
    rewrite decide_False by lia.
    rewrite (Hexact m x s Hold Hs Hend Hlegal). lia.
Qed.
End CountSteps.

Section CountLoop.
Context {State Action num : Type} `{EqDecision Action} `{Arith num}.
Variable traverse :
  Tree Action → Board State Action → State → nat → Rng → result (nat * State * Rng).
Variables (board : Board State Action) (s0 : State).
Variables (horizon bot_identity : nat).

Hypothesis bot :
  traverse = Vanilla.traverse ∨ traverse = Modified.traverse (num := num).
Hypothesis distinct : distinct_actions board.

Lemma iteration_counts (w w' : World Action) :
  search_inv (w_tree w) →
  actions_partitioned board s0 (w_tree w) → children_recorded (w_tree w) →
  children_distinct (w_tree w) ∧ visits_cover (w_tree w) ∧
    visits_exact board s0 (w_tree w) →
  iteration traverse horizon board s0 bot_identity w = Ok w' →
  children_distinct (w_tree w') ∧ visits_cover (w_tree w') ∧
    visits_exact board s0 (w_tree w').
Proof using bot distinct.
  intros Hs Hpart Hrec (Hdist & Hcover & Hexact) Hit.
  pose proof (sinv_tree _ Hs) as Hinv.
  unfold iteration in Hit.
  apply bind_Ok in Hit as ([[node st] g1] & Htr & Hit).
  apply bind_Ok in Hit as ([[[t1 node1] st1] g2] & Hexp & Hit).
  apply bind_Ok in Hit as ([result_state g3] & Hroll & Hit).
  apply bind_Ok in Hit as (won & Hwin & Hit).
  apply bind_Ok in Hit as (t2 & Hback & Hit).
  injection Hit as <-. cbn [w_tree].
  pose proof (bot_traverse_state traverse board s0 bot_identity bot _ _ _ _ _
                Hinv Htr) as Hstate.
  destruct (bot_traverse_stops traverse board s0 bot_identity bot _ _ _ _ _ Htr)
    as (nd & Hnd & Hstop).
  assert (∀ nd, w_tree w !! node = Some nd → untried_actions nd = [] →
            is_ended board st = true ∨ legal_actions board st = []) as Hexempt.
  { intros nd' Hnd' Hnil. assert (nd' = nd) as -> by congruence.
    destruct Hstop as [Hend | [Hne | Hnone]]; [by left | done |].
    right. apply (nothing_visited_childless (w_tree w) node nd Hs Hnd) in Hnone.
    pose proof (Hpart node nd st Hnd Hstate) as Hperm.
    rewrite Hnone, Hnil in Hperm. simpl in Hperm.
    by apply Permutation_nil_l in Hperm. }
  destruct (expand_leaf_inv _ _ _ _ _ _ _ _ _ Hinv Hexp) as [Hinv1 Hn1].
  destruct (expand_leaf_sinv _ _ _ _ _ _ _ _ _ Hs Hexp) as (_ & Hacted1 & _).
  destruct (expand_leaf_partitioned board s0 _ _ _ _ _ _ _ _ distinct Hinv Hpart Hrec
              Hstate Hexp) as [Hpart1 Hrec1].
  destruct (expand_leaf_cover _ _ _ _ _ _ _ _ _ Hinv Hdist Hcover Hexp)
    as [Hdist1 Hcover1].
  pose proof (expand_leaf_exact board s0 _ _ _ _ _ _ _ _ distinct Hinv Hpart Hstate
                Hexact Hexempt Hexp) as Hexact1.
  split_and!.
  - by eapply backpropagate_distinct; [apply Hinv1 | exact Hn1 | exact Hback |].
  - by eapply backpropagate_cover.
  - by eapply backpropagate_exact.
Qed.

Lemma search_loop_counts (k : nat) : ∀ w w' : World Action,
  search_inv (w_tree w) →
  actions_partitioned board s0 (w_tree w) → children_recorded (w_tree w) →
  children_distinct (w_tree w) ∧ visits_cover (w_tree w) ∧
    visits_exact board s0 (w_tree w) →
  search_loop traverse horizon k board s0 bot_identity w = Ok w' →
  children_distinct (w_tree w') ∧ visits_cover (w_tree w') ∧
    visits_exact board s0 (w_tree w').
Proof using bot distinct.
  induction k as [|k IH]; intros w w' Hs Hpart Hrec Hcount Hrun; simpl in Hrun.
  - by injection Hrun as <-.
  - apply bind_Ok in Hrun as (w1 & Hit & Hrun).
    pose proof (iteration_counts w w1 Hs Hpart Hrec Hcount Hit) as Hcount1.
    destruct (iteration_sinv _ _ _ _ _ _ _ Hs Hit) as [Hs1 _].
    destruct (iteration_game board s0 traverse horizon bot_identity
                (bot_traverse_state traverse board s0 bot_identity bot)
                w w1 (sinv_tree _ Hs) Hit) as [_ Hgame].
    destruct (Hgame distinct (conj Hpart Hrec)) as [Hpart1 Hrec1].
    by apply (IH w1 w').
Qed.

Lemma counts_initial (actions : list Action) :
  children_distinct [MCTSNode_init None None actions] ∧
  visits_cover [MCTSNode_init None None actions] ∧
  visits_exact board s0 [MCTSNode_init None None actions].
Proof.
  split_and!.
  - intros [|i] nd Hi; [|done]. injection Hi as <-. apply NoDup_nil_2.
  - intros [|n] nd Hn; [|done]. injection Hn as <-. done.
  - intros [|n] nd s Hn; [|done]. injection Hn as <-. done.
Qed.
End CountLoop.

(** The total that [total_visits] computes. *)
Lemma total_visits_children {Action : Type} (t : Tree Action)
    (nd : MCTSNode Action) :
  (∀ c, c ∈ values (child_nodes nd) → is_Some (t !! c)) →
  Modified.total_visits t nd = Ok (children_total t nd).
Proof.
  intros Hres. unfold Modified.total_visits, children_total.
  generalize dependent (values (child_nodes nd)). intros l Hres.
  assert (map_result (λ c, cn ← node_at t c; Ok (visits cn)) l =
          Ok (visits_at t <$> l)) as ->; [|done].
  induction l as [|c l IH]; [done|]. cbn [map_result].
  destruct (Hres c) as [cn Hcn]; [left|].
  change (visits_at t <$> c :: l) with (visits_at t c :: (visits_at t <$> l)).
  unfold visits_at at 1. rewrite Hcn.
  apply node_at_Ok in Hcn as ->. cbn [mbind result_bind].
  rewrite IH; [done|]. intros c' Hc'. apply Hres. by right.
Qed.

(** * Further theorems *)

(** X1 ([rollout] of both files, with [heuristic_strategy]).  A playout that
    returns hands back an ended state that the game reaches from the given
    state by legal moves only.  The only exception a playout raises is the
    [IndexError] of [choice] on an empty list, at a state the game reaches by
    legal moves that is not ended and has no legal action; it follows no
    missing reference; and when it is still going after [fuel] moves it is
    at a state that is not ended. *)
Theorem rollout_outcomes {State Action : Type} (board : Board State Action)
    (fuel : nat) (state : State) (g : Rng) :
  match rollout fuel board state g with
  | Ok (state', _) => played board state state' ∧ is_ended board state' = true
  | Raise e =>
      e = IndexError ∧
      ∃ state', played board state state' ∧ is_ended board state' = false ∧
                legal_actions board state' = []
  | IllFormed => False
  | OutOfFuel => ∃ state', played board state state' ∧ is_ended board state' = false
  end.
Proof. apply rollout_outcomes_aux. Qed.

(** X2 ([rollout] of both files).  On a game where every legal move of a
    state that is not ended lowers a rank of the state, and every state that
    is not ended has a legal move, the playout returns, after at most as many
    moves as the rank of the state it starts from, an ended state reached by
    legal moves. *)
Theorem rollout_terminates {State Action : Type} (board : Board State Action)
    (rank : State → nat) (fuel : nat) (state : State) (g : Rng) :
  ranked board rank → rank state ≤ fuel →
  ∃ state' g',
    rollout fuel board state g = Ok (state', g') ∧
    played board state state' ∧ is_ended board state' = true.
Proof.
  intros Hranked Hfuel.
  destruct (rollout_ranked board rank fuel Hranked state g Hfuel) as [[s' g'] Hrun].
  pose proof (rollout_outcomes_aux board fuel state g) as Hout.
  rewrite Hrun in Hout. by exists s', g'.
Qed.

Lemma rollout_terminates_witness :
  ∃ state' g',
    rollout 3 Takeaway.board (3, 1) Takeaway.zeros = Ok (state', g') ∧
    played Takeaway.board (3, 1) state' ∧ is_ended Takeaway.board state' = true.
Proof.
  apply (rollout_terminates Takeaway.board fst 3 (3, 1) Takeaway.zeros
           takeaway_ranked).
  simpl. lia.
Defined.


(** X4 (the tree that [expand_leaf] and [backpropagate] build in the loop of
    [think], both files).  After any number of completed iterations, however
    the tree is descended: a node's parent was created before it; every
    entry [a: c] of a [child_nodes] is a node whose [parent] is the owner of
    the dictionary and whose [parent_action] is [a]; the root is the only
    node without a parent; every other node has a [parent_action]; and the
    [parent] references of every node lead to the root. *)
Theorem search_tree_shape {State Action : Type} `{EqDecision Action}
    (traverse : Tree Action → Board State Action → State → nat → Rng →
                result (nat * State * Rng))
    (horizon k : nat) (board : Board State Action) (s0 : State)
    (bot_identity : nat) (g : Rng) (w : World Action) :
  search_loop traverse horizon k board s0 bot_identity (initial_world board s0 g) =
    Ok w →
  parents_below (w_tree w) ∧ children_linked (w_tree w) ∧
  rooted (w_tree w) ∧ acted (w_tree w) ∧
  ∀ n, n < length (w_tree w) → on_path (w_tree w) n root_node.
Proof.
  intros Hrun.
  destruct (run_inv traverse board s0 horizon bot_identity k g w Hrun)
    as ([Hinv Hrooted Hacted _] & _).
  split_and!; [apply Hinv | apply Hinv | done | done |].
  intros n Hn. apply on_path_to_root; [apply Hinv | done | done].
Qed.

Lemma search_tree_shape_witness :
  ∃ w,
    search_loop (Modified.traverse (num := Q)) 3 4 Takeaway.board (3, 1) 1
      (initial_world Takeaway.board (3, 1) Takeaway.zeros) = Ok w ∧
    parents_below (w_tree w) ∧ children_linked (w_tree w) ∧
    rooted (w_tree w) ∧ acted (w_tree w) ∧
    ∀ n, n < length (w_tree w) → on_path (w_tree w) n root_node.
Proof.
  eexists. split; [vm_compute; reflexivity|].
  apply (search_tree_shape (Modified.traverse (num := Q)) 3 4 Takeaway.board (3, 1) 1
           Takeaway.zeros).
  vm_compute. reflexivity.
Defined.

(** X5 (the counters, [backpropagate] in the loop of [think], both files).
    After [k] completed iterations the root has [visits = k], the tree has
    at most [k + 1] nodes, and every other node has between 1 and [k]
    visits, at most as many as its parent. *)
Theorem search_visit_counts {State Action : Type} `{EqDecision Action}
    (traverse : Tree Action → Board State Action → State → nat → Rng →
                result (nat * State * Rng))
    (horizon k : nat) (board : Board State Action) (s0 : State)
    (bot_identity : nat) (g : Rng) (w : World Action) :
  search_loop traverse horizon k board s0 bot_identity (initial_world board s0 g) =
    Ok w →
  1 ≤ length (w_tree w) ≤ k + 1 ∧
  (∃ r, w_tree w !! root_node = Some r ∧ visits r = k) ∧
  ∀ n nd, w_tree w !! n = Some nd → n ≠ root_node →
    1 ≤ visits nd ≤ k ∧
    ∃ p pn, parent nd = Some p ∧ w_tree w !! p = Some pn ∧ visits nd ≤ visits pn.
Proof.
  intros Hrun.
  destruct (run_inv traverse board s0 horizon bot_identity k g w Hrun)
    as ([Hinv Hrooted Hacted Hvisited] & Hlen & r & Hr & Hk).
  split; [done|]. split; [by exists r|].
  intros n nd Hnd Hn. split.
  - pose proof (Hvisited n nd Hnd Hn) as Hv. split; [lia|].
    rewrite <- Hk. apply lookup_lt_Some in Hnd as Hlt.
    eapply on_path_visits; [apply Hinv | apply Hinv | | exact Hnd | exact Hr].
    apply on_path_to_root; [apply Hinv | done | done].
  - destruct (parent nd) as [p|] eqn:Hpar; [|by destruct Hn; eapply Hrooted].
    pose proof (inv_parents _ Hinv n nd p Hnd Hpar) as Hlt.
    apply lookup_lt_Some in Hnd as Hn'.
    destruct (lookup_lt_is_Some_2 (w_tree w) p) as [pn Hpn]; [lia|].
    exists p, pn. split_and!; [done | done |].
    by apply (inv_visits _ Hinv n nd p pn).
Qed.

Lemma search_visit_counts_witness :
  ∃ w,
    search_loop (Modified.traverse (num := Q)) 3 4 Takeaway.board (3, 1) 1
      (initial_world Takeaway.board (3, 1) Takeaway.zeros) = Ok w ∧
    1 ≤ length (w_tree w) ≤ 4 + 1 ∧
    (∃ r, w_tree w !! root_node = Some r ∧ visits r = 4) ∧
    ∀ n nd, w_tree w !! n = Some nd → n ≠ root_node →
      1 ≤ visits nd ≤ 4 ∧
      ∃ p pn, parent nd = Some p ∧ w_tree w !! p = Some pn ∧ visits nd ≤ visits pn.
Proof.
  eexists. split; [vm_compute; reflexivity|].
  apply (search_visit_counts (Modified.traverse (num := Q)) 3 4 Takeaway.board (3, 1) 1
           Takeaway.zeros).
  vm_compute. reflexivity.
Defined.



(** X7 ([roulette_wheel_selection] at lines 34 and 35 of [traverse_nodes],
    [mcts_modified.py]).  When no cumulative probability reaches the
    threshold, [roulette_wheel_selection] falls out of its loop and returns
    [None], and the descent raises [KeyError] at [node.child_nodes[None]].
    In binary64 this happens: with children visited 1, 4, 1 and 1 times the
    probabilities add up to less than 1, below the largest value of
    [random()]. *)
Theorem roulette_fall_through_KeyError {State Action num : Type}
    `{EqDecision Action} `{Arith num} (board : Board State Action)
    (t : Tree Action) (node : nat) (nd : MCTSNode Action) (state : State)
    (bot_identity : nat) (g : Rng) (fuel total : nat)
    (probabilities : list (Action * num)) :
  t !! node = Some nd →
  is_ended board state = false → untried_actions nd = [] → some_visited t nd →
  Modified.total_visits t nd = Ok total →
  Modified.probabilities_of t nd total = Ok probabilities →
  first_reaching (num_random (g 0)) probabilities = None →
  Modified.traverse_nodes (S fuel) t node board state bot_identity g =
    Raise KeyError.
Proof. apply modified_fall_through. Qed.

Lemma roulette_fall_through_KeyError_witness :
  Modified.traverse_nodes (num := PrimFloat.float) 1 Takeaway.skew_tree 0
    Takeaway.board (3, 1) 1 Takeaway.largest = Raise KeyError.
Proof.
  eapply (roulette_fall_through_KeyError (num := PrimFloat.float) Takeaway.board
            Takeaway.skew_tree 0 Takeaway.skew_root (3, 1) 1 Takeaway.largest 0 7).
  - reflexivity.
  - reflexivity.
  - reflexivity.
  - split.
    + intros c Hc. simpl in Hc.
      repeat (apply elem_of_cons in Hc as [->|Hc]; [by eexists|]).
      by apply elem_of_nil in Hc.
    + exists 1, (Takeaway.leaf 1 1 1). split_and!; [simpl; left | reflexivity | simpl; lia].
  - reflexivity.
  - reflexivity.
  - vm_compute. reflexivity.
Defined.

(** X8 ([get_best_action] of both files).  Among the actions whose children
    have the most visits, [get_best_action] returns the one that was added to
    [child_nodes] first: every action before it in the dictionary has a child
    with fewer visits, every action after it a child with at most as many. *)
Theorem get_best_action_ties {Action : Type} `{EqDecision Action}
    (t : Tree Action) (root : nat) (r : MCTSNode Action) :
  t !! root = Some r → child_nodes r ≠ [] →
  (∀ a c, (a, c) ∈ child_nodes r → is_Some (t !! c)) →
  ∃ a c cn l1 l2,
    get_best_action t root = Ok (Some a) ∧
    keys (child_nodes r) = l1 ++ [a] ++ l2 ∧
    dict_get (child_nodes r) a = Some c ∧ t !! c = Some cn ∧
    (∀ b, b ∈ l1 → ∃ c' cn', dict_get (child_nodes r) b = Some c' ∧
                             t !! c' = Some cn' ∧ visits cn' < visits cn) ∧
    (∀ b, b ∈ l2 → ∃ c' cn', dict_get (child_nodes r) b = Some c' ∧
                             t !! c' = Some cn' ∧ visits cn' ≤ visits cn).
Proof. apply get_best_action_first. Qed.

Lemma get_best_action_ties_witness :
  ∃ a c cn l1 l2,
    get_best_action
      [Takeaway.fan_root 3 6; Takeaway.leaf 1 1 1; Takeaway.leaf 2 1 2;
       Takeaway.leaf 3 1 2] 0 = Ok (Some a) ∧
    keys (child_nodes (Takeaway.fan_root 3 6)) = l1 ++ [a] ++ l2 ∧
    dict_get (child_nodes (Takeaway.fan_root 3 6)) a = Some c ∧
    [Takeaway.fan_root 3 6; Takeaway.leaf 1 1 1; Takeaway.leaf 2 1 2;
     Takeaway.leaf 3 1 2] !! c = Some cn ∧
    (∀ b, b ∈ l1 →
       ∃ c' cn', dict_get (child_nodes (Takeaway.fan_root 3 6)) b = Some c' ∧
                 [Takeaway.fan_root 3 6; Takeaway.leaf 1 1 1; Takeaway.leaf 2 1 2;
                  Takeaway.leaf 3 1 2] !! c' = Some cn' ∧
                 visits cn' < visits cn) ∧
    (∀ b, b ∈ l2 →
       ∃ c' cn', dict_get (child_nodes (Takeaway.fan_root 3 6)) b = Some c' ∧
                 [Takeaway.fan_root 3 6; Takeaway.leaf 1 1 1; Takeaway.leaf 2 1 2;
                  Takeaway.leaf 3 1 2] !! c' = Some cn' ∧
                 visits cn' ≤ visits cn).
Proof.
  apply (get_best_action_ties
           [Takeaway.fan_root 3 6; Takeaway.leaf 1 1 1; Takeaway.leaf 2 1 2;
            Takeaway.leaf 3 1 2] 0 (Takeaway.fan_root 3 6)).
  - reflexivity.
  - simpl. discriminate.
  - intros a c Hin. simpl in Hin.
    repeat (apply elem_of_cons in Hin as [[= -> ->]|Hin]; [by eexists|]).
    by apply elem_of_nil in Hin.
Defined.

(** X9 (line 31 of [traverse_nodes], [mcts_vanilla.py]).  On a node with
    children, when [ucb] returns for each of them, [max(..., key=ucb)]
    returns, and what it returns is the first child with the greatest score
    in the order of binary64: no child before it has a score [>=] its
    score, no child after it a score [>] its score.  With 54945 visits of
    the parent, the children with 11880 wins in 22465 visits and 17400 wins
    in 32449 visits have the same score in binary64, and the first of the
    two is returned. *)
Theorem select_child_ties {Action : Type} `{EqDecision Action}
    (log : PrimFloat.float → PrimFloat.float) (t : Tree Action)
    (nd : MCTSNode Action) (identity : nat) :
  child_nodes nd ≠ [] →
  (∀ c, c ∈ values (child_nodes nd) → is_Ok (Vanilla64.ucb log t c identity)) →
  ∃ c s l1 l2,
    Vanilla64.select_child log t nd identity = Ok c ∧
    values (child_nodes nd) = l1 ++ [c] ++ l2 ∧
    Vanilla64.ucb log t c identity = Ok s ∧
    (∀ c', c' ∈ l1 →
       ∃ s', Vanilla64.ucb log t c' identity = Ok s' ∧ PrimFloat.leb s s' = false) ∧
    (∀ c', c' ∈ l2 →
       ∃ s', Vanilla64.ucb log t c' identity = Ok s' ∧ PrimFloat.ltb s s' = false).
Proof.
  intros Hne Hdef.
  apply (py_max_first_float (λ c, Vanilla64.ucb log t c identity)); [|done].
  unfold values. by destruct (child_nodes nd).
Qed.

Lemma select_child_ties_witness :
  (∃ c s l1 l2,
     Vanilla64.select_child libm_log Takeaway.tie_tree
       (mkNode None None [(1, 1); (2, 2)] [] 29280 54945) 1 = Ok c ∧
     values [(1, 1); (2, 2)] = l1 ++ [c] ++ l2 ∧
     Vanilla64.ucb libm_log Takeaway.tie_tree c 1 = Ok s ∧
     (∀ c', c' ∈ l1 →
        ∃ s', Vanilla64.ucb libm_log Takeaway.tie_tree c' 1 = Ok s' ∧
              PrimFloat.leb s s' = false) ∧
     (∀ c', c' ∈ l2 →
        ∃ s', Vanilla64.ucb libm_log Takeaway.tie_tree c' 1 = Ok s' ∧
              PrimFloat.ltb s s' = false)) ∧
  Vanilla64.select_child libm_log Takeaway.tie_tree
    (mkNode None None [(1, 1); (2, 2)] [] 29280 54945) 1 = Ok 1 ∧
  Vanilla64.ucb libm_log Takeaway.tie_tree 1 1 =
    Vanilla64.ucb libm_log Takeaway.tie_tree 2 1.
Proof.
  split; [|split; vm_compute; reflexivity].
  apply (select_child_ties libm_log Takeaway.tie_tree
           (mkNode None None [(1, 1); (2, 2)] [] 29280 54945) 1).
  - simpl. discriminate.
  - intros c Hc. simpl in Hc.
    repeat (apply elem_of_cons in Hc as [->|Hc]; [eexists; vm_compute; reflexivity|]).
    by apply elem_of_nil in Hc.
Defined.













